(** * maptile-proxy: tile cache, tile keys, tile acquisition and GCJ-02 transforms

    A shallow embedding of [src/index.ts] (the LRU tile cache and [getTile]),
    [src/storage.ts] (the durable-store key) and [src/gcj02.ts] (the
    coordinate transforms), followed by the properties proved about them. *)

From Stdlib Require Import List Bool Arith ZArith Lia String Ascii.
From Stdlib Require Import Strings.Byte.
From Stdlib Require Import Decimal DecimalString DecimalZ.
From Stdlib Require Import Reals Lra.
Import ListNotations.

Set Implicit Arguments.

(** A Node [Buffer]: a sequence of bytes.  As a JavaScript object it is always
    truthy, also when it is empty. *)
Definition Buffer : Type := list byte.

(* ================================================================== *)
(** ** The JavaScript [Map<string, Buffer>]                            *)
(* ================================================================== *)

(** A [Map] iterates in insertion order: [set] on a key that is present
    keeps the key's position, [set] on a new key appends it, and [delete]
    removes the entry.  The entries are kept oldest first. *)
Module JsMap.

Definition t : Type := list (string * Buffer).

Definition empty : t := [].

Fixpoint get (m : t) (k : string) : option Buffer :=
  match m with
  | [] => None
  | (k', v) :: m' => if String.eqb k k' then Some v else get m' k
  end.

Definition has (m : t) (k : string) : bool :=
  match get m k with Some _ => true | None => false end.

Fixpoint set (m : t) (k : string) (v : Buffer) : t :=
  match m with
  | [] => [(k, v)]
  | (k', v') :: m' =>
      if String.eqb k k' then (k', v) :: m' else (k', v') :: set m' k v
  end.

(** [delete] answers whether the key was present. *)
Fixpoint delete (m : t) (k : string) : bool * t :=
  match m with
  | [] => (false, [])
  | (k', v') :: m' =>
      if String.eqb k k' then (true, m')
      else let (found, r) := delete m' k in (found, (k', v') :: r)
  end.

Definition clear (m : t) : t := [].

Definition size (m : t) : nat := List.length m.

Definition keys (m : t) : list string := map fst m.

(** [m.keys().next().value]: the oldest key, [undefined] on an empty map. *)
Definition first_key (m : t) : option string :=
  match m with
  | [] => None
  | (k, _) :: _ => Some k
  end.

(** The representation invariant of a [Map]: one entry per key. *)
Definition wf (m : t) : Prop := NoDup (keys m).

End JsMap.

(* ================================================================== *)
(** ** [class LRUCache] of index.ts                                    *)
(* ================================================================== *)

Module LRUCache.

(** [maxSize] is whatever number the constructor was given; zero and
    negative sizes are representable, as in the source. *)
Record t : Type := mk { cache : JsMap.t; maxSize : Z }.

Definition new (maxSize : Z) : t := mk JsMap.empty maxSize.

Definition with_cache (c : t) (m : JsMap.t) : t := mk m (maxSize c).

(** [get]: a hit is taken out and put back, which moves it to the end. *)
Definition get (c : t) (key : string) : option Buffer * t :=
  match JsMap.get (cache c) key with
  | Some item =>
      let m1 := snd (JsMap.delete (cache c) key) in
      let m2 := JsMap.set m1 key item in
      (Some item, with_cache c m2)
  | None => (None, c)
  end.

Definition set (c : t) (key : string) (value : Buffer) : t :=
  let m := cache c in
  let m1 :=
    if JsMap.has m key then snd (JsMap.delete m key)
    else if (maxSize c <=? Z.of_nat (JsMap.size m))%Z then
      match JsMap.first_key m with
      | Some firstKey => snd (JsMap.delete m firstKey)
      | None => m       (* delete(undefined) removes nothing *)
      end
    else m in
  with_cache c (JsMap.set m1 key value).

Definition has (c : t) (key : string) : bool := JsMap.has (cache c) key.

Definition delete (c : t) (key : string) : bool * t :=
  let (found, m) := JsMap.delete (cache c) key in (found, with_cache c m).

Definition clear (c : t) : t := with_cache c (JsMap.clear (cache c)).

Definition size (c : t) : nat := JsMap.size (cache c).

(** The operations that change or touch the cache, as data. *)
Inductive op : Type :=
| Get (key : string)
| Set_ (key : string) (value : Buffer)
| Delete (key : string)
| Clear.

Definition step (c : t) (o : op) : t :=
  match o with
  | Get key => snd (get c key)
  | Set_ key value => set c key value
  | Delete key => snd (delete c key)
  | Clear => clear c
  end.

(** The cache after each operation of a sequence, in order. *)
Fixpoint states (c : t) (ops : list op) : list t :=
  match ops with
  | [] => []
  | o :: ops' => let c' := step c o in c' :: states c' ops'
  end.

Definition run (c : t) (ops : list op) : t := fold_left step ops c.

End LRUCache.

(* ================================================================== *)
(** ** Numbers as tile coordinates, and the tile keys                  *)
(* ================================================================== *)

Local Open Scope string_scope.

(** The numbers [getTile] can be handed: [Number.parseInt] yields an
    integer, [NaN], or an infinity for a numeral too long for a number.
    [Int n] is the number whose value is the integer [n]; fractions are not
    tile coordinates and are left out. *)
Inductive number : Type :=
| Int (n : Z)
| NaN
| Infinity
| NegInfinity.

(** [Number::toString], radix 10.  For an integer it is the decimal numeral
    with a leading minus sign when negative (exact for magnitudes below
    10^21, far beyond any tile index). *)
Definition toString (v : number) : string :=
  match v with
  | Int n => NilZero.string_of_int (Z.to_int n)
  | NaN => "NaN"
  | Infinity => "Infinity"
  | NegInfinity => "-Infinity"
  end.

(** What converting a value to a string does: it yields the string, or
    it throws. *)
Inductive conversion : Type :=
| Converts (s : string)
| ConversionThrows (message : string).

(** Run-time values of the arguments of [getTile]: the declared type is
    [number], the guard of [getTile] tests it with [typeof], and nothing
    keeps a caller in JavaScript from passing any value.  An object (a
    function is a callable one) is known by what its conversion to a
    string yields or throws, which is code of the caller ([toString],
    [valueOf] or [Symbol.toPrimitive]), taken not to call back into
    this module. *)
Inductive jsval : Type :=
| JsNumber (n : number)
| JsString (s : string)
| JsBoolean (b : bool)
| JsUndefined
| JsNull
| JsBigInt (n : Z)
| JsSymbol (description : string)
| JsObject (callable : bool) (to_string : conversion).

Definition typeof (v : jsval) : string :=
  match v with
  | JsNumber _ => "number"
  | JsString _ => "string"
  | JsBoolean _ => "boolean"
  | JsUndefined => "undefined"
  | JsNull => "object"
  | JsBigInt _ => "bigint"
  | JsSymbol _ => "symbol"
  | JsObject true _ => "function"
  | JsObject false _ => "object"
  end.

(** The value inside a template literal, [`${v}`]: its conversion to a
    string, which is a [TypeError] for a symbol and the object's own
    conversion for an object. *)
Definition template (v : jsval) : conversion :=
  match v with
  | JsNumber n => Converts (toString n)
  | JsString s => Converts s
  | JsBoolean true => Converts "true"
  | JsBoolean false => Converts "false"
  | JsUndefined => Converts "undefined"
  | JsNull => Converts "null"
  | JsBigInt n => Converts (NilZero.string_of_int (Z.to_int n))
  | JsSymbol _ => ConversionThrows "Cannot convert a Symbol value to a string"
  | JsObject _ to_string => to_string
  end.

(** [`${x}-${y}-${z}`], the key of the memory tier (index.ts, [getTile]). *)
Definition cacheKey (x y z : number) : string :=
  toString x ++ "-" ++ toString y ++ "-" ++ toString z.

(** The characters ["0"] to ["9"], and the strings made of them. *)
Definition is_digit (c : ascii) : bool :=
  (48 <=? N_of_ascii c)%N && (N_of_ascii c <=? 57)%N.

Fixpoint digits_only (s : string) : bool :=
  match s with
  | EmptyString => true
  | String c s' => is_digit c && digits_only s'
  end.

(** [class TileStorage] of storage.ts, as far as its keys go. *)
Module TileStorage.

Record t : Type := mk { bucket : string; prefix : string }.

(** [this.prefix = config.prefix || "tiles"]: a missing or empty prefix
    is replaced. *)
Definition new (bucket : string) (config_prefix : option string) : t :=
  mk bucket
     match config_prefix with
     | Some p => if String.eqb p "" then "tiles" else p
     | None => "tiles"
     end.

(** [`${this.prefix}/${z}/${x}/${y}.${format}`] *)
Definition getTileKey (s : t) (z x y : number) (format : string) : string :=
  prefix s ++ "/" ++ toString z ++ "/" ++ toString x ++ "/" ++ toString y
    ++ "." ++ format.

Definition getTileUrl (s : t) (z x y : number) (format : string) : string :=
  "s3://" ++ bucket s ++ "/" ++ getTileKey s z x y format.

End TileStorage.

(* ================================================================== *)
(** ** [getTile] of index.ts                                           *)
(* ================================================================== *)

Module Orchestrator.

(** [ol/TileState]: IDLE = 0, LOADING = 1, LOADED = 2, ERROR = 3, EMPTY = 4. *)
Inductive TileState : Type := IDLE | LOADING | LOADED | ERROR | EMPTY.

Definition TileState_code (s : TileState) : string :=
  match s with
  | IDLE => "0" | LOADING => "1" | LOADED => "2" | ERROR => "3" | EMPTY => "4"
  end.

(** What [tile.getImage()] hands back. *)
Inductive image : Type :=
| ImageMissing                     (* null or undefined *)
| ImageWithoutToBuffer             (* an object with no [toBuffer] function *)
| ImageCanvas (png : Buffer).      (* [toBuffer()] yields [png] *)

(** A tile of the render layer: its state when handed out, the states its
    change notifications show one after the other before the timeout
    elapses, and its image. *)
Record Tile : Type := mkTile {
  state0 : TileState;
  changes : list TileState;
  getImage : image
}.

Inductive render_result : Type :=
| RenderThrows (msg : string)
| RenderTile (tile : option Tile).   (* [None]: null or undefined *)

(** The outcome of [await s3Storage.getTile(z, x, y)]: the promise is
    fulfilled with a tile or with [null], it is rejected, or it never
    settles (the request is sent without a timeout, and the body stream
    of the answer may never end). *)
Inductive s3_read : Type :=
| S3Found (data : Buffer)
| S3Null
| S3ReadFails (msg : string)
| S3Pending.

(** How the promise of [s3Storage.saveTile(...)] settles.  The call does
    not wait for it: a promise that never settles is, for the call, one
    that is fulfilled. *)
Inductive s3_write : Type :=
| S3Saved
| S3WriteFails (msg : string).

(** The collaborators of [getTile] and the module constants it reads. *)
Record Env : Type := mkEnv {
  s3Enabled : bool;
  s3_getTile : number -> number -> number -> s3_read;
  s3_saveTile : number -> number -> number -> Buffer -> string -> s3_write;
  render_getTile : number -> number -> number -> render_result;
  TILE_LOAD_TIMEOUT : Z
}.

Inductive level : Type := Info | Warn | Error_.

(** What a call does, in order. *)
Inductive event : Type :=
| Log (l : level) (msg : string)
| MemGet (key : string)
| MemSet (key : string) (data : Buffer)
| S3Get (z x y : number)
| S3Save (z x y : number) (data : Buffer) (format : string)
| OriginGetTile (z x y : number)
| SetTimeout
| ClearTimeout
| AddListener
| RemoveListener
| Load.

(** A thrown [Error], known by its message. *)
Record Error : Type := mkError { message : string }.

Definition InvalidParameter : Error :=
  mkError "Invalid tile coordinates: x, y, and z must be numbers".
Definition TileIsNull : Error := mkError "Tile is null or undefined".
Definition TileLoadTimeout (ms : Z) : Error :=
  mkError ("Tile loading timeout after " ++ toString (Int ms) ++ "ms").
Definition TileLoadError : Error := mkError "Tile loading error".
Definition TileFailedToLoad : Error := mkError "Tile failed to load".
Definition InvalidTileData : Error := mkError "Invalid tile image data".

(** How a computation settles: it returns or it throws. *)
Inductive result (A : Type) : Type :=
| Return (a : A)
| Throw (e : Error).
Arguments Return {A} a.
Arguments Throw {A} e.

(** What an [async] function comes to: its promise settles, or it waits
    for ever on a promise that does not. *)
Inductive promise (A : Type) : Type :=
| Settled (r : result A)
| NeverSettles.
Arguments Settled {A} r.
Arguments NeverSettles {A}.

Coercion Settled : result >-> promise.

(** The state a call works on: the process-wide [tileCache] and the
    record of what has been done. *)
Record World : Type := mkWorld { tileCache : LRUCache.t; trace : list event }.

Definition M (A : Type) : Type := World -> promise A * World.

Definition ret {A} (a : A) : M A := fun w => (Settled (Return a), w).
Definition throw {A} (e : Error) : M A := fun w => (Settled (Throw e), w).
(** [await] of a promise that never settles: nothing after it runs, no
    [catch] either. *)
Definition never {A} : M A := fun w => (NeverSettles, w).
Definition bind {A B} (m : M A) (k : A -> M B) : M B :=
  fun w => match m w with
           | (Settled (Return a), w') => k a w'
           | (Settled (Throw e), w') => (Settled (Throw e), w')
           | (NeverSettles, w') => (NeverSettles, w')
           end.
Definition try_catch {A} (m : M A) (handler : Error -> M A) : M A :=
  fun w => match m w with
           | (Settled (Return a), w') => (Settled (Return a), w')
           | (Settled (Throw e), w') => handler e w'
           | (NeverSettles, w') => (NeverSettles, w')
           end.
Definition emit (e : event) : M unit :=
  fun w => (Settled (Return tt), mkWorld (tileCache w) (trace w ++ [e])).

Notation "x <- m ;; k" := (bind m (fun x => k))
  (at level 61, m at next level, right associativity).
Notation "m ;; k" := (bind m (fun _ => k))
  (at level 61, right associativity).

(** The logger records its message; it is taken not to throw. *)
Definition logger (l : level) (msg : string) : M unit := emit (Log l msg).

(** A template literal: it throws what the conversion of a value
    throws. *)
Definition interpolate (c : conversion) : M string :=
  match c with
  | Converts s => ret s
  | ConversionThrows message => throw (mkError message)
  end.

Definition tileCache_get (key : string) : M (option Buffer) :=
  emit (MemGet key) ;;
  fun w => let (r, c) := LRUCache.get (tileCache w) key in
           (Settled (Return r), mkWorld c (trace w)).

Definition tileCache_set (key : string) (data : Buffer) : M unit :=
  emit (MemSet key data) ;;
  fun w => (Settled (Return tt),
            mkWorld (LRUCache.set (tileCache w) key data) (trace w)).

Definition tileCache_size : M nat :=
  fun w => (Settled (Return (LRUCache.size (tileCache w))), w).

Section WithEnv.
Variable env : Env.

(** The change handler of the wait, run on each notification in turn;
    when the notifications run out the timer fires first. *)
Fixpoint await_change (notified : list TileState) : M TileState :=
  match notified with
  | [] =>
      emit RemoveListener ;;
      logger Error_ "Tile loading timeout" ;;
      throw (TileLoadTimeout (TILE_LOAD_TIMEOUT env))
  | s :: later =>
      match s with
      | LOADED | EMPTY =>
          emit ClearTimeout ;; emit RemoveListener ;; ret s
      | ERROR =>
          emit ClearTimeout ;; emit RemoveListener ;;
          logger Error_ "Tile loading error" ;;
          throw TileLoadError
      | IDLE | LOADING => await_change later
      end
  end.

(** [`getTile: ${x}, ${y}, ${z}`], the first line of [getTile]: the
    values are converted in this order, and the first conversion that
    throws ends the evaluation. *)
Definition getTile_line (x y z : jsval) : conversion :=
  match template x with
  | ConversionThrows message => ConversionThrows message
  | Converts sx =>
      match template y with
      | ConversionThrows message => ConversionThrows message
      | Converts sy =>
          match template z with
          | ConversionThrows message => ConversionThrows message
          | Converts sz =>
              Converts ("getTile: " ++ sx ++ ", " ++ sy ++ ", " ++ sz)
          end
      end
  end.

(** Step 2 of [getTile]: the durable tier, when enabled.  [Some] is a
    hit, which has been copied into the memory tier. *)
Definition s3_lookup (key : string) (x y z : number) : M (option Buffer) :=
  if s3Enabled env then
    emit (S3Get z x y) ;;
    match s3_getTile env z x y with
    | S3Found s3CachedTile =>
        logger Info ("tile loaded from S3 cache: " ++ key) ;;
        tileCache_set key s3CachedTile ;;
        ret (Some s3CachedTile)
    | S3Null => ret None
    | S3ReadFails _ =>
        logger Warn "Failed to load from S3 cache" ;;
        ret None
    | S3Pending => never
    end
  else ret None.

(** Step 3 of [getTile]: the body of its [try]. *)
Definition from_source (key : string) (x y z : number) : M Buffer :=
  emit (OriginGetTile z x y) ;;
  match render_getTile env z x y with
  | RenderThrows msg => throw (mkError msg)
  | RenderTile None => throw TileIsNull
  | RenderTile (Some tile) =>
      s <- match state0 tile with
           | LOADED | EMPTY => ret (state0 tile)
           | IDLE | LOADING | ERROR =>
               logger Info "tile not loaded, reloading..." ;;
               emit SetTimeout ;; emit AddListener ;; emit Load ;;
               await_change (changes tile)
           end ;;
      logger Info ("tile load finished, status: " ++ TileState_code s) ;;
      match s with
      | ERROR =>
          logger Error_ "Tile load failed" ;; throw TileFailedToLoad
      | _ =>
          match getImage tile with
          | ImageMissing | ImageWithoutToBuffer => throw InvalidTileData
          | ImageCanvas buffer =>
              tileCache_set key buffer ;;
              (if s3Enabled env then
                 emit (S3Save z x y buffer "png") ;;
                 match s3_saveTile env z x y buffer "png" with
                 | S3Saved => ret tt
                 | S3WriteFails _ =>
                     logger Warn "Failed to save to S3 cache"
                 end
               else ret tt) ;;
              n <- tileCache_size ;;
              (if Nat.eqb (n mod 100) 0
               then logger Info "Cache stats" else ret tt) ;;
              ret buffer
          end
      end
  end.

Definition getTile (x y z : jsval) : M Buffer :=
  line <- interpolate (getTile_line x y z) ;;
  logger Info line ;;
  match x, y, z with
  | JsNumber xn, JsNumber yn, JsNumber zn =>
      let key := cacheKey xn yn zn in
      lruCachedTile <- tileCache_get key ;;
      match lruCachedTile with
      | Some tile =>
          logger Info ("tile loaded from LRU cache: " ++ key) ;;
          ret tile
      | None =>
          s3CachedTile <- s3_lookup key xn yn zn ;;
          match s3CachedTile with
          | Some tile => ret tile
          | None =>
              try_catch (from_source key xn yn zn)
                (fun error => logger Error_ "Error in getTile" ;;
                              throw error)
          end
      end
  | _, _, _ =>
      (* typeof x, y or z is not "number" *)
      logger Error_ "Tile parameter validation error" ;;
      throw InvalidParameter
  end.

End WithEnv.

(** A call on a cache, from an empty record. *)
Definition call (env : Env) (c : LRUCache.t) (x y z : jsval)
  : promise Buffer * World :=
  getTile env x y z (mkWorld c []).

(** The tiers a record consulted, in order. *)
Inductive tier : Type := Memory | Durable | Origin.

Definition consulted (e : event) : option tier :=
  match e with
  | MemGet _ => Some Memory
  | S3Get _ _ _ => Some Durable
  | OriginGetTile _ _ _ => Some Origin
  | _ => None
  end.

Fixpoint tiers (tr : list event) : list tier :=
  match tr with
  | [] => []
  | e :: tr' =>
      match consulted e with
      | Some t => t :: tiers tr'
      | None => tiers tr'
      end
  end.

(** An event that reads or writes a cache tier. *)
Definition touches_cache (e : event) : bool :=
  match e with
  | MemGet _ | MemSet _ _ | S3Get _ _ _ | S3Save _ _ _ _ _ => true
  | _ => false
  end.

Definition untouched (tr : list event) : bool :=
  forallb (fun e => negb (touches_cache e)) tr.

(** A finite numeric value: a number that is neither [NaN] nor infinite. *)
Definition finite (v : jsval) : bool :=
  match v with
  | JsNumber (Int _) => true
  | _ => false
  end.

(** What the wait of [from_source] settles to, read off the
    notifications alone ([await_change_outcome] relates it to the code). *)
Fixpoint await_outcome (timeout : Z) (notified : list TileState)
  : result TileState :=
  match notified with
  | [] => Throw (TileLoadTimeout timeout)
  | LOADED :: _ => Return LOADED
  | EMPTY :: _ => Return EMPTY
  | ERROR :: _ => Throw TileLoadError
  | (IDLE | LOADING) :: later => await_outcome timeout later
  end.

(** What the origin tier yields for a tile, read off the render layer
    alone ([from_source_outcome] relates it to the code). *)
Definition origin_outcome (env : Env) (x y z : number) : result Buffer :=
  match render_getTile env z x y with
  | RenderThrows msg => Throw (mkError msg)
  | RenderTile None => Throw TileIsNull
  | RenderTile (Some tile) =>
      let settled :=
        match state0 tile with
        | LOADED | EMPTY => Return (state0 tile)
        | IDLE | LOADING | ERROR => await_outcome (TILE_LOAD_TIMEOUT env) (changes tile)
        end in
      match settled with
      | Throw e => Throw e
      | Return ERROR => Throw TileFailedToLoad
      | Return _ =>
          match getImage tile with
          | ImageMissing | ImageWithoutToBuffer => Throw InvalidTileData
          | ImageCanvas buffer => Return buffer
          end
      end
  end.

(** The environment whose durable tier never fails: a read that fails
    in [env] finds nothing, a write that fails in [env] succeeds.  (A
    read that never settles is no failure, and is left as it is.) *)
Definition without_s3_failures (env : Env) : Env :=
  mkEnv (s3Enabled env)
        (fun z x y =>
           match s3_getTile env z x y with
           | S3ReadFails _ => S3Null
           | other => other
           end)
        (fun _ _ _ _ _ => S3Saved)
        (render_getTile env)
        (TILE_LOAD_TIMEOUT env).

(** Two environments used as examples: one with the durable tier off
    and a tile that is already loaded, one whose durable tier fails on
    every read and every write. *)
Definition loaded_tile : Tile := mkTile LOADED [] (ImageCanvas [x89; x50]).

Definition env_without_s3 : Env :=
  mkEnv false (fun _ _ _ => S3Null) (fun _ _ _ _ _ => S3Saved)
        (fun _ _ _ => RenderTile (Some loaded_tile)) 30000.

Definition env_with_failing_s3 : Env :=
  mkEnv true (fun _ _ _ => S3ReadFails "read timed out")
        (fun _ _ _ _ _ => S3WriteFails "write refused")
        (fun _ _ _ => RenderTile (Some loaded_tile)) 30000.

End Orchestrator.

(* ================================================================== *)
(** ** gcj02.ts: numbers, arrays and the transforms                    *)
(* ================================================================== *)

(** Coordinates are JavaScript numbers.  They are modelled in exact real
    arithmetic: [Num r] is a finite number, [Nan] stands for every result
    that is not one (the model has no infinities and no rounding, so a
    division by zero or the logarithm of zero, which would be infinite,
    is [Nan] too), and [Undefined] is what reading a hole or past the end
    of an array yields. *)
Module Js.

Local Open Scope R_scope.

Inductive num : Type :=
| Num (r : R)
| Nan
| Undefined.

(** An arithmetic operator converts [undefined] to [NaN] and passes
    [NaN] on. *)
Definition lift1 (f : R -> num) (a : num) : num :=
  match a with Num x => f x | _ => Nan end.

Definition lift2 (f : R -> R -> num) (a b : num) : num :=
  match a, b with Num x, Num y => f x y | _, _ => Nan end.

Definition add : num -> num -> num := lift2 (fun x y => Num (x + y)).
Definition sub : num -> num -> num := lift2 (fun x y => Num (x - y)).
Definition mul : num -> num -> num := lift2 (fun x y => Num (x * y)).
Definition div : num -> num -> num :=
  lift2 (fun x y => if Req_dec_T y 0 then Nan else Num (x / y)).

(** Unary minus. *)
Definition neg : num -> num := lift1 (fun x => Num (- x)).

Definition Math_sin : num -> num := lift1 (fun x => Num (sin x)).
Definition Math_cos : num -> num := lift1 (fun x => Num (cos x)).
Definition Math_abs : num -> num := lift1 (fun x => Num (Rabs x)).
Definition Math_atan : num -> num := lift1 (fun x => Num (atan x)).
Definition Math_exp : num -> num := lift1 (fun x => Num (exp x)).
Definition Math_sqrt : num -> num :=
  lift1 (fun x => if Rlt_dec x 0 then Nan else Num (sqrt x)).
Definition Math_log : num -> num :=
  lift1 (fun x => if Rlt_dec 0 x then Num (ln x) else Nan).
Definition Math_max : num -> num -> num := lift2 (fun x y => Num (Rmax x y)).
Definition Math_min : num -> num -> num := lift2 (fun x y => Num (Rmin x y)).

(** [a < b] and [a > b]: false as soon as an operand is not a number. *)
Definition lt (a b : num) : bool :=
  match a, b with
  | Num x, Num y => if Rlt_dec x y then true else false
  | _, _ => false
  end.
Definition gt (a b : num) : bool := lt b a.

Definition Math_PI : num := Num PI.

(** *** [number[]] *)

Definition array : Type := list num.

(** [a[i]] *)
Definition aget (a : array) (i : nat) : num := nth i a Undefined.

(** [a[i] = v], which lengthens the array with holes when [i] is past
    its end. *)
Fixpoint aset (a : array) (i : nat) (v : num) : array :=
  match i, a with
  | O, [] => [v]
  | O, _ :: a' => v :: a'
  | S i', [] => Undefined :: aset [] i' v
  | S i', x :: a' => x :: aset a' i' v
  end.

(** [Array.from({ length: len })] *)
Definition Array_from_length (len : nat) : array := repeat Undefined len.

(** [a.slice()] *)
Definition slice (a : array) : array := a.

(** The optional [output] argument of a transform: left out, the input
    array itself (the in-place chaining of [projzh]), or another array. *)
Inductive output_arg : Type :=
| Omitted
| InPlace
| Into (output : array).

(** A point transform, as [forEachPoint] takes it: from the input, the
    output and an offset to the output after its writes.  The input is
    the array as the transform finds it: no transform of gcj02.ts reads
    a slot after it has written that slot, so this is what it reads also
    when the two arrays are one. *)
Definition PointTransform : Type := array -> array -> nat -> array.

(** The loop of [forEachPoint].  [len] iterations are enough whenever
    [dimension] is positive; [None] is a loop that never ends.  With the
    input as output, each point transform sees the writes of the ones
    before it. *)
Fixpoint for_offsets (fuel : nat) (func : PointTransform) (in_place : bool)
    (len dimension offset : nat) (input output : array) : option array :=
  if Nat.ltb offset len then
    match fuel with
    | O => None
    | S fuel' =>
        let output' := func input output offset in
        for_offsets fuel' func in_place len dimension (offset + dimension)
          (if in_place then output' else input) output'
    end
  else Some output.

Definition run_points (func : PointTransform) (dimension : nat)
    (input : array) (opt_output : output_arg) : option array :=
  let len := List.length input in
  let output :=
    match opt_output with
    | Into output => output
    | InPlace => input
    | Omitted =>
        if Nat.eqb dimension 2 then Array_from_length len else slice input
    end in
  let in_place := match opt_output with InPlace => true | _ => false end in
  for_offsets len func in_place len dimension 0 input output.

(** A point transform that writes the two slots of its point and no
    other. *)
Definition writes_own_slots (func : PointTransform) : Prop :=
  forall (input output : array) (offset i : nat),
    i <> offset -> i <> (offset + 1)%nat ->
    aget (func input output offset) i = aget output i.

Declare Scope js_scope.
Delimit Scope js_scope with js.
Bind Scope js_scope with num.
Infix "+" := add : js_scope.
Infix "-" := sub : js_scope.
Infix "*" := mul : js_scope.
Infix "/" := div : js_scope.
Infix "<" := lt : js_scope.
Infix ">" := gt : js_scope.
Notation "# r" := (Num r%R) (at level 5, r at level 1, format "# r") : js_scope.

End Js.

(** *** The first definition (gcj02.ts, lines 1-260) *)
Module V1.
Import Js.
Local Open Scope js_scope.

Module GCJ02_CONSTANTS.
Definition PI : num := Math_PI.
Definition AXIS : num := #6378245.0.
Definition OFFSET : num := #0.00669342162296594323.
End GCJ02_CONSTANTS.

Module SPHERICAL_MERCATOR_CONSTANTS.
Definition RADIUS : num := #6378137.
Definition MAX_LATITUDE : num := #85.0511287798.
Definition RAD_PER_DEG : num := Math_PI / #180.
End SPHERICAL_MERCATOR_CONSTANTS.

(** [opt_dimension || 2]: a missing or zero dimension is 2. *)
Definition forEachPoint (transformFunc : PointTransform) (input : array)
    (opt_output : output_arg) (opt_dimension : option nat) : option array :=
  let dimension :=
    match opt_dimension with
    | Some (S d) => S d
    | Some O | None => 2%nat
    end in
  run_points transformFunc dimension input opt_output.

Definition transformLat (x y : num) : num :=
  let PI := GCJ02_CONSTANTS.PI in
  let ret := #(-100.0)
    + #2.0 * x
    + #3.0 * y
    + #0.2 * y * y
    + #0.1 * x * y
    + #0.2 * Math_sqrt (Math_abs x) in
  let ret := ret + ((#20.0 * Math_sin (#6.0 * x * PI) + #20.0 * Math_sin (#2.0 * x * PI)) * #2.0) / #3.0 in
  let ret := ret + ((#20.0 * Math_sin (y * PI) + #40.0 * Math_sin ((y / #3.0) * PI)) * #2.0) / #3.0 in
  let ret := ret + ((#160.0 * Math_sin ((y / #12.0) * PI) + #320 * Math_sin ((y * PI) / #30.0)) * #2.0) / #3.0 in
  ret.

Definition transformLon (x y : num) : num :=
  let PI := GCJ02_CONSTANTS.PI in
  let ret := #300.0
    + x
    + #2.0 * y
    + #0.1 * x * x
    + #0.1 * x * y
    + #0.1 * Math_sqrt (Math_abs x) in
  let ret := ret + ((#20.0 * Math_sin (#6.0 * x * PI) + #20.0 * Math_sin (#2.0 * x * PI)) * #2.0) / #3.0 in
  let ret := ret + ((#20.0 * Math_sin (x * PI) + #40.0 * Math_sin ((x / #3.0) * PI)) * #2.0) / #3.0 in
  let ret := ret + ((#150.0 * Math_sin ((x / #12.0) * PI) + #300.0 * Math_sin ((x / #30.0) * PI)) * #2.0) / #3.0 in
  ret.

(** The offset [dLon, dLat] at a point. *)
Definition delta (wgLon wgLat : num) : num * num :=
  let PI := GCJ02_CONSTANTS.PI in
  let AXIS := GCJ02_CONSTANTS.AXIS in
  let OFFSET := GCJ02_CONSTANTS.OFFSET in
  let dLat := transformLat (wgLon - #105.0) (wgLat - #35.0) in
  let dLon := transformLon (wgLon - #105.0) (wgLat - #35.0) in
  let radLat := (wgLat / #180.0) * PI in
  let magic := Math_sin radLat in
  let magic := #1 - OFFSET * magic * magic in
  let sqrtMagic := Math_sqrt magic in
  let dLat := (dLat * #180.0) / (((AXIS * (#1 - OFFSET)) / (magic * sqrtMagic)) * PI) in
  let dLon := (dLon * #180.0) / ((AXIS / sqrtMagic) * Math_cos radLat * PI) in
  (dLon, dLat).

Definition outOfChina (lon lat : num) : bool :=
  if (lon < #72.004) || (lon > #137.8347) then true
  else if (lat < #0.8293) || (lat > #55.8271) then true
  else false.

Module gcj02.

Definition toWGS84_point : PointTransform := fun input output offset =>
  let lng := aget input offset in
  let lat := aget input (offset + 1) in
  if negb (outOfChina lng lat) then
    let deltaD := delta lng lat in
    let output := aset output offset (lng - fst deltaD) in
    aset output (offset + 1) (lat - snd deltaD)
  else
    let output := aset output offset lng in
    aset output (offset + 1) lat.

Definition fromWGS84_point : PointTransform := fun input output offset =>
  let lng := aget input offset in
  let lat := aget input (offset + 1) in
  if negb (outOfChina lng lat) then
    let deltaD := delta lng lat in
    let output := aset output offset (lng + fst deltaD) in
    aset output (offset + 1) (lat + snd deltaD)
  else
    let output := aset output offset lng in
    aset output (offset + 1) lat.

Definition toWGS84 := forEachPoint toWGS84_point.
Definition fromWGS84 := forEachPoint fromWGS84_point.

End gcj02.

Module sphericalMercator.
Import SPHERICAL_MERCATOR_CONSTANTS.

Definition forward_point : PointTransform := fun input output offset =>
  let lat := Math_max (Math_min MAX_LATITUDE (aget input (offset + 1)))
                      (neg MAX_LATITUDE) in
  let sin := Math_sin (lat * RAD_PER_DEG) in
  let output := aset output offset (RADIUS * aget input offset * RAD_PER_DEG) in
  aset output (offset + 1)
    ((RADIUS * Math_log ((#1 + sin) / (#1 - sin))) / #2).

Definition inverse_point : PointTransform := fun input output offset =>
  let output := aset output offset (aget input offset / RADIUS / RAD_PER_DEG) in
  aset output (offset + 1)
    ((#2 * Math_atan (Math_exp (aget input (offset + 1) / RADIUS))
      - Math_PI / #2) / RAD_PER_DEG).

Definition forward := forEachPoint forward_point.
Definition inverse := forEachPoint inverse_point.

End sphericalMercator.

End V1.

(** *** The second definition (gcj02.ts, lines 261-718) *)
Module V2.
Import Js.
Local Open Scope js_scope.

(** [opt_dimension ?? 2]: only a missing dimension is 2; a dimension of
    zero is kept, and the loop then never advances. *)
Definition forEachPoint (func : PointTransform) (input : array)
    (opt_output : output_arg) (opt_dimension : option nat) : option array :=
  let dimension :=
    match opt_dimension with
    | Some d => d
    | None => 2%nat
    end in
  run_points func dimension input opt_output.

Definition PI : num := Math_PI.
Definition AXIS : num := #6378245.0.
Definition OFFSET : num := #0.00669342162296594323.

Definition transformLat (x y : num) : num :=
  let ret := #(-100.0) + #2.0 * x + #3.0 * y + #0.2 * y * y + #0.1 * x * y + #0.2 * Math_sqrt (Math_abs x) in
  let ret := ret + ((#20.0 * Math_sin (#6.0 * x * PI) + #20.0 * Math_sin (#2.0 * x * PI)) * #2.0) / #3.0 in
  let ret := ret + ((#20.0 * Math_sin (y * PI) + #40.0 * Math_sin ((y / #3.0) * PI)) * #2.0) / #3.0 in
  let ret := ret + ((#160.0 * Math_sin ((y / #12.0) * PI) + #320 * Math_sin ((y * PI) / #30.0)) * #2.0) / #3.0 in
  ret.

Definition transformLon (x y : num) : num :=
  let ret := #300.0 + x + #2.0 * y + #0.1 * x * x + #0.1 * x * y + #0.1 * Math_sqrt (Math_abs x) in
  let ret := ret + ((#20.0 * Math_sin (#6.0 * x * PI) + #20.0 * Math_sin (#2.0 * x * PI)) * #2.0) / #3.0 in
  let ret := ret + ((#20.0 * Math_sin (x * PI) + #40.0 * Math_sin ((x / #3.0) * PI)) * #2.0) / #3.0 in
  let ret := ret + ((#150.0 * Math_sin ((x / #12.0) * PI) + #300.0 * Math_sin ((x / #30.0) * PI)) * #2.0) / #3.0 in
  ret.

Definition delta (wgLon wgLat : num) : num * num :=
  let dLat := transformLat (wgLon - #105.0) (wgLat - #35.0) in
  let dLon := transformLon (wgLon - #105.0) (wgLat - #35.0) in
  let radLat := (wgLat / #180.0) * PI in
  let magic := Math_sin radLat in
  let magicSquared := #1 - OFFSET * magic * magic in
  let sqrtMagic := Math_sqrt magicSquared in
  let dLatResult := (dLat * #180.0) / (((AXIS * (#1 - OFFSET)) / (magicSquared * sqrtMagic)) * PI) in
  let dLonResult := (dLon * #180.0) / ((AXIS / sqrtMagic) * Math_cos radLat * PI) in
  (dLonResult, dLatResult).

Definition outOfChina (lon lat : num) : bool :=
  (lon < #72.004) || (lon > #137.8347) || (lat < #0.8293) || (lat > #55.8271).

Module gcj02.

Definition toWGS84_point : PointTransform := fun input output offset =>
  let lng := aget input offset in
  let lat := aget input (offset + 1) in
  if negb (outOfChina lng lat) then
    let deltaD := delta lng lat in
    let output := aset output offset (lng + fst deltaD) in
    aset output (offset + 1) (lat + snd deltaD)
  else
    let output := aset output offset lng in
    aset output (offset + 1) lat.

Definition fromWGS84_point : PointTransform := fun input output offset =>
  let lng := aget input offset in
  let lat := aget input (offset + 1) in
  if negb (outOfChina lng lat) then
    let deltaD := delta lng lat in
    let output := aset output offset (lng - fst deltaD) in
    aset output (offset + 1) (lat - snd deltaD)
  else
    let output := aset output offset lng in
    aset output (offset + 1) lat.

Definition toWGS84 := forEachPoint toWGS84_point.
Definition fromWGS84 := forEachPoint fromWGS84_point.

End gcj02.

Definition RADIUS : num := #6378137.
Definition MAX_LATITUDE : num := #85.0511287798.
Definition RAD_PER_DEG : num := Math_PI / #180.

Module sphericalMercator.

Definition forward_point : PointTransform := fun input output offset =>
  let lat := Math_max (Math_min MAX_LATITUDE (aget input (offset + 1)))
                      (neg MAX_LATITUDE) in
  let sin := Math_sin (lat * RAD_PER_DEG) in
  let output := aset output offset (RADIUS * aget input offset * RAD_PER_DEG) in
  aset output (offset + 1)
    ((RADIUS * Math_log ((#1 + sin) / (#1 - sin))) / #2).

Definition inverse_point : PointTransform := fun input output offset =>
  let output := aset output offset (aget input offset / RADIUS / RAD_PER_DEG) in
  aset output (offset + 1)
    ((#2 * Math_atan (Math_exp (aget input (offset + 1) / RADIUS))
      - Math_PI / #2) / RAD_PER_DEG).

Definition forward := forEachPoint forward_point.
Definition inverse := forEachPoint inverse_point.

End sphericalMercator.

End V2.

(** *** The offset on finite numbers *)

(** What [transformLat], [transformLon] and [delta] compute on finite
    numbers, as real functions ([Gcj02Facts.transformLat_Num],
    [Gcj02Facts.transformLon_Num] and [Gcj02Facts.delta_Num] relate them to
    the code; the two definitions of gcj02.ts agree on them). *)
Module Gcj02Real.
Local Open Scope R_scope.

Definition transformLatR (x y : R) : R :=
  -100.0 + 2.0 * x + 3.0 * y + 0.2 * y * y + 0.1 * x * y
    + 0.2 * sqrt (Rabs x)
    + ((20.0 * sin (6.0 * x * PI) + 20.0 * sin (2.0 * x * PI)) * 2.0) / 3.0
    + ((20.0 * sin (y * PI) + 40.0 * sin ((y / 3.0) * PI)) * 2.0) / 3.0
    + ((160.0 * sin ((y / 12.0) * PI) + 320 * sin ((y * PI) / 30.0)) * 2.0)
      / 3.0.

Definition transformLonR (x y : R) : R :=
  300.0 + x + 2.0 * y + 0.1 * x * x + 0.1 * x * y
    + 0.1 * sqrt (Rabs x)
    + ((20.0 * sin (6.0 * x * PI) + 20.0 * sin (2.0 * x * PI)) * 2.0) / 3.0
    + ((20.0 * sin (x * PI) + 40.0 * sin ((x / 3.0) * PI)) * 2.0) / 3.0
    + ((150.0 * sin ((x / 12.0) * PI) + 300.0 * sin ((x / 30.0) * PI)) * 2.0)
      / 3.0.

Definition AXIS : R := 6378245.0.
Definition OFFSET : R := 0.00669342162296594323.

Definition magicR (lat : R) : R :=
  1 - OFFSET * sin ((lat / 180.0) * PI) * sin ((lat / 180.0) * PI).

(** The two denominators of [delta]. *)
Definition latDenominator (lat : R) : R :=
  ((AXIS * (1 - OFFSET)) / (magicR lat * sqrt (magicR lat))) * PI.

Definition lonDenominator (lat : R) : R :=
  (AXIS / sqrt (magicR lat)) * cos ((lat / 180.0) * PI) * PI.

Definition dLatR (lon lat : R) : R :=
  (transformLatR (lon - 105.0) (lat - 35.0) * 180.0) / latDenominator lat.

Definition dLonR (lon lat : R) : R :=
  (transformLonR (lon - 105.0) (lat - 35.0) * 180.0) / lonDenominator lat.

End Gcj02Real.

(** [fromWGS84(toWGS84(p))], with the first definition. *)
Definition round_trip (p : Js.array) : option Js.array :=
  match V1.gcj02.toWGS84 p Js.Omitted None with
  | Some wgs => V1.gcj02.fromWGS84 wgs Js.Omitted None
  | None => None
  end.

(** The round trip of the point [(lon, lat)] ends within [eps] of it, in
    each coordinate. *)
Definition round_trip_within (eps lon lat : R) : Prop :=
  exists lon' lat' : R,
    round_trip [Js.Num lon; Js.Num lat] = Some [Js.Num lon'; Js.Num lat']
    /\ (Rabs (lon' - lon) <= eps)%R /\ (Rabs (lat' - lat) <= eps)%R.

(** Strictly inside the China bounding region. *)
Definition strictly_inside (lon lat : R) : Prop :=
  (72.004 < lon < 137.8347)%R /\ (0.8293 < lat < 55.8271)%R.

(** The transforms gcj02.ts builds with [forEachPoint], of both
    definitions. *)
Definition built_transforms
  : list (Js.array -> Js.output_arg -> option nat -> option Js.array) :=
  [V1.gcj02.toWGS84; V1.gcj02.fromWGS84;
   V1.sphericalMercator.forward; V1.sphericalMercator.inverse;
   V2.gcj02.toWGS84; V2.gcj02.fromWGS84;
   V2.sphericalMercator.forward; V2.sphericalMercator.inverse].

(* ================================================================== *)
(** ** What the cache guarantees: auxiliary notions                    *)
(* ================================================================== *)

(** How recently a key was used, and the operations that leave a key
    alone. *)
Module LRUExtra.
Import LRUCache.

Fixpoint entries_after (m : JsMap.t) (key : string) : option nat :=
  match m with
  | [] => None
  | (k, _) :: m' =>
      if String.eqb key k then Some (List.length m') else entries_after m' key
  end.

Definition spares (key : string) (o : op) : bool :=
  match o with
  | Get _ => true
  | Set_ k _ => negb (String.eqb k key)
  | Delete k => negb (String.eqb k key)
  | Clear => false
  end.

(** What [key] holds and how recent it is: its value, and a bound on the
    number of entries used after it. *)
Definition holds (c : t) (key : string) (value : Buffer) (j : nat) : Prop :=
  JsMap.wf (cache c)
  /\ JsMap.get (cache c) key = Some value
  /\ exists a, entries_after (cache c) key = Some a /\ (a <= j)%nat.

End LRUExtra.

(* ================================================================== *)
(** ** Counting what a call of [getTile] does                          *)
(* ================================================================== *)

Module Cleanup.
Import Orchestrator.

(** How many events of a record satisfy [p]. *)
Definition count (p : event -> bool) (tr : list event) : nat :=
  List.length (filter p tr).

Definition is_AddListener (e : event) : bool :=
  match e with AddListener => true | _ => false end.
Definition is_RemoveListener (e : event) : bool :=
  match e with RemoveListener => true | _ => false end.
Definition is_SetTimeout (e : event) : bool :=
  match e with SetTimeout => true | _ => false end.
Definition is_ClearTimeout (e : event) : bool :=
  match e with ClearTimeout => true | _ => false end.

(** The listeners added and removed, the timers set and cleared. *)
Definition tally (tr : list event) : nat * nat * nat * nat :=
  (count is_AddListener tr, count is_RemoveListener tr,
   count is_SetTimeout tr, count is_ClearTimeout tr).

Definition plus4 (a b : nat * nat * nat * nat) : nat * nat * nat * nat :=
  match a, b with
  | (a1, a2, a3, a4), (b1, b2, b3, b4) =>
      (a1 + b1, a2 + b2, a3 + b3, a4 + b4)%nat
  end.

End Cleanup.

Module Writes.
Import Orchestrator.

(** The events that write a cache tier. *)
Definition is_write (e : event) : bool :=
  match e with
  | MemSet _ _ | S3Save _ _ _ _ _ => true
  | _ => false
  end.

Definition writes (tr : list event) : list event := filter is_write tr.

End Writes.

(* ================================================================== *)
(** ** [Number.parseInt] and the request handlers of index.ts          *)
(* ================================================================== *)

(** Strings are sequences of bytes, the UTF-8 form of the JavaScript
    string. *)
Module Number.

Definition code (c : ascii) : N := N_of_ascii c.

(** The white space and line terminators of one byte: TAB, LF, VT, FF, CR
    and the space. *)
Definition is_space1 (c : ascii) : bool :=
  ((9 <=? code c) && (code c <=? 13) || (code c =? 32))%N.

(** U+00A0, in two bytes. *)
Definition is_space2 (c1 c2 : ascii) : bool :=
  ((code c1 =? 194) && (code c2 =? 160))%N.

(** The ones of three bytes: U+1680, U+2000 to U+200A, U+2028, U+2029,
    U+202F, U+205F, U+3000 and U+FEFF. *)
Definition is_space3 (c1 c2 c3 : ascii) : bool :=
  ((code c1 =? 225) && (code c2 =? 154) && (code c3 =? 128)
   || (code c1 =? 226) && (code c2 =? 128)
      && ((128 <=? code c3) && (code c3 <=? 138)
          || (code c3 =? 168) || (code c3 =? 169) || (code c3 =? 175))
   || (code c1 =? 226) && (code c2 =? 129) && (code c3 =? 159)
   || (code c1 =? 227) && (code c2 =? 128) && (code c3 =? 128)
   || (code c1 =? 239) && (code c2 =? 187) && (code c3 =? 191))%N.

(** [TrimString(s, start)]: the string without its leading white space. *)
Fixpoint trim_start (s : string) : string :=
  match s with
  | EmptyString => s
  | String c1 s1 =>
      if is_space1 c1 then trim_start s1
      else
        match s1 with
        | EmptyString => s
        | String c2 s2 =>
            if is_space2 c1 c2 then trim_start s2
            else
              match s2 with
              | EmptyString => s
              | String c3 s3 =>
                  if is_space3 c1 c2 c3 then trim_start s3 else s
              end
        end
  end.

(** The value of a digit in the radices up to 36: ["0"] to ["9"], then
    the letters in either case. *)
Definition digit_value (c : ascii) : option N :=
  let n := code c in
  if ((48 <=? n) && (n <=? 57))%N then Some (n - 48)%N
  else if ((97 <=? n) && (n <=? 122))%N then Some (n - 87)%N
  else if ((65 <=? n) && (n <=? 90))%N then Some (n - 55)%N
  else None.

(** The integer the longest prefix of radix-[R] digits of [s] stands for,
    after the digits already read; [None] when no digit has been read. *)
Fixpoint leading_digits (R : N) (s : string) (read : option N) : option N :=
  match s with
  | EmptyString => read
  | String c s' =>
      match digit_value c with
      | Some d =>
          if (d <? R)%N then
            leading_digits R s'
              (Some match read with
                    | Some n => (n * R + d)%N
                    | None => d
                    end)
          else read
      | None => read
      end
  end.

(** Whether the first byte of [s] is [c], and [s] without its first
    byte. *)
Definition first_is (c : ascii) (s : string) : bool :=
  match s with
  | String c' _ => Ascii.eqb c' c
  | EmptyString => false
  end.

Definition rest (s : string) : string :=
  match s with
  | String _ s' => s'
  | EmptyString => EmptyString
  end.

(** The number for a mathematical integer: the integer itself when 53
    bits hold it, and else the nearest number of 53 significant bits,
    the even one of two that are as near, or an infinity when that is
    2^1024 or beyond. *)
Definition to_double (m : Z) : number :=
  let a := Z.abs m in
  if (a <? 2 ^ 53)%Z then Int m
  else
    let e := (Z.log2 a - 52)%Z in
    let q := Z.shiftr a e in
    let r := (a - Z.shiftl q e)%Z in
    let half := Z.shiftl 1 (e - 1) in
    let q' := if (half <? r)%Z || ((half =? r)%Z && Z.odd q)
              then (q + 1)%Z else q in
    let v := Z.shiftl q' e in
    if (2 ^ 1024 <=? v)%Z then (if (m <? 0)%Z then NegInfinity else Infinity)
    else Int (Z.sgn m * v).
Arguments to_double : simpl never.

(** [Number.parseInt(string, radix)], for a radix that is left out or an
    integer of 32 bits.  The result is the number for the integer read:
    that integer below 2^53, the nearest number beyond, and an infinity
    for a numeral too long for a number.  (The source reads in radix 10,
    and in radix 16 after a prefix ["0x"]; in a radix that is no power
    of 2 and not 10 the language lets an implementation approximate an
    integer that 53 bits do not hold.)  The number [-0], which ["-0"] is
    read as, is [Int 0]: it prints as ["0"] too. *)
Definition parseInt (string : string) (radix : option Z) : number :=
  let S := trim_start string in
  let sign := if first_is "-" S then (-1)%Z else 1%Z in
  let S := if first_is "+" S || first_is "-" S then rest S else S in
  let R := match radix with Some r => r | None => 0%Z end in
  if (negb (R =? 0) && ((R <? 2) || (36 <? R)))%Z then NaN
  else
    let stripPrefix := ((R =? 0) || (R =? 16))%Z in
    let R := if (R =? 0)%Z then 10%Z else R in
    let hex := stripPrefix && first_is "0" S
               && (first_is "x" (rest S) || first_is "X" (rest S)) in
    let R := if hex then 16%Z else R in
    let S := if hex then rest (rest S) else S in
    match leading_digits (Z.to_N R) S None with
    | None => NaN
    | Some mathInt => to_double (sign * Z.of_N mathInt)
    end.

Definition isNaN (v : number) : bool :=
  match v with NaN => true | _ => false end.

End Number.

Module Server.
Import Orchestrator.

(** What [validateTileParams] returns: [{ valid: false, error }] or
    [{ valid: true, x, y, z }]. *)
Inductive validation : Type :=
| Invalid (error : string)
| Valid (x y z : number).

(** A query parameter that is absent is [undefined], here [None]. *)
Definition validateTileParams (x y z : option string) : validation :=
  match x, y, z with
  | Some x, Some y, Some z =>
      let xNum := Number.parseInt x (Some 10%Z) in
      let yNum := Number.parseInt y (Some 10%Z) in
      let zNum := Number.parseInt z (Some 10%Z) in
      if Number.isNaN xNum || Number.isNaN yNum || Number.isNaN zNum then
        Invalid "Invalid parameters: x, y, and z must be valid integers"
      else Valid xNum yNum zNum
  | _, _, _ =>
      Invalid "Missing required parameters: x, y, and z are required"
  end.

(** The two ways the handlers answer: [c.json({ error }, status)] and
    [new Response(body, { status, headers })]. *)
Inductive Response : Type :=
| c_json_error (error : string) (status : Z)
| new_Response (body : Buffer) (status : Z)
    (headers : list (string * string)).

Definition status (r : Response) : Z :=
  match r with
  | c_json_error _ status => status
  | new_Response _ status _ => status
  end.

Section WithEnv.
Variable env : Env.

(** [app.get("/appmaptile", ...)], on the query parameters [x], [y], [z]. *)
Definition appmaptile (x y z : option string) : M Response :=
  try_catch
    match validateTileParams x y z with
    | Invalid error =>
        logger Warn "Tile parameter validation failed" ;;
        ret (c_json_error error 400)
    | Valid xNum yNum zNum =>
        buf <- getTile env (JsNumber xNum) (JsNumber yNum) (JsNumber zNum) ;;
        ret (new_Response buf 200
               [("Content-Type", "image/png");
                ("Cache-Control", "public, max-age=3600")])
    end
    (fun error =>
       logger Error_ "Error serving tile" ;;
       ret (c_json_error "Internal server error" 500)).

End WithEnv.

(** A request on a cache, from an empty record. *)
Definition serve (env : Env) (c : LRUCache.t) (x y z : option string)
  : promise Response * World :=
  appmaptile env x y z (mkWorld c []).

(** [resetRenderLayer]: the render layer is made anew (the next calls of
    [getTile] meet the new layer, which is their environment) and the
    memory tier is emptied. *)
Definition resetRenderLayer : M unit :=
  logger Info "Manually resetting render layer and cache" ;;
  (fun w => (Settled (Return tt),
             mkWorld (LRUCache.clear (tileCache w)) (trace w))) ;;
  logger Info "Tile cache cleared and render layer reset" ;;
  logger Info "Cache stats after reset".

End Server.

(** The queries [validateTileParams] accepts, said apart from it. *)
Module ServerSpec.
Import Number.

End ServerSpec.

(* ================================================================== *)
(** ** storage.ts: configuration and the operations on tiles           *)
(* ================================================================== *)

Module Storage.

(** The variables of [process.env] the program reads for its storage;
    a variable that is not set is [undefined], here [None]. *)
Record ProcessEnv : Type := mkProcessEnv {
  S3_ENDPOINT : option string;
  AWS_ACCESS_KEY_ID : option string;
  AWS_SECRET_ACCESS_KEY : option string;
  AWS_REGION : option string;
  S3_BUCKET : option string;
  S3_PREFIX : option string
}.

(** A string or [undefined] in a condition: true when it is a string that
    is not empty. *)
Definition truthy (v : option string) : bool :=
  match v with
  | Some (String _ _) => true
  | Some EmptyString | None => false
  end.

(** [v || d] *)
Definition or_else (v : option string) (d : string) : string :=
  match v with
  | Some (String c s) => String c s
  | Some EmptyString | None => d
  end.

Record S3StorageConfig : Type := mkConfig {
  region : string;
  bucket : string;
  accessKeyId : option string;
  secretAccessKey : option string;
  endpoint : option string;
  prefix : option string
}.

(** What the constructor hands to [new S3Client]: fields it does not set
    are [None], and [forcePathStyle] false. *)
Record S3ClientConfig : Type := mkClientConfig {
  client_region : string;
  client_endpoint : option string;
  forcePathStyle : bool;
  credentials : option (string * string)
}.

Definition s3Config (config : S3StorageConfig) : S3ClientConfig :=
  mkClientConfig
    (region config)
    (if truthy (endpoint config) then endpoint config else None)
    (truthy (endpoint config))
    (if truthy (accessKeyId config) && truthy (secretAccessKey config) then
       match accessKeyId config, secretAccessKey config with
       | Some id, Some secret => Some (id, secret)
       | _, _ => None
       end
     else None).

(** A [TileStorage] object: its bucket and prefix, and its client. *)
Record Instance : Type := mkInstance {
  fields : TileStorage.t;
  client : S3ClientConfig
}.

(** [new TileStorage(config)] *)
Definition construct (config : S3StorageConfig) : Instance :=
  mkInstance (TileStorage.new (bucket config) (prefix config))
             (s3Config config).

(** [createDefaultStorage()]; [None] is [null]. *)
Definition createDefaultStorage (env : ProcessEnv) : option Instance :=
  let hasS3Config :=
    truthy (S3_ENDPOINT env)
    || (truthy (AWS_ACCESS_KEY_ID env) && truthy (AWS_SECRET_ACCESS_KEY env)) in
  if negb hasS3Config then None
  else
    let config :=
      mkConfig (or_else (AWS_REGION env) "us-east-1")
               (or_else (S3_BUCKET env) "map-tiles")
               (AWS_ACCESS_KEY_ID env)
               (AWS_SECRET_ACCESS_KEY env)
               (S3_ENDPOINT env)
               (Some (or_else (S3_PREFIX env) "tiles")) in
    Some (construct config).

(** index.ts: [s3Storage instanceof TileStorage], where [s3Storage] is
    [createDefaultStorage() || new NullStorage()]. *)
Definition s3Enabled (env : ProcessEnv) : bool :=
  match createDefaultStorage env with
  | Some _ => true
  | None => false
  end.

(** index.ts, the answer of [/cache-stats] as far as the storage goes:
    [s3Enabled], and [s3Bucket], [s3Prefix] and [s3Region] when it is
    true. *)
Record S3Stats : Type := mkS3Stats {
  s3Bucket : string;
  s3Prefix : string;
  s3Region : string
}.

Definition cache_stats_s3 (env : ProcessEnv) : bool * option S3Stats :=
  (s3Enabled env,
   if s3Enabled env then
     Some (mkS3Stats (or_else (S3_BUCKET env) "map-tiles")
                     (or_else (S3_PREFIX env) "tiles")
                     (or_else (AWS_REGION env) "us-east-1"))
   else None).

(** *** The commands and the client *)

Inductive command : Type :=
| HeadObjectCommand (Bucket Key : string)
| GetObjectCommand (Bucket Key : string)
| PutObjectCommand (Bucket Key : string) (Body : Buffer)
    (ContentType CacheControl : string)
| DeleteObjectCommand (Bucket Key : string).

(** An error of the client or of a stream, with its [name]. *)
Record S3Error : Type := mkS3Error { name : string; reason : string }.

(** What a body stream emits, in order. *)
Inductive stream_event : Type :=
| on_data (chunk : Buffer)
| on_error (e : S3Error)
| on_end.

(** How [client.send(command)] settles: fulfilled with a response, whose
    [Body] may be missing, or rejected. *)
Inductive sent : Type :=
| Fulfilled (Body : option (list stream_event))
| Rejected (e : S3Error).

(** How a promise ends; [Pending] is a promise that never settles. *)
Inductive outcome (A : Type) : Type :=
| Returns (a : A)
| Throws (e : S3Error)
| Pending.
Arguments Returns {A} a.
Arguments Throws {A} e.
Arguments Pending {A}.

(** The promise [getTile] builds on the stream: it collects the chunks
    and settles at the first [end] or [error]. *)
Fixpoint read_stream (events : list stream_event) (chunks : list Buffer)
  : outcome Buffer :=
  match events with
  | [] => Pending
  | on_data chunk :: later => read_stream later (chunks ++ [chunk])
  | on_error e :: _ => Throws e
  | on_end :: _ => Returns (List.concat chunks)
  end.

Section WithClient.
Variable send : command -> sent.
Variable this : TileStorage.t.

(** A [format] that is left out is ["png"]. *)
Definition format_or_png (format : option string) : string :=
  match format with Some f => f | None => "png" end.

Definition hasTile (z x y : number) (format : option string)
  : outcome bool :=
  let key := TileStorage.getTileKey this z x y (format_or_png format) in
  match send (HeadObjectCommand (TileStorage.bucket this) key) with
  | Fulfilled _ => Returns true
  | Rejected error =>
      if String.eqb (name error) "NotFound" then Returns false
      else Throws error
  end.

(** The promise on the stream is returned, not awaited, inside the
    [try]: its rejection does not pass through the [catch]. *)
Definition getTile (z x y : number) (format : option string)
  : outcome (option Buffer) :=
  let key := TileStorage.getTileKey this z x y (format_or_png format) in
  match send (GetObjectCommand (TileStorage.bucket this) key) with
  | Fulfilled None => Returns None
  | Fulfilled (Some stream) =>
      match read_stream stream [] with
      | Returns buffer => Returns (Some buffer)
      | Throws e => Throws e
      | Pending => Pending
      end
  | Rejected error =>
      if String.eqb (name error) "NoSuchKey"
         || String.eqb (name error) "NotFound"
      then Returns None
      else Throws error
  end.

Definition saveTile (z x y : number) (tileData : Buffer)
    (format contentType : option string) : outcome unit :=
  let key := TileStorage.getTileKey this z x y (format_or_png format) in
  match send (PutObjectCommand (TileStorage.bucket this) key tileData
                (or_else contentType ("image/" ++ format_or_png format))
                "public, max-age=31536000") with
  | Fulfilled _ => Returns tt
  | Rejected error => Throws error
  end.

Definition deleteTile (z x y : number) (format : option string)
  : outcome unit :=
  let key := TileStorage.getTileKey this z x y (format_or_png format) in
  match send (DeleteObjectCommand (TileStorage.bucket this) key) with
  | Fulfilled _ => Returns tt
  | Rejected error => Throws error
  end.

End WithClient.

End Storage.

(* ================================================================== *)
(** ** gcj02.ts: the projection, the points of an array and [projzh]   *)
(* ================================================================== *)

(** *** The spherical Mercator projection on finite numbers *)

(** What [sphericalMercator.forward] and [sphericalMercator.inverse]
    compute on finite numbers, as real functions ([MercatorFacts] relates
    them to the code; the two definitions of gcj02.ts agree on them). *)
Module MercatorReal.
Local Open Scope R_scope.

Definition RADIUS : R := 6378137.
Definition MAX_LATITUDE : R := 85.0511287798.
Definition RAD_PER_DEG : R := PI / 180.

(** [Math.max(Math.min(MAX_LATITUDE, lat), -MAX_LATITUDE)] *)
Definition clampLat (lat : R) : R :=
  Rmax (Rmin MAX_LATITUDE lat) (- MAX_LATITUDE).


Definition forwardY (lat : R) : R :=
  (RADIUS * ln ((1 + sin (clampLat lat * RAD_PER_DEG))
                / (1 - sin (clampLat lat * RAD_PER_DEG)))) / 2.

Definition inverseLon (x : R) : R := x / RADIUS / RAD_PER_DEG.

Definition inverseLat (y : R) : R :=
  (2 * atan (exp (y / RADIUS)) - PI / 2) / RAD_PER_DEG.

End MercatorReal.

(** One transform after another, each without an output argument and
    with the default dimension. *)
Definition and_then
    (first second : Js.array -> Js.output_arg -> option nat -> option Js.array)
    (p : Js.array) : option Js.array :=
  match first p Js.Omitted None with
  | Some q => second q Js.Omitted None
  | None => None
  end.



(** The China bounding region, edges included: where [outOfChina] is
    false. *)
Definition in_region (lon lat : R) : Prop :=
  (72.004 <= lon <= 137.8347)%R /\ (0.8293 <= lat <= 55.8271)%R.

(** The transforms between WGS-84 and GCJ-02, of both definitions, each
    with the one meant to undo it. *)
Definition gcj02_pairs
  : list ((Js.array -> Js.output_arg -> option nat -> option Js.array)
          * (Js.array -> Js.output_arg -> option nat -> option Js.array)) :=
  [(V1.gcj02.toWGS84, V1.gcj02.fromWGS84);
   (V1.gcj02.fromWGS84, V1.gcj02.toWGS84);
   (V2.gcj02.toWGS84, V2.gcj02.fromWGS84);
   (V2.gcj02.fromWGS84, V2.gcj02.toWGS84)].

(** A point transform that computes the two slots of its point from the
    two slots of the input's point, and nothing else. *)
Definition pointwise (func : Js.PointTransform) : Prop :=
  exists f : Js.num -> Js.num -> Js.num * Js.num,
    forall (input output : Js.array) (offset : nat),
      func input output offset
      = Js.aset
          (Js.aset output offset
             (fst (f (Js.aget input offset) (Js.aget input (offset + 1)))))
          (offset + 1)
          (snd (f (Js.aget input offset) (Js.aget input (offset + 1)))).

(** The point transforms of gcj02.ts, of both definitions. *)
Definition point_transforms : list Js.PointTransform :=
  [V1.gcj02.toWGS84_point; V1.gcj02.fromWGS84_point;
   V1.sphericalMercator.forward_point; V1.sphericalMercator.inverse_point;
   V2.gcj02.toWGS84_point; V2.gcj02.fromWGS84_point;
   V2.sphericalMercator.forward_point; V2.sphericalMercator.inverse_point].

(** *** Arrays by reference, and [projzh] *)

(** [projzh] hands arrays from one transform to the next and lets a
    transform write into its input.  The arrays that exist are kept in a
    store, each under its reference. *)
Module Heap.
Local Open Scope list_scope.

Definition ref : Type := nat.

Definition t : Type := list Js.array.

Definition read (h : t) (r : ref) : Js.array := nth r h [].

Fixpoint write (h : t) (r : ref) (a : Js.array) : t :=
  match h, r with
  | [], _ => []
  | _ :: h', O => a :: h'
  | x :: h', S r' => x :: write h' r' a
  end.

(** A new array, under a reference that was not in use. *)
Definition alloc (h : t) (a : Js.array) : ref * t :=
  (List.length h, h ++ [a]).

(** A transform built by [forEachPoint], called on references.  An
    output array that is given is used (an array is truthy) and is what
    the call returns; without one the call returns a new array. *)
Definition call
    (transform : Js.array -> Js.output_arg -> option nat -> option Js.array)
    (input : ref) (opt_output : option ref) (opt_dimension : option nat)
    (h : t) : option (ref * t) :=
  match opt_output with
  | None =>
      match transform (read h input) Js.Omitted opt_dimension with
      | Some result => Some (alloc h result)
      | None => None
      end
  | Some output =>
      match transform (read h input)
              (if Nat.eqb output input then Js.InPlace
               else Js.Into (read h output))
              opt_dimension with
      | Some result => Some (output, write h output result)
      | None => None
      end
  end.

(** Running one call after another. *)
Definition bind (m : option (ref * t)) (k : ref -> t -> option (ref * t))
  : option (ref * t) :=
  match m with
  | Some (r, h) => k r h
  | None => None
  end.

End Heap.

(** [projzh] of the first definition (gcj02.ts, lines 193-235). *)
Module Projzh1.
Import Heap.

Definition ll2smerc := V1.sphericalMercator.forward.
Definition smerc2ll := V1.sphericalMercator.inverse.

Definition ll2gmerc (input : ref) (opt_output : option ref)
    (opt_dimension : option nat) (h : t) : option (ref * t) :=
  bind (call V1.gcj02.fromWGS84 input opt_output opt_dimension h)
    (fun output h =>
       call ll2smerc output (Some output) opt_dimension h).

Definition gmerc2ll (input : ref) (opt_output : option ref)
    (opt_dimension : option nat) (h : t) : option (ref * t) :=
  bind (call smerc2ll input (Some input) opt_dimension h)
    (fun output h =>
       call V1.gcj02.toWGS84 output opt_output opt_dimension h).

Definition smerc2gmerc (input : ref) (opt_output : option ref)
    (opt_dimension : option nat) (h : t) : option (ref * t) :=
  bind (call smerc2ll input (Some input) opt_dimension h)
    (fun output h =>
       bind (call V1.gcj02.fromWGS84 output (Some output) opt_dimension h)
         (fun output h =>
            call ll2smerc output (Some output) opt_dimension h)).

Definition gmerc2smerc (input : ref) (opt_output : option ref)
    (opt_dimension : option nat) (h : t) : option (ref * t) :=
  bind (call smerc2ll input (Some input) opt_dimension h)
    (fun output h =>
       bind (call V1.gcj02.toWGS84 output (Some output) opt_dimension h)
         (fun output h =>
            call ll2smerc output (Some output) opt_dimension h)).

End Projzh1.

(** [projzh] of the second definition (gcj02.ts, lines 585-660): its
    [gmerc2ll] hands [toWGS84] the intermediate array as output, not
    [opt_output]. *)
Module Projzh2.
Import Heap.

Definition ll2smerc := V2.sphericalMercator.forward.
Definition smerc2ll := V2.sphericalMercator.inverse.

Definition ll2gmerc (input : ref) (opt_output : option ref)
    (opt_dimension : option nat) (h : t) : option (ref * t) :=
  bind (call V2.gcj02.fromWGS84 input opt_output opt_dimension h)
    (fun output h =>
       call ll2smerc output (Some output) opt_dimension h).

Definition gmerc2ll (input : ref) (opt_output : option ref)
    (opt_dimension : option nat) (h : t) : option (ref * t) :=
  bind (call smerc2ll input (Some input) opt_dimension h)
    (fun output h =>
       call V2.gcj02.toWGS84 output (Some output) opt_dimension h).

Definition smerc2gmerc (input : ref) (opt_output : option ref)
    (opt_dimension : option nat) (h : t) : option (ref * t) :=
  bind (call smerc2ll input (Some input) opt_dimension h)
    (fun output h =>
       bind (call V2.gcj02.fromWGS84 output (Some output) opt_dimension h)
         (fun output h =>
            call ll2smerc output (Some output) opt_dimension h)).

Definition gmerc2smerc (input : ref) (opt_output : option ref)
    (opt_dimension : option nat) (h : t) : option (ref * t) :=
  bind (call smerc2ll input (Some input) opt_dimension h)
    (fun output h =>
       bind (call V2.gcj02.toWGS84 output (Some output) opt_dimension h)
         (fun output h =>
            call ll2smerc output (Some output) opt_dimension h)).

End Projzh2.

(** Transforms one after another on a value, each without an output
    argument. *)
Fixpoint pipeline
    (steps : list (Js.array -> Js.output_arg -> option nat -> option Js.array))
    (opt_dimension : option nat) (a : Js.array) : option Js.array :=
  match steps with
  | [] => Some a
  | step :: later =>
      match step a Js.Omitted opt_dimension with
      | Some b => pipeline later opt_dimension b
      | None => None
      end
  end.

(** The functions of [projzh] that hand their input to every step as its
    output, each with its steps. *)
Definition in_place_chains
  : list ((Heap.ref -> option Heap.ref -> option nat -> Heap.t
           -> option (Heap.ref * Heap.t))
          * list (Js.array -> Js.output_arg -> option nat
                  -> option Js.array)) :=
  [(Projzh1.smerc2gmerc,
    [V1.sphericalMercator.inverse; V1.gcj02.fromWGS84;
     V1.sphericalMercator.forward]);
   (Projzh1.gmerc2smerc,
    [V1.sphericalMercator.inverse; V1.gcj02.toWGS84;
     V1.sphericalMercator.forward]);
   (Projzh2.smerc2gmerc,
    [V2.sphericalMercator.inverse; V2.gcj02.fromWGS84;
     V2.sphericalMercator.forward]);
   (Projzh2.gmerc2smerc,
    [V2.sphericalMercator.inverse; V2.gcj02.toWGS84;
     V2.sphericalMercator.forward]);
   (Projzh2.gmerc2ll,
    [V2.sphericalMercator.inverse; V2.gcj02.toWGS84])].

(** [ll2gmerc] of the two definitions, with its steps. *)
Definition ll2gmerc_chains
  : list ((Heap.ref -> option Heap.ref -> option nat -> Heap.t
           -> option (Heap.ref * Heap.t))
          * list (Js.array -> Js.output_arg -> option nat
                  -> option Js.array)) :=
  [(Projzh1.ll2gmerc, [V1.gcj02.fromWGS84; V1.sphericalMercator.forward]);
   (Projzh2.ll2gmerc, [V2.gcj02.fromWGS84; V2.sphericalMercator.forward])].

(* ================================================================== *)
(** * Properties                                                       *)
(* ================================================================== *)

(** ** The map and the LRU cache *)

Module JsMapFacts.
Import JsMap.
Local Open Scope list_scope.

Lemma has_true_get (m : t) (k : string) :
  has m k = true <-> exists v, get m k = Some v.
Proof.
  unfold has. destruct (get m k) as [v|].
  - split; [exists v; reflexivity | reflexivity].
  - split; [discriminate | intros [v Hv]; discriminate].
Qed.

Lemma has_false_get (m : t) (k : string) :
  has m k = false <-> get m k = None.
Proof.
  unfold has. destruct (get m k); split; congruence.
Qed.

Lemma get_none_keys (m : t) (k : string) :
  get m k = None <-> ~ In k (keys m).
Proof.
  induction m as [|[k' v'] m IH]; simpl.
  - tauto.
  - destruct (String.eqb_spec k k') as [->|Hne].
    + split; [discriminate | intros H; exfalso; apply H; now left].
    + rewrite IH. split.
      * intros H [E|E]; [congruence | tauto].
      * intros H E; apply H; now right.
Qed.

Lemma delete_found (m : t) (k : string) :
  fst (delete m k) = has m k.
Proof.
  unfold has. induction m as [|[k' v'] m IH]; simpl; [reflexivity|].
  destruct (String.eqb k k'); [reflexivity|].
  destruct (delete m k) as [found r]; simpl in *. exact IH.
Qed.

(** [delete] takes out one entry when the key is there, none otherwise. *)
Lemma size_delete (m : t) (k : string) :
  size (snd (delete m k)) = if has m k then pred (size m) else size m.
Proof.
  unfold has, size. induction m as [|[k' v'] m IH]; simpl; [reflexivity|].
  destruct (String.eqb k k'); [reflexivity|].
  destruct (delete m k) as [found r]; simpl in *. rewrite IH.
  destruct (get m k) eqn:E; [|reflexivity].
  destruct m; [discriminate | reflexivity].
Qed.

Lemma set_absent (m : t) (k : string) (v : Buffer) :
  get m k = None -> set m k v = m ++ [(k, v)].
Proof.
  induction m as [|[k' v'] m IH]; simpl; [reflexivity|].
  destruct (String.eqb k k'); [discriminate|].
  intros H. now rewrite IH.
Qed.

(** [set] adds at most one entry. *)
Lemma size_set_le (m : t) (k : string) (v : Buffer) :
  (size (set m k v) <= S (size m))%nat.
Proof.
  unfold size. induction m as [|[k' v'] m IH]; simpl; [lia|].
  destruct (String.eqb k k'); simpl; lia.
Qed.

Lemma get_app_last (m : t) (k : string) (v : Buffer) :
  get m k = None -> get (m ++ [(k, v)]) k = Some v.
Proof.
  induction m as [|[k' v'] m IH]; simpl.
  - now rewrite String.eqb_refl.
  - destruct (String.eqb k k'); [discriminate | exact IH].
Qed.

Lemma get_app_other (m : t) (k k' : string) (v : Buffer) :
  k' <> k -> get (m ++ [(k, v)]) k' = get m k'.
Proof.
  intros Hne. induction m as [|[k0 v0] m IH]; simpl.
  - destruct (String.eqb_spec k' k); [contradiction | reflexivity].
  - destruct (String.eqb k' k0); [reflexivity | exact IH].
Qed.

Lemma get_delete_other (m : t) (k k' : string) :
  k' <> k -> get (snd (delete m k)) k' = get m k'.
Proof.
  intros Hne. induction m as [|[k0 v0] m IH]; simpl; [reflexivity|].
  destruct (String.eqb_spec k k0) as [->|Hk].
  - simpl. destruct (String.eqb_spec k' k0); [contradiction | reflexivity].
  - destruct (delete m k) as [found r]; simpl in *.
    destruct (String.eqb k' k0); [reflexivity | exact IH].
Qed.

(** With one entry per key, a deleted key is gone. *)
Lemma get_delete_same (m : t) (k : string) :
  wf m -> get (snd (delete m k)) k = None.
Proof.
  unfold wf. induction m as [|[k0 v0] m IH]; simpl; intros Hwf; [reflexivity|].
  inversion Hwf as [|? ? Hnotin Hnodup]; subst.
  destruct (String.eqb_spec k k0) as [->|Hk].
  - simpl. now apply get_none_keys.
  - destruct (delete m k) as [found r] eqn:E; simpl in *.
    destruct (String.eqb_spec k k0); [contradiction|]. now apply IH.
Qed.

Lemma keys_delete_incl (m : t) (k k' : string) :
  In k' (keys (snd (delete m k))) -> In k' (keys m).
Proof.
  induction m as [|[k0 v0] m IH]; simpl; [tauto|].
  destruct (String.eqb k k0); simpl; [now right|].
  destruct (delete m k) as [found r]; simpl in *. tauto.
Qed.

Lemma wf_delete (m : t) (k : string) : wf m -> wf (snd (delete m k)).
Proof.
  unfold wf. induction m as [|[k0 v0] m IH]; simpl; intros Hwf; [constructor|].
  inversion Hwf as [|? ? Hnotin Hnodup]; subst.
  destruct (String.eqb k k0); simpl; [exact Hnodup|].
  pose proof (@keys_delete_incl m k k0) as Hincl.
  destruct (delete m k) as [found r]; simpl in *.
  constructor; [tauto | now apply IH].
Qed.

Lemma keys_set (m : t) (k : string) (v : Buffer) :
  keys (set m k v) = if has m k then keys m else keys m ++ [k].
Proof.
  unfold has. induction m as [|[k0 v0] m IH]; simpl; [reflexivity|].
  destruct (String.eqb k k0); simpl; [reflexivity|].
  rewrite IH. destruct (get m k); reflexivity.
Qed.

Lemma wf_set (m : t) (k : string) (v : Buffer) : wf m -> wf (set m k v).
Proof.
  unfold wf. rewrite keys_set. intros Hwf.
  destruct (has m k) eqn:E; [exact Hwf|].
  apply has_false_get, get_none_keys in E.
  apply NoDup_app; [exact Hwf | repeat constructor; simpl; tauto |].
  intros a Ha [<-|[]]. contradiction.
Qed.

End JsMapFacts.

Module LRUCacheFacts.
Import LRUCache.
Local Open Scope list_scope.

Lemma maxSize_step (c : t) (o : op) : maxSize (step c o) = maxSize c.
Proof.
  destruct o as [key|key value|key|]; simpl; try reflexivity.
  - unfold get. destruct (JsMap.get (cache c) key); reflexivity.
  - unfold delete. destruct (JsMap.delete (cache c) key); reflexivity.
Qed.

(** A hit of [get] leaves the entries of the other keys in place and puts
    the key's entry last. *)
Lemma get_hit (c : t) (key : string) (item : Buffer) :
  JsMap.wf (cache c) ->
  JsMap.get (cache c) key = Some item ->
  get c key
  = (Some item,
     with_cache c (snd (JsMap.delete (cache c) key) ++ [(key, item)])).
Proof.
  intros Hwf Hget. unfold get. rewrite Hget.
  rewrite JsMapFacts.set_absent; [reflexivity|].
  now apply JsMapFacts.get_delete_same.
Qed.

Lemma set_existing (c : t) (key : string) (value : Buffer) :
  JsMap.wf (cache c) ->
  JsMap.has (cache c) key = true ->
  set c key value
  = with_cache c (snd (JsMap.delete (cache c) key) ++ [(key, value)]).
Proof.
  intros Hwf Hhas. unfold set. rewrite Hhas.
  rewrite JsMapFacts.set_absent; [reflexivity|].
  now apply JsMapFacts.get_delete_same.
Qed.

(** A new key on a full cache: the oldest entry goes, the new one is last. *)
Lemma set_evicts_oldest (c : t) (key k0 : string) (value v0 : Buffer)
    (rest : JsMap.t) :
  cache c = (k0, v0) :: rest ->
  JsMap.has (cache c) key = false ->
  (maxSize c <= Z.of_nat (size c))%Z ->
  set c key value = with_cache c (rest ++ [(key, value)]).
Proof.
  intros Hc Hhas Hfull. unfold set. rewrite Hhas.
  unfold size in Hfull. apply Z.leb_le in Hfull. rewrite Hfull.
  rewrite Hc in *. simpl. rewrite String.eqb_refl. simpl.
  rewrite JsMapFacts.set_absent; [reflexivity|].
  apply JsMapFacts.has_false_get in Hhas. simpl in Hhas.
  destruct (String.eqb key k0); [discriminate | exact Hhas].
Qed.

Lemma size_get_le (c : t) (key : string) :
  (size (snd (get c key)) <= size c)%nat.
Proof.
  unfold get, size. destruct (JsMap.get (cache c) key) as [item|] eqn:E;
    simpl; [|lia].
  pose proof (JsMapFacts.size_set_le
                (snd (JsMap.delete (cache c) key)) key item) as Hset.
  pose proof (JsMapFacts.size_delete (cache c) key) as Hdel.
  assert (Hhas : JsMap.has (cache c) key = true)
    by (apply JsMapFacts.has_true_get; eauto).
  rewrite Hhas in Hdel.
  assert (JsMap.size (cache c) <> 0%nat).
  { unfold JsMap.size. destruct (cache c); [discriminate | simpl; lia]. }
  lia.
Qed.

Lemma size_set_bounded (c : t) (key : string) (value : Buffer) :
  (1 <= maxSize c)%Z ->
  (Z.of_nat (size c) <= maxSize c)%Z ->
  (Z.of_nat (size (set c key value)) <= maxSize c)%Z.
Proof.
  intros Hpos Hle. unfold set, size in *. simpl.
  set (m := cache c) in *.
  destruct (JsMap.has m key) eqn:Hhas.
  - pose proof (JsMapFacts.size_set_le (snd (JsMap.delete m key)) key value).
    pose proof (JsMapFacts.size_delete m key) as Hdel. rewrite Hhas in Hdel.
    assert (JsMap.size m <> 0%nat).
    { apply JsMapFacts.has_true_get in Hhas. destruct Hhas as [v Hv].
      destruct m; [discriminate | unfold JsMap.size; simpl; lia]. }
    lia.
  - destruct (Z.leb_spec (maxSize c) (Z.of_nat (JsMap.size m))) as [Hfull|Hroom].
    + destruct m as [|[k0 v0] rest] eqn:Em.
      * unfold JsMap.size in Hfull. simpl in Hfull. lia.
      * simpl. rewrite String.eqb_refl. simpl.
        pose proof (JsMapFacts.size_set_le rest key value).
        unfold JsMap.size in *. simpl in *. lia.
    + pose proof (JsMapFacts.size_set_le m key value). lia.
Qed.

Lemma size_step_bounded (c : t) (o : op) :
  (1 <= maxSize c)%Z ->
  (Z.of_nat (size c) <= maxSize c)%Z ->
  (Z.of_nat (size (step c o)) <= maxSize c)%Z.
Proof.
  intros Hpos Hle. destruct o as [key|key value|key|]; simpl.
  - pose proof (size_get_le c key). lia.
  - now apply size_set_bounded.
  - unfold delete, size in *.
    pose proof (JsMapFacts.size_delete (cache c) key) as Hdel.
    destruct (JsMap.delete (cache c) key) as [found m]; simpl in *.
    destruct (JsMap.has (cache c) key); lia.
  - unfold size. simpl. lia.
Qed.

Lemma states_bounded (bound : Z) (ops : list op) : forall c : t,
  maxSize c = bound ->
  (1 <= bound)%Z ->
  (Z.of_nat (size c) <= bound)%Z ->
  Forall (fun c' => (Z.of_nat (size c') <= bound)%Z) (states c ops).
Proof.
  induction ops as [|o ops IH]; intros c Hmax Hpos Hle; simpl.
  - constructor.
  - assert (Hstep : (Z.of_nat (size (step c o)) <= bound)%Z).
    { rewrite <- Hmax. apply size_step_bounded; rewrite Hmax; assumption. }
    constructor; [exact Hstep|].
    apply IH; [rewrite maxSize_step; exact Hmax | exact Hpos | exact Hstep].
Qed.

(** Every operation keeps one entry per key. *)
Lemma wf_step (c : t) (o : op) :
  JsMap.wf (cache c) -> JsMap.wf (cache (step c o)).
Proof.
  intros Hwf. destruct o as [key|key value|key|]; simpl.
  - unfold get. destruct (JsMap.get (cache c) key); simpl; [|exact Hwf].
    now apply JsMapFacts.wf_set, JsMapFacts.wf_delete.
  - unfold set. simpl. apply JsMapFacts.wf_set.
    destruct (JsMap.has (cache c) key); [now apply JsMapFacts.wf_delete|].
    destruct (maxSize c <=? Z.of_nat (JsMap.size (cache c)))%Z; [|exact Hwf].
    destruct (JsMap.first_key (cache c)); [|exact Hwf].
    now apply JsMapFacts.wf_delete.
  - unfold delete.
    pose proof (@JsMapFacts.wf_delete (cache c) key Hwf) as Hd.
    destruct (JsMap.delete (cache c) key); exact Hd.
  - constructor.
Qed.

Lemma wf_run (ops : list op) : forall c : t,
  JsMap.wf (cache c) -> JsMap.wf (cache (run c ops)).
Proof.
  unfold run. induction ops as [|o ops IH]; intros c Hwf; simpl.
  - exact Hwf.
  - apply IH. now apply wf_step.
Qed.

End LRUCacheFacts.

Section LRUClaims.
Import LRUCache.
Local Open Scope list_scope.

(** Decides the key comparisons of a concrete run from the assumed
    disequalities. *)
Ltac eval_keys :=
  repeat (simpl;
          rewrite ?String.eqb_refl;
          repeat match goal with
            | H : ?x <> ?y |- context [String.eqb ?x ?y] =>
                rewrite (proj2 (String.eqb_neq x y) H)
            | H : ?x <> ?y |- context [String.eqb ?y ?x] =>
                rewrite (proj2 (String.eqb_neq y x) (not_eq_sym H))
            end).

(** C4.  The cache evicts the least recently used entry and [get] makes an
    entry the most recently used one.  From the empty cache of capacity 2,
    [set(a,1); set(b,2); get(a); set(c,3)] evicts [b] and not [a]: after it
    [has(b)] is false, [get(a)] is 1 and [get(c)] is 3.  In general, on a
    cache with one entry per key: [set] on a key that is present keeps the
    size and every key, stores the new value and puts the entry last (most
    recently used); a hit of [get] puts the entry last; and [set] of a new
    key on a full cache drops exactly the first (least recently used)
    entry. *)
Theorem lru_evicts_least_recently_used
    (a b c : string) (v1 v2 v3 : Buffer) :
  a <> b -> a <> c -> b <> c ->
  let c2 := set (set (new 2) a v1) b v2 in
  let c3 := snd (get c2 a) in
  let c4 := set c3 c v3 in
  (fst (get c2 a) = Some v1 /\
   has c4 b = false /\
   fst (get c4 a) = Some v1 /\
   fst (get c4 c) = Some v3)
  /\
  (forall (k : t) (key : string) (value : Buffer),
      JsMap.wf (cache k) -> has k key = true ->
      size (set k key value) = size k /\
      fst (get (set k key value) key) = Some value /\
      (exists older, cache (set k key value) = older ++ [(key, value)]) /\
      (forall key', has k key' = true -> has (set k key value) key' = true))
  /\
  (forall (k : t) (key : string) (item : Buffer),
      JsMap.wf (cache k) -> JsMap.get (cache k) key = Some item ->
      fst (get k key) = Some item /\
      (exists older, cache (snd (get k key)) = older ++ [(key, item)]) /\
      (forall key', has (snd (get k key)) key' = has k key'))
  /\
  (forall (k : t) (key k0 : string) (value v0 : Buffer) (rest : JsMap.t),
      cache k = (k0, v0) :: rest ->
      has k key = false ->
      (maxSize k <= Z.of_nat (size k))%Z ->
      cache (set k key value) = rest ++ [(key, value)]).
Proof.
  intros Hab Hac Hbc c2 c3 c4.
  split; [|split; [|split]].
  - subst c4 c3 c2. unfold get, set, has, JsMap.has.
    repeat split; eval_keys; reflexivity.
  - intros k key value Hwf Hhas.
    rewrite (@LRUCacheFacts.set_existing k key value Hwf Hhas).
    assert (Hgone : JsMap.get (snd (JsMap.delete (cache k) key)) key = None)
      by (now apply JsMapFacts.get_delete_same).
    repeat split.
    + unfold size. simpl. unfold JsMap.size. rewrite length_app. simpl.
      pose proof (JsMapFacts.size_delete (cache k) key) as Hdel.
      unfold has in Hhas. rewrite Hhas in Hdel. unfold JsMap.size in Hdel.
      rewrite Hdel.
      apply JsMapFacts.has_true_get in Hhas. destruct Hhas as [v Hv].
      destruct (cache k); [discriminate | simpl; lia].
    + unfold get. simpl. now rewrite JsMapFacts.get_app_last.
    + simpl. eauto.
    + intros key' Hk'. unfold has in *. simpl. unfold JsMap.has in *.
      destruct (String.eqb_spec key' key) as [->|Hne].
      * now rewrite JsMapFacts.get_app_last.
      * rewrite JsMapFacts.get_app_other by assumption.
        rewrite JsMapFacts.get_delete_other by assumption. exact Hk'.
  - intros k key item Hwf Hget.
    rewrite (@LRUCacheFacts.get_hit k key item Hwf Hget).
    assert (Hgone : JsMap.get (snd (JsMap.delete (cache k) key)) key = None)
      by (now apply JsMapFacts.get_delete_same).
    repeat split.
    + simpl. eauto.
    + intros key'. unfold has. simpl. unfold JsMap.has.
      destruct (String.eqb_spec key' key) as [->|Hne].
      * rewrite JsMapFacts.get_app_last by assumption. now rewrite Hget.
      * rewrite JsMapFacts.get_app_other by assumption.
        now rewrite JsMapFacts.get_delete_other by assumption.
  - intros k key k0 value v0 rest Hc Hhas Hfull.
    now rewrite (@LRUCacheFacts.set_evicts_oldest k key k0 value v0 rest
                   Hc Hhas Hfull).
Qed.

Lemma lru_evicts_least_recently_used_witness :
  let c2 := set (set (new 2) "a" [x01]) "b" [x02] in
  let c4 := set (snd (get c2 "a")) "c" [x03] in
  has c4 "b" = false /\ fst (get c4 "a") = Some [x01]
  /\ fst (get c4 "c") = Some [x03].
Proof.
  assert (Hab : "a" <> "b") by discriminate.
  assert (Hac : "a" <> "c") by discriminate.
  assert (Hbc : "b" <> "c") by discriminate.
  pose proof (@lru_evicts_least_recently_used "a" "b" "c" [x01] [x02] [x03]
                Hab Hac Hbc)
    as H.
  simpl in H. destruct H as [[_ [H1 [H2 H3]]] _].
  repeat split; assumption.
Defined.

(** C10.  For a cache built with [maxSize >= 1], after each operation of
    any finite sequence of [get], [set], [delete] and [clear] from the
    empty cache, the size is at most [maxSize]. *)
Theorem lru_size_never_exceeds_maxSize (maxSize : Z) (ops : list op) :
  (1 <= maxSize)%Z ->
  Forall (fun c => (Z.of_nat (size c) <= maxSize)%Z)
         (states (new maxSize) ops).
Proof.
  intros Hpos. apply LRUCacheFacts.states_bounded.
  - reflexivity.
  - exact Hpos.
  - simpl. lia.
Qed.

Lemma lru_size_never_exceeds_maxSize_witness :
  Forall (fun c => (Z.of_nat (size c) <= 2)%Z)
         (states (new 2)
            [Set_ "a" [x01]; Set_ "b" [x02]; Get "a"; Set_ "c" [x03];
             Delete "a"; Set_ "d" [x04]; Set_ "e" [x05]; Clear]).
Proof.
  apply (@lru_size_never_exceeds_maxSize 2). lia.
Defined.

(** The other example of the specification: with capacity 2,
    [set(a,1); set(b,2); set(c,3)] evicts [a]. *)
Example lru_three_sets :
  let c3 := set (set (set (new 2) "a" [x01]) "b" [x02]) "c" [x03] in
  has c3 "a" = false
  /\ fst (get c3 "b") = Some [x02]
  /\ fst (get c3 "c") = Some [x03]
  /\ size c3 = 2%nat.
Proof. repeat split. Qed.

(** The bound of C10 needs [maxSize >= 1]: a cache built with size 0
    holds one entry after its first [set]. *)
Remark lru_maxSize_zero_overflows :
  size (set (new 0) "a" [x01]) = 1%nat.
Proof. reflexivity. Qed.

End LRUClaims.

(** ** The tile keys *)

Module KeyFacts.
Local Open Scope string_scope.

Lemma digits_of_uint (d : uint) :
  digits_only (NilEmpty.string_of_uint d) = true.
Proof. induction d; simpl; auto. Qed.

Lemma uint_string_nonempty (d : uint) :
  d <> Nil -> NilEmpty.string_of_uint d <> "".
Proof. destruct d; simpl; congruence. Qed.

(** An integer prints as digits, after a minus sign when negative. *)
Lemma toString_Int_shape (n : Z) :
  exists ds, ds <> "" /\ digits_only ds = true /\
             (toString (Int n) = ds \/ toString (Int n) = String "-" ds).
Proof.
  destruct n as [|p|p]; simpl.
  - exists "0". repeat split; [discriminate | now left].
  - exists (NilEmpty.string_of_uint (Pos.to_uint p)).
    pose proof (DecimalPos.Unsigned.to_uint_nonnil p) as Hnn.
    repeat split.
    + now apply uint_string_nonempty.
    + apply digits_of_uint.
    + left. unfold NilZero.string_of_uint.
      destruct (Pos.to_uint p); [contradiction | reflexivity ..].
  - exists (NilEmpty.string_of_uint (Pos.to_uint p)).
    pose proof (DecimalPos.Unsigned.to_uint_nonnil p) as Hnn.
    repeat split.
    + now apply uint_string_nonempty.
    + apply digits_of_uint.
    + right. unfold NilZero.string_of_uint.
      destruct (Pos.to_uint p); [contradiction | reflexivity ..].
Qed.

Lemma toString_Int_inj (n1 n2 : Z) :
  toString (Int n1) = toString (Int n2) -> n1 = n2.
Proof.
  simpl. intros H. apply DecimalZ.to_int_inj.
  assert (Hnn : forall n, Z.to_int n <> Pos Nil /\ Z.to_int n <> Neg Nil).
  { intros [|p|p]; simpl; split; try discriminate;
      intros [= E]; now apply (DecimalPos.Unsigned.to_uint_nonnil p). }
  assert (E : Some (Z.to_int n1) = Some (Z.to_int n2)).
  { rewrite <- (NilZero.isi (Z.to_int n1) (proj1 (Hnn n1)) (proj2 (Hnn n1))).
    rewrite <- (NilZero.isi (Z.to_int n2) (proj1 (Hnn n2)) (proj2 (Hnn n2))).
    now rewrite H. }
  now injection E.
Qed.

(** Two strings of digits, each followed by a character that is not a
    digit, are equal only when they agree on the digits and on what
    follows. *)
Lemma digits_then_other (d1 : string) : forall (d2 : string)
    (c1 c2 : ascii) (r1 r2 : string),
  digits_only d1 = true -> digits_only d2 = true ->
  is_digit c1 = false -> is_digit c2 = false ->
  d1 ++ String c1 r1 = d2 ++ String c2 r2 ->
  d1 = d2 /\ String c1 r1 = String c2 r2.
Proof.
  induction d1 as [|a d1 IH]; intros [|b d2] c1 c2 r1 r2 H1 H2 Hc1 Hc2 E;
    simpl in *.
  - now split.
  - injection E as -> _. apply andb_prop in H2. destruct H2. congruence.
  - injection E as -> _. apply andb_prop in H1. destruct H1. congruence.
  - injection E as -> E. apply andb_prop in H1, H2.
    destruct H1 as [_ H1], H2 as [_ H2].
    destruct (IH d2 c1 c2 r1 r2 H1 H2 Hc1 Hc2 E) as [-> Er]. now split.
Qed.

(** The same for the printed integers, whose minus sign is not a digit
    either: a printed integer ends where the first character after its
    sign and digits begins. *)
Lemma toString_then_other (n1 n2 : Z) (c1 c2 : ascii) (r1 r2 : string) :
  is_digit c1 = false -> is_digit c2 = false ->
  toString (Int n1) ++ String c1 r1 = toString (Int n2) ++ String c2 r2 ->
  n1 = n2 /\ String c1 r1 = String c2 r2.
Proof.
  intros Hc1 Hc2 E.
  destruct (toString_Int_shape n1) as (d1 & Hne1 & Hd1 & S1).
  destruct (toString_Int_shape n2) as (d2 & Hne2 & Hd2 & S2).
  assert (Hs : toString (Int n1) = toString (Int n2)
               /\ String c1 r1 = String c2 r2).
  { destruct S1 as [S1|S1], S2 as [S2|S2]; rewrite S1, S2 in *; simpl in E.
    - destruct (digits_then_other _ _ _ _ _ _ Hd1 Hd2 Hc1 Hc2 E) as [-> Er].
      now split.
    - destruct d1 as [|a d1]; [congruence|]. simpl in *.
      injection E as -> _. discriminate.
    - destruct d2 as [|a d2]; [congruence|]. simpl in *.
      injection E as <- _. discriminate.
    - injection E as E.
      destruct (digits_then_other _ _ _ _ _ _ Hd1 Hd2 Hc1 Hc2 E) as [-> Er].
      now split. }
  destruct Hs as [Hs Hr]. split; [now apply toString_Int_inj | exact Hr].
Qed.

Lemma append_inv_head (p a b : string) : p ++ a = p ++ b -> a = b.
Proof.
  induction p as [|c p IH]; simpl; [auto|]. intros [= E]. auto.
Qed.

End KeyFacts.

Section KeyClaims.
Local Open Scope string_scope.

Lemma cacheKey_inj (x1 y1 z1 x2 y2 z2 : Z) :
  cacheKey (Int x1) (Int y1) (Int z1) = cacheKey (Int x2) (Int y2) (Int z2) ->
  (x1, y1, z1) = (x2, y2, z2).
Proof.
  unfold cacheKey. cbn [append]. intros E.
  apply KeyFacts.toString_then_other in E; [|reflexivity ..].
  destruct E as [-> E]. injection E as E.
  apply KeyFacts.toString_then_other in E; [|reflexivity ..].
  destruct E as [-> E]. injection E as E.
  apply KeyFacts.toString_Int_inj in E. now subst.
Qed.

Lemma getTileKey_inj (s : TileStorage.t) (format : string)
    (x1 y1 z1 x2 y2 z2 : Z) :
  TileStorage.getTileKey s (Int z1) (Int x1) (Int y1) format
  = TileStorage.getTileKey s (Int z2) (Int x2) (Int y2) format ->
  (x1, y1, z1) = (x2, y2, z2).
Proof.
  unfold TileStorage.getTileKey. cbn [append]. intros E.
  apply KeyFacts.append_inv_head in E. injection E as E.
  apply KeyFacts.toString_then_other in E; [|reflexivity ..].
  destruct E as [-> E]. injection E as E.
  apply KeyFacts.toString_then_other in E; [|reflexivity ..].
  destruct E as [-> E]. injection E as E.
  apply KeyFacts.toString_then_other in E; [|reflexivity ..].
  destruct E as [-> _]. reflexivity.
Qed.

(** C3.  The tile keys are collision-free on integer triples: two distinct
    triples [(x1, y1, z1)] and [(x2, y2, z2)] get different memory-cache
    keys ["x-y-z"] and, under one prefix and one format, different
    durable-store keys ["prefix/z/x/y.format"]. *)
Theorem tile_keys_collision_free
    (s : TileStorage.t) (format : string) (x1 y1 z1 x2 y2 z2 : Z) :
  (x1, y1, z1) <> (x2, y2, z2) ->
  cacheKey (Int x1) (Int y1) (Int z1) <> cacheKey (Int x2) (Int y2) (Int z2)
  /\ TileStorage.getTileKey s (Int z1) (Int x1) (Int y1) format
     <> TileStorage.getTileKey s (Int z2) (Int x2) (Int y2) format.
Proof.
  intros Hne. split; intros E; apply Hne.
  - now apply cacheKey_inj.
  - now apply getTileKey_inj with (s := s) (format := format).
Qed.

Lemma tile_keys_collision_free_witness :
  cacheKey (Int 1) (Int (-2)) (Int 3) <> cacheKey (Int 1) (Int 2) (Int (-3))
  /\ TileStorage.getTileKey (TileStorage.new "map-tiles" None)
       (Int 3) (Int 1) (Int (-2)) "png"
     <> TileStorage.getTileKey (TileStorage.new "map-tiles" None)
          (Int (-3)) (Int 1) (Int 2) "png".
Proof.
  apply (@tile_keys_collision_free (TileStorage.new "map-tiles" None) "png"
           1 (-2) 3 1 2 (-3)).
  discriminate.
Defined.

Example cacheKey_example :
  cacheKey (Int 100) (Int 200) (Int 10) = "100-200-10"
  /\ cacheKey (Int 1) (Int (-2)) (Int 3) = "1--2-3"
  /\ cacheKey NaN (Int 0) Infinity = "NaN-0-Infinity".
Proof. repeat split. Qed.

Example getTileKey_example :
  TileStorage.getTileKey (TileStorage.new "map-tiles" None)
    (Int 10) (Int 100) (Int 200) "png" = "tiles/10/100/200.png".
Proof. reflexivity. Qed.

End KeyClaims.

(** ** Tile acquisition *)

Module OrchestratorFacts.
Import Orchestrator.
Local Open Scope list_scope.

Lemma tiers_app (a b : list event) : tiers (a ++ b) = tiers a ++ tiers b.
Proof.
  induction a as [|e a IH]; simpl; [reflexivity|].
  destruct (consulted e); simpl; now rewrite IH.
Qed.

Lemma in_consecutive (A : Type) (l before after : list A) (a b c : A) :
  l = before ++ a :: b :: c :: after -> In a l /\ In b l /\ In c l.
Proof.
  intros ->. repeat split; apply in_or_app; right; simpl; tauto.
Qed.

(** Unfolds the monad and brings a record of events to the form
    [trace w ++ ...]. *)
Ltac run_monad :=
  unfold bind, try_catch, emit, logger, ret, throw, tileCache_set,
    tileCache_get, tileCache_size; simpl;
  rewrite <- ?app_assoc; simpl.

Section WithEnv.
Variable env : Env.

Lemma await_change_outcome (notified : list TileState) : forall w : World,
  exists tr,
    await_change env notified w
    = (Settled (await_outcome (TILE_LOAD_TIMEOUT env) notified),
       mkWorld (tileCache w) (trace w ++ tr))
    /\ tiers tr = [].
Proof.
  induction notified as [|s later IH]; intros w.
  - simpl. run_monad. eexists. split; reflexivity.
  - destruct s; simpl; try apply IH;
      run_monad; eexists; split; reflexivity.
Qed.

(** The origin tier: its result, what it leaves in the memory tier, and
    that it consults no other tier. *)
Lemma from_source_outcome (key : string) (x y z : number) (w : World) :
  exists tr,
    from_source env key x y z w
    = (Settled (origin_outcome env x y z),
       mkWorld
         match origin_outcome env x y z with
         | Return buffer => LRUCache.set (tileCache w) key buffer
         | Throw _ => tileCache w
         end
         (trace w ++ OriginGetTile z x y :: tr))
    /\ tiers tr = [].
Proof.
  unfold from_source, origin_outcome.
  destruct (render_getTile env z x y) as [msg|[tile|]];
    [run_monad; eexists; split; reflexivity | |
     run_monad; eexists; split; reflexivity].
  assert (Hsettle : exists tr,
    (match state0 tile with
     | LOADED | EMPTY => ret (state0 tile)
     | IDLE | LOADING | ERROR =>
         logger Info "tile not loaded, reloading..." ;;
         emit SetTimeout ;; emit AddListener ;; emit Load ;;
         await_change env (changes tile)
     end) (mkWorld (tileCache w) (trace w ++ [OriginGetTile z x y]))
    = (Settled
         match state0 tile with
         | LOADED | EMPTY => Return (state0 tile)
         | IDLE | LOADING | ERROR => await_outcome (TILE_LOAD_TIMEOUT env) (changes tile)
         end,
       mkWorld (tileCache w) (trace w ++ OriginGetTile z x y :: tr))
    /\ tiers tr = []).
  { destruct (state0 tile);
      try (run_monad; exists []; split; reflexivity);
      run_monad;
      match goal with
      | |- context [await_change env ?l ?w0] =>
          destruct (await_change_outcome l w0) as (tr & E & Ht);
          rewrite E
      end;
      simpl; rewrite <- ?app_assoc; simpl;
      eexists; (split; [reflexivity|]); simpl; exact Ht. }
  destruct Hsettle as (tr0 & E0 & Ht0).
  unfold bind at 1. unfold emit at 1. simpl.
  unfold bind at 1. rewrite E0.
  destruct (match state0 tile with
            | LOADED | EMPTY => Return (state0 tile)
            | _ => await_outcome (TILE_LOAD_TIMEOUT env) (changes tile)
            end) as [s|e];
    [|eexists; split; [reflexivity | exact Ht0]].
  destruct s, (getImage tile) as [| |buffer];
    try (run_monad; eexists; split;
         [reflexivity | rewrite ?tiers_app, ?Ht0; reflexivity]);
    destruct (s3Enabled env); run_monad;
    try destruct (s3_saveTile env z x y buffer "png"); run_monad;
    match goal with
    | |- context [Nat.eqb ?n 0] => destruct (Nat.eqb n 0)
    end;
    run_monad; eexists; (split; [reflexivity|]);
    rewrite ?tiers_app, ?Ht0; reflexivity.
Qed.

(** When the origin yields a tile and the write to the durable tier
    fails, the write was started and its failure is logged. *)
Lemma from_source_failed_write (key : string) (x y z : number)
    (w : World) (buffer : Buffer) (msg : string) :
  s3Enabled env = true ->
  origin_outcome env x y z = Return buffer ->
  s3_saveTile env z x y buffer "png" = S3WriteFails msg ->
  exists before after,
    trace (snd (from_source env key x y z w))
    = before ++ MemSet key buffer :: S3Save z x y buffer "png"
             :: Log Warn "Failed to save to S3 cache" :: after.
Proof.
  intros Hs3 Hout Hsave. unfold from_source, origin_outcome in *.
  destruct (render_getTile env z x y) as [msg'|[tile|]];
    try discriminate.
  assert (Hsettle : exists tr0,
    (match state0 tile with
     | LOADED | EMPTY => ret (state0 tile)
     | IDLE | LOADING | ERROR =>
         logger Info "tile not loaded, reloading..." ;;
         emit SetTimeout ;; emit AddListener ;; emit Load ;;
         await_change env (changes tile)
     end) (mkWorld (tileCache w) (trace w ++ [OriginGetTile z x y]))
    = (Settled
         match state0 tile with
         | LOADED | EMPTY => Return (state0 tile)
         | IDLE | LOADING | ERROR =>
             await_outcome (TILE_LOAD_TIMEOUT env) (changes tile)
         end,
       mkWorld (tileCache w) (trace w ++ OriginGetTile z x y :: tr0))).
  { destruct (state0 tile);
      try (run_monad; exists []; reflexivity);
      run_monad;
      match goal with
      | |- context [await_change env ?l ?w0] =>
          destruct (await_change_outcome l w0) as (tr & E & Ht);
          rewrite E
      end;
      simpl; rewrite <- ?app_assoc; simpl; eexists; reflexivity. }
  destruct Hsettle as (tr0 & E0).
  unfold bind at 1. unfold emit at 1. simpl.
  unfold bind at 1. rewrite E0. clear E0.
  destruct (match state0 tile with
            | LOADED | EMPTY => Return (state0 tile)
            | _ => await_outcome (TILE_LOAD_TIMEOUT env) (changes tile)
            end) as [s|e]; [|discriminate].
  destruct s, (getImage tile) as [| |buffer']; try discriminate;
    injection Hout as ->; rewrite Hs3; run_monad; rewrite Hsave;
    run_monad;
    match goal with
    | |- context [Nat.eqb ?n 0] => destruct (Nat.eqb n 0)
    end;
    run_monad;
    eexists (trace w ++ OriginGetTile z x y :: tr0 ++ [_]), _;
    repeat (rewrite <- app_assoc; simpl); reflexivity.
Qed.

End WithEnv.

(** The arguments are three numbers, or one of them is not of type
    number. *)
Lemma numbers_or_not (x y z : jsval) :
  (exists xn yn zn, x = JsNumber xn /\ y = JsNumber yn /\ z = JsNumber zn)
  \/ (typeof x <> "number" \/ typeof y <> "number" \/ typeof z <> "number").
Proof.
  destruct x as [xn| | | | | | |[] ?];
    try (right; left; simpl; discriminate).
  destruct y as [yn| | | | | | |[] ?];
    try (right; right; left; simpl; discriminate).
  destruct z as [zn| | | | | | |[] ?];
    try (right; right; right; simpl; discriminate).
  left. exists xn, yn, zn. repeat split.
Qed.

(** What [getTile] does with an argument that is not of type number: the
    first line is evaluated and logged, and the guard throws. *)
Lemma call_not_numbers (env : Env) (c : LRUCache.t) (x y z : jsval) :
  typeof x <> "number" \/ typeof y <> "number" \/ typeof z <> "number" ->
  call env c x y z
  = match getTile_line x y z with
    | Converts line =>
        (Settled (Throw InvalidParameter),
         mkWorld c [Log Info line;
                    Log Error_ "Tile parameter validation error"])
    | ConversionThrows message =>
        (Settled (Throw (mkError message)), mkWorld c [])
    end.
Proof.
  intros H. unfold call, getTile. unfold bind at 1.
  destruct (getTile_line x y z) as [line|message]; [|reflexivity].
  simpl.
  destruct x as [xn| | | | | | |? ?], y as [yn| | | | | | |? ?],
    z as [zn| | | | | | |? ?]; try reflexivity.
  exfalso. simpl in H. destruct H as [H|[H|H]]; now apply H.
Qed.

End OrchestratorFacts.

Section OrchestratorClaims.
Import Orchestrator.
Local Open Scope list_scope.

(** C1, as the code has it.  When [x], [y] or [z] is not of type number,
    [getTile] fails, leaves the memory cache as it was and reads or writes
    neither the memory tier nor the durable tier.  It fails with
    [InvalidParameter] when the three values convert to strings for the
    first log line, which comes before the guard, and else with what the
    first conversion that fails throws: a [TypeError] for a symbol. *)
Theorem getTile_rejects_non_numbers
    (env : Env) (c : LRUCache.t) (x y z : jsval) :
  typeof x <> "number" \/ typeof y <> "number" \/ typeof z <> "number" ->
  let r := call env c x y z in
  fst r = match getTile_line x y z with
          | Converts _ => Throw InvalidParameter
          | ConversionThrows message => Throw (mkError message)
          end
  /\ tileCache (snd r) = c
  /\ untouched (trace (snd r)) = true.
Proof.
  intros H r. subst r.
  rewrite (OrchestratorFacts.call_not_numbers env c x y z H).
  destruct (getTile_line x y z) as [line|message]; repeat split.
Qed.

Lemma getTile_rejects_non_numbers_witness :
  let r := call env_without_s3 (LRUCache.new 200)
             (JsNumber (Int 1)) (JsNumber (Int 2)) (JsString "abc") in
  fst r = Throw InvalidParameter
  /\ tileCache (snd r) = LRUCache.new 200
  /\ untouched (trace (snd r)) = true.
Proof.
  apply (@getTile_rejects_non_numbers env_without_s3 (LRUCache.new 200)
           (JsNumber (Int 1)) (JsNumber (Int 2)) (JsString "abc")).
  right. right. simpl. discriminate.
Defined.

(** A symbol does not reach the guard: the first line of [getTile] throws
    on it, before anything is logged.  An object reaches the guard when
    its conversion yields a string. *)
Example getTile_symbol_run :
  call env_without_s3 (LRUCache.new 200)
    (JsSymbol "x") (JsNumber (Int 0)) (JsNumber (Int 0))
  = (Settled (Throw (mkError "Cannot convert a Symbol value to a string")),
     mkWorld (LRUCache.new 200) [])
  /\ call env_without_s3 (LRUCache.new 200)
       (JsNumber (Int 0)) (JsObject false (Converts "[object Object]"))
       (JsBigInt 7)
     = (Settled (Throw InvalidParameter),
        mkWorld (LRUCache.new 200)
          [Log Info "getTile: 0, [object Object], 7";
           Log Error_ "Tile parameter validation error"]).
Proof. split; reflexivity. Qed.

(** C1 as stated fails: [NaN] is not a finite numeric value, yet
    [getTile(NaN, 0, 0)] passes the guard, reads the memory tier under the
    key ["NaN-0-0"], writes it, and returns the tile of the origin. *)
Lemma getTile_NaN_passes_guard :
  ~ (forall (env : Env) (c : LRUCache.t) (x y z : jsval),
        finite x && finite y && finite z = false ->
        fst (call env c x y z) = Throw InvalidParameter
        /\ untouched (trace (snd (call env c x y z))) = true).
Proof.
  intros H.
  destruct (H env_without_s3 (LRUCache.new 200)
              (JsNumber NaN) (JsNumber (Int 0)) (JsNumber (Int 0))
              eq_refl) as [Hr _].
  vm_compute in Hr. discriminate Hr.
Qed.

Example getTile_NaN_run :
  let r := call env_without_s3 (LRUCache.new 200)
             (JsNumber NaN) (JsNumber (Int 0)) (JsNumber (Int 0)) in
  fst r = Return [x89; x50]
  /\ trace (snd r)
     = [Log Info "getTile: NaN, 0, 0";
        MemGet "NaN-0-0";
        OriginGetTile (Int 0) NaN (Int 0);
        Log Info "tile load finished, status: 2";
        MemSet "NaN-0-0" [x89; x50]]
  /\ LRUCache.has (tileCache (snd r)) "NaN-0-0" = true.
Proof. vm_compute. repeat split. Qed.

End OrchestratorClaims.

Section TierClaims.
Import Orchestrator.
Local Open Scope list_scope.

(** Runs [getTile] on numbers up to the point where the tiers after the
    memory tier take over. *)
Ltac enter_getTile :=
  unfold call, getTile, s3_lookup, tileCache_set, tileCache_get,
    tileCache_size, logger, interpolate, getTile_line, template;
  unfold bind, try_catch, emit, ret, throw, never, LRUCache.get; simpl.

Ltac through_origin env key xn yn zn :=
  match goal with
  | |- context [from_source env key xn yn zn ?w] =>
      let tr := fresh "tr" in
      let E := fresh "E" in
      let Ht := fresh "Ht" in
      destruct (OrchestratorFacts.from_source_outcome env key xn yn zn w)
        as (tr & E & Ht);
      rewrite E; clear E
  end.

(** C5.  A call whose key is in the memory cache returns the cached bytes
    and does nothing but log and read the memory tier.  In every call the
    tiers are consulted in the order memory, durable, origin, and none is
    consulted after an earlier one has hit: the durable tier is read only
    after a memory miss (and only when enabled), the origin only after a
    durable miss or failure.  (When the read of the durable tier never
    settles, neither does the call, and the origin is not consulted.) *)
Theorem getTile_consults_tiers_in_order
    (env : Env) (c : LRUCache.t) (xn yn zn : number) :
  let key := cacheKey xn yn zn in
  let r := call env c (JsNumber xn) (JsNumber yn) (JsNumber zn) in
  match JsMap.get (LRUCache.cache c) key with
  | Some cached =>
      fst r = Return cached
      /\ trace (snd r)
         = [Log Info ("getTile: " ++ toString xn ++ ", " ++ toString yn
                        ++ ", " ++ toString zn);
            MemGet key;
            Log Info ("tile loaded from LRU cache: " ++ key)]
      /\ tiers (trace (snd r)) = [Memory]
  | None =>
      if s3Enabled env then
        match s3_getTile env zn xn yn with
        | S3Found data =>
            fst r = Return data
            /\ tiers (trace (snd r)) = [Memory; Durable]
        | S3Null | S3ReadFails _ =>
            fst r = origin_outcome env xn yn zn
            /\ tiers (trace (snd r)) = [Memory; Durable; Origin]
        | S3Pending =>
            fst r = NeverSettles
            /\ tiers (trace (snd r)) = [Memory; Durable]
        end
      else
        fst r = origin_outcome env xn yn zn
        /\ tiers (trace (snd r)) = [Memory; Origin]
  end.
Proof.
  intros key r. subst r. enter_getTile. fold key.
  destruct (JsMap.get (LRUCache.cache c) key) as [cached|] eqn:Hmem; simpl.
  - repeat split.
  - destruct (s3Enabled env) eqn:Hs3; simpl.
    + destruct (s3_getTile env zn xn yn) as [data| |msg|]; simpl.
      * split; reflexivity.
      * through_origin env key xn yn zn.
        destruct (origin_outcome env xn yn zn); simpl;
          rewrite ?OrchestratorFacts.tiers_app; simpl; rewrite ?Ht;
          split; reflexivity.
      * through_origin env key xn yn zn.
        destruct (origin_outcome env xn yn zn); simpl;
          rewrite ?OrchestratorFacts.tiers_app; simpl; rewrite ?Ht;
          split; reflexivity.
      * split; reflexivity.
    + through_origin env key xn yn zn.
      destruct (origin_outcome env xn yn zn); simpl;
        rewrite ?OrchestratorFacts.tiers_app; simpl; rewrite ?Ht;
        split; reflexivity.
Qed.

(** C6.  A failure of the durable tier never reaches the caller of
    [getTile].  Every call returns what it returns, and leaves the memory
    tier as it leaves it, when the durable tier never fails (a failing
    read finding nothing, a failing write succeeding).  A read that fails
    is logged and the resolution goes on to the origin, whose outcome is
    the outcome of the call.  A write that fails after the origin
    yielded a tile (the read of the durable tier having settled without
    a hit) is logged, and the call returns the tile's bytes, which are in
    the memory tier by then. *)
Theorem durable_failures_never_propagate (env : Env) (c : LRUCache.t) :
  (forall x y z : jsval,
      let r := call env c x y z in
      let r' := call (without_s3_failures env) c x y z in
      fst r = fst r' /\ tileCache (snd r) = tileCache (snd r'))
  /\
  (forall (xn yn zn : number) (msg : string),
      let r := call env c (JsNumber xn) (JsNumber yn) (JsNumber zn) in
      JsMap.get (LRUCache.cache c) (cacheKey xn yn zn) = None ->
      s3Enabled env = true ->
      s3_getTile env zn xn yn = S3ReadFails msg ->
      fst r = origin_outcome env xn yn zn
      /\ In (Log Warn "Failed to load from S3 cache") (trace (snd r))
      /\ In (OriginGetTile zn xn yn) (trace (snd r)))
  /\
  (forall (xn yn zn : number) (buffer : Buffer) (msg : string),
      let key := cacheKey xn yn zn in
      let r := call env c (JsNumber xn) (JsNumber yn) (JsNumber zn) in
      JsMap.get (LRUCache.cache c) key = None ->
      s3Enabled env = true ->
      (forall data, s3_getTile env zn xn yn <> S3Found data) ->
      s3_getTile env zn xn yn <> S3Pending ->
      origin_outcome env xn yn zn = Return buffer ->
      s3_saveTile env zn xn yn buffer "png" = S3WriteFails msg ->
      fst r = Return buffer
      /\ In (MemSet key buffer) (trace (snd r))
      /\ In (S3Save zn xn yn buffer "png") (trace (snd r))
      /\ In (Log Warn "Failed to save to S3 cache") (trace (snd r))).
Proof.
  split; [|split].
  - intros x y z r r'. subst r r'.
    destruct (OrchestratorFacts.numbers_or_not x y z)
      as [(xn & yn & zn & -> & -> & ->)|Hnot];
      [|rewrite !(OrchestratorFacts.call_not_numbers _ c x y z Hnot);
        split; reflexivity].
    enter_getTile. set (key := cacheKey xn yn zn).
    destruct (JsMap.get (LRUCache.cache c) key) as [cached|]; simpl;
      [split; reflexivity|].
    destruct (s3Enabled env) eqn:Hs3; simpl.
    + destruct (s3_getTile env zn xn yn) as [data| |msg|]; simpl;
        [split; reflexivity | | | split; reflexivity];
        through_origin env key xn yn zn;
        through_origin (without_s3_failures env) key xn yn zn;
        change (origin_outcome (without_s3_failures env) xn yn zn)
          with (origin_outcome env xn yn zn);
        destruct (origin_outcome env xn yn zn); split; reflexivity.
    + through_origin env key xn yn zn.
      through_origin (without_s3_failures env) key xn yn zn.
      change (origin_outcome (without_s3_failures env) xn yn zn)
        with (origin_outcome env xn yn zn).
      destruct (origin_outcome env xn yn zn); split; reflexivity.
  - intros xn yn zn msg r Hmem Hs3 Hread. subst r.
    enter_getTile. set (key := cacheKey xn yn zn) in *.
    rewrite Hmem, Hs3, Hread. simpl.
    through_origin env key xn yn zn.
    destruct (origin_outcome env xn yn zn); simpl;
      repeat (rewrite in_app_iff; simpl); tauto.
  - intros xn yn zn buffer msg key r Hmem Hs3 Hnot Hsettles Hout Hsave.
    subst r.
    enter_getTile. fold key. rewrite Hmem, Hs3. simpl.
    destruct (s3_getTile env zn xn yn) as [data| |msg'|] eqn:Hread;
      [now elim (Hnot data) | | | now elim Hsettles]; simpl;
      match goal with
      | |- context [from_source env key xn yn zn ?w] =>
          destruct (@OrchestratorFacts.from_source_failed_write
                      env key xn yn zn w buffer msg Hs3 Hout Hsave)
            as (before & after & Etr);
          destruct (OrchestratorFacts.from_source_outcome
                      env key xn yn zn w) as (tr & E & _);
          rewrite E in Etr |- *; simpl in Etr
      end;
      destruct (@OrchestratorFacts.in_consecutive _ _ _ _ _ _ _ Etr)
        as (HM & HS & HW);
      rewrite Hout; simpl; simpl in HM, HS, HW;
      (split; [reflexivity | tauto]).
Qed.

Lemma durable_failures_never_propagate_witness :
  let r := call env_with_failing_s3 (LRUCache.new 200)
             (JsNumber (Int 100)) (JsNumber (Int 200)) (JsNumber (Int 10)) in
  fst r = Return [x89; x50]
  /\ In (Log Warn "Failed to load from S3 cache") (trace (snd r))
  /\ In (Log Warn "Failed to save to S3 cache") (trace (snd r)).
Proof.
  destruct (durable_failures_never_propagate env_with_failing_s3
              (LRUCache.new 200)) as (_ & Hread & Hwrite).
  destruct (Hread (Int 100) (Int 200) (Int 10) "read timed out"
              eq_refl eq_refl eq_refl) as (_ & Hlog & _).
  destruct (Hwrite (Int 100) (Int 200) (Int 10) [x89; x50] "write refused"
              eq_refl eq_refl ltac:(discriminate) ltac:(discriminate)
              eq_refl eq_refl)
    as (Hres & _ & _ & Hlog').
  simpl. repeat split; assumption.
Defined.

End TierClaims.

(** ** Arrays and the loop of [forEachPoint] *)

Module JsFacts.
Import Js.
Local Open Scope list_scope.

Lemma aget_aset (a : array) : forall (i j : nat) (v : num),
  aget (aset a i v) j = if Nat.eqb i j then v else aget a j.
Proof.
  unfold aget. induction a as [|x a IH]; intros i.
  - induction i as [|i IHi]; intros [|j] v; simpl; try reflexivity.
    + now destruct j.
    + rewrite IHi. destruct (Nat.eqb i j); [reflexivity | now destruct j].
  - intros [|j] v; destruct i as [|i]; simpl; try reflexivity. apply IH.
Qed.

Lemma aget_aset_other (a : array) (i j : nat) (v : num) :
  i <> j -> aget (aset a i v) j = aget a j.
Proof.
  intros Hne. rewrite aget_aset.
  destruct (Nat.eqb_spec i j); [contradiction | reflexivity].
Qed.

(** The loop ends when the dimension is positive, and a slot that is not
    among the first two of a tuple keeps what the output started with. *)
Lemma for_offsets_frame (func : PointTransform) (len dimension : nat)
    (input : array) :
  writes_own_slots func ->
  (2 < dimension)%nat ->
  forall (fuel offset : nat) (output : array),
    (len <= offset + fuel)%nat ->
    (offset mod dimension = 0)%nat ->
    exists result,
      for_offsets fuel func false len dimension offset input output
      = Some result
      /\ forall i, (2 <= i mod dimension)%nat ->
                   aget result i = aget output i.
Proof.
  intros Hfunc Hdim. induction fuel as [|fuel IH]; intros offset output Hfuel Hmod.
  - simpl. destruct (Nat.ltb_spec offset len); [lia|]. now exists output.
  - simpl. destruct (Nat.ltb_spec offset len); [|now exists output].
    destruct (IH (offset + dimension)%nat (func input output offset))
      as (result & Hrun & Hframe).
    + lia.
    + rewrite Nat.Div0.add_mod by lia.
      rewrite Hmod, Nat.Div0.mod_same by lia. now rewrite Nat.Div0.mod_0_l.
    + exists result. split; [exact Hrun|].
      intros i Hi. rewrite (Hframe i Hi). apply Hfunc.
      * intros ->. lia.
      * intros ->. rewrite Nat.Div0.add_mod in Hi by lia.
        rewrite Hmod in Hi. rewrite (Nat.mod_small 1) in Hi by lia.
        simpl in Hi. rewrite (Nat.mod_small 1) in Hi by lia. lia.
Qed.

(** Without an output argument and with a dimension above 2, the loop
    starts from a copy of the input. *)
Lemma run_points_frame (func : PointTransform) (dimension : nat)
    (input : array) :
  writes_own_slots func ->
  (2 < dimension)%nat ->
  exists result,
    run_points func dimension input Omitted = Some result
    /\ forall i, (2 <= i mod dimension)%nat ->
                 aget result i = aget input i.
Proof.
  intros Hfunc Hdim. unfold run_points.
  destruct (Nat.eqb_spec dimension 2); [lia|].
  apply for_offsets_frame; try assumption; [lia|].
  now rewrite Nat.Div0.mod_0_l.
Qed.

(** The loop ends whenever the dimension is positive. *)
Lemma for_offsets_total (func : PointTransform) (in_place : bool)
    (len dimension : nat) :
  (0 < dimension)%nat ->
  forall (fuel offset : nat) (input output : array),
    (len <= offset + fuel)%nat ->
    exists result,
      for_offsets fuel func in_place len dimension offset input output
      = Some result.
Proof.
  intros Hdim. induction fuel as [|fuel IH]; intros offset input output Hfuel;
    simpl; destruct (Nat.ltb_spec offset len); eauto; try lia.
  apply IH. lia.
Qed.

Lemma run_points_total (func : PointTransform) (dimension : nat)
    (input : array) (opt_output : output_arg) :
  (0 < dimension)%nat ->
  exists result, run_points func dimension input opt_output = Some result.
Proof.
  intros Hdim. unfold run_points. apply for_offsets_total; [exact Hdim | lia].
Qed.

(** With dimension 0 the offset never advances: on an array that is not
    empty the loop does not end, whatever the fuel. *)
Lemma for_offsets_stuck (func : PointTransform) (in_place : bool)
    (len : nat) :
  (0 < len)%nat ->
  forall (fuel : nat) (input output : array),
    for_offsets fuel func in_place len 0 0 input output = None.
Proof.
  intros Hlen. induction fuel as [|fuel IH]; intros input output; simpl;
    destruct (Nat.ltb_spec 0 len); try lia; [reflexivity | apply IH].
Qed.

(** The first definition of [forEachPoint] always returns: its dimension
    is never 0. *)
Lemma forEachPoint_returns (func : PointTransform) (input : array)
    (opt_output : output_arg) (opt_dimension : option nat) :
  exists result,
    V1.forEachPoint func input opt_output opt_dimension = Some result.
Proof.
  unfold V1.forEachPoint. apply run_points_total.
  destruct opt_dimension as [[|d]|]; lia.
Qed.

(** The second definition keeps a dimension of 0, with which it does not
    return on an array that is not empty; with any other dimension, or
    none, it returns. *)
Lemma forEachPoint2_returns (func : PointTransform) (input : array)
    (opt_output : output_arg) (opt_dimension : option nat) :
  opt_dimension <> Some 0%nat ->
  exists result,
    V2.forEachPoint func input opt_output opt_dimension = Some result.
Proof.
  intros Hd. unfold V2.forEachPoint. apply run_points_total.
  destruct opt_dimension as [[|d]|]; [congruence | lia | lia].
Qed.

Lemma forEachPoint2_zero_dimension (func : PointTransform) (input : array)
    (opt_output : output_arg) :
  input <> [] ->
  V2.forEachPoint func input opt_output (Some 0%nat) = None.
Proof.
  intros Hne. unfold V2.forEachPoint, run_points.
  apply for_offsets_stuck. destruct input; [contradiction | simpl; lia].
Qed.

End JsFacts.

Section PayloadClaims.
Import Js.
Local Open Scope list_scope.

Ltac two_writes :=
  intros input output offset i H0 H1;
  repeat match goal with
    | |- context [if ?b then _ else _] => destruct b
    end;
  cbv zeta;
  rewrite !JsFacts.aget_aset_other by (intro; subst; auto);
  reflexivity.

Lemma toWGS84_point_writes_own_slots :
  Js.writes_own_slots V1.gcj02.toWGS84_point.
Proof. unfold V1.gcj02.toWGS84_point. two_writes. Qed.

Lemma fromWGS84_point_writes_own_slots :
  Js.writes_own_slots V1.gcj02.fromWGS84_point.
Proof. unfold V1.gcj02.fromWGS84_point. two_writes. Qed.

Lemma forward_point_writes_own_slots :
  Js.writes_own_slots V1.sphericalMercator.forward_point.
Proof. unfold V1.sphericalMercator.forward_point. two_writes. Qed.

Lemma inverse_point_writes_own_slots :
  Js.writes_own_slots V1.sphericalMercator.inverse_point.
Proof. unfold V1.sphericalMercator.inverse_point. two_writes. Qed.

Lemma toWGS84_point2_writes_own_slots :
  Js.writes_own_slots V2.gcj02.toWGS84_point.
Proof. unfold V2.gcj02.toWGS84_point. two_writes. Qed.

Lemma fromWGS84_point2_writes_own_slots :
  Js.writes_own_slots V2.gcj02.fromWGS84_point.
Proof. unfold V2.gcj02.fromWGS84_point. two_writes. Qed.

Lemma forward_point2_writes_own_slots :
  Js.writes_own_slots V2.sphericalMercator.forward_point.
Proof. unfold V2.sphericalMercator.forward_point. two_writes. Qed.

Lemma inverse_point2_writes_own_slots :
  Js.writes_own_slots V2.sphericalMercator.inverse_point.
Proof. unfold V2.sphericalMercator.inverse_point. two_writes. Qed.

(** C9.  For every transform built by [forEachPoint], every input array
    and every dimension [d > 2], a call without an output argument
    returns an array in which every slot at a position 2..d-1 of its
    tuple holds what the input holds there: the result starts as a copy
    of the input and only the first two slots of each point are written. *)
Theorem forEachPoint_preserves_payload
    (transform : array -> output_arg -> option nat -> option array)
    (input : array) (d : nat) :
  In transform built_transforms ->
  (2 < d)%nat ->
  exists result,
    transform input Omitted (Some d) = Some result
    /\ forall i, (2 <= i mod d)%nat -> aget result i = aget input i.
Proof.
  intros Hin Hd.
  assert (Hd' : exists d', d = S d') by (destruct d; [lia | eauto]).
  destruct Hd' as [d' ->].
  unfold built_transforms in Hin. simpl in Hin.
  destruct Hin as [<-|[<-|[<-|[<-|[<-|[<-|[<-|[<-|[]]]]]]]]];
    apply JsFacts.run_points_frame; try exact Hd.
  - apply toWGS84_point_writes_own_slots.
  - apply fromWGS84_point_writes_own_slots.
  - apply forward_point_writes_own_slots.
  - apply inverse_point_writes_own_slots.
  - apply toWGS84_point2_writes_own_slots.
  - apply fromWGS84_point2_writes_own_slots.
  - apply forward_point2_writes_own_slots.
  - apply inverse_point2_writes_own_slots.
Qed.

Lemma forEachPoint_preserves_payload_witness :
  let input := [Num 116.4; Num 39.9; Num 7; Num (-74.0); Num 40.7; Num 9] in
  exists result,
    V1.gcj02.fromWGS84 input Omitted (Some 3%nat) = Some result
    /\ forall i, (2 <= i mod 3)%nat -> aget result i = aget input i.
Proof.
  apply (@forEachPoint_preserves_payload V1.gcj02.fromWGS84
           [Num 116.4; Num 39.9; Num 7; Num (-74.0); Num 40.7; Num 9]
           3%nat).
  - simpl. right. left. reflexivity.
  - lia.
Defined.

End PayloadClaims.

(** ** The GCJ-02 offset over the reals *)

Module Gcj02Facts.
Import Js Gcj02Real.
Local Open Scope R_scope.

Lemma div_Num (a b : R) : b <> 0 -> div (Num a) (Num b) = Num (a / b).
Proof.
  intros Hb. unfold div, lift2. destruct (Req_dec_T b 0); [contradiction|].
  reflexivity.
Qed.

Lemma sqrt_Num (a : R) : 0 <= a -> Math_sqrt (Num a) = Num (sqrt a).
Proof.
  intros Ha. unfold Math_sqrt, lift1. destruct (Rlt_dec a 0); [lra|].
  reflexivity.
Qed.

Lemma lt_Num (a b : R) : lt (Num a) (Num b) = true <-> a < b.
Proof.
  unfold lt. destruct (Rlt_dec a b); split; intros; try assumption;
    try reflexivity; try discriminate; contradiction.
Qed.

(** Evaluates the arithmetic of gcj02.ts on finite numbers. *)
Ltac js_eval :=
  repeat (cbn [add sub mul neg lift1 lift2 Math_sin Math_cos Math_abs
                 Math_PI fst snd];
          rewrite ?sqrt_Num by (apply Rabs_pos || lra);
          rewrite ?div_Num by lra).

Lemma transformLat_Num (x y : R) :
  V1.transformLat (Num x) (Num y) = Num (transformLatR x y).
Proof.
  unfold V1.transformLat, V1.GCJ02_CONSTANTS.PI. cbv zeta. js_eval.
  reflexivity.
Qed.

Lemma transformLon_Num (x y : R) :
  V1.transformLon (Num x) (Num y) = Num (transformLonR x y).
Proof.
  unfold V1.transformLon, V1.GCJ02_CONSTANTS.PI. cbv zeta. js_eval.
  reflexivity.
Qed.

(** The second definition repeats the first up to the sign with which
    the offset is applied. *)
Lemma transformLat_same (x y : num) :
  V2.transformLat x y = V1.transformLat x y.
Proof. reflexivity. Qed.

Lemma transformLon_same (x y : num) :
  V2.transformLon x y = V1.transformLon x y.
Proof. reflexivity. Qed.

Lemma delta_same (lon lat : num) : V2.delta lon lat = V1.delta lon lat.
Proof. reflexivity. Qed.

Lemma outOfChina_same (lon lat : num) :
  V2.outOfChina lon lat = V1.outOfChina lon lat.
Proof.
  unfold V2.outOfChina, V1.outOfChina.
  destruct (lt lon _), (gt lon _), (lt lat _), (gt lat _); reflexivity.
Qed.

Lemma outOfChina_Num (lon lat : R) :
  V1.outOfChina (Num lon) (Num lat) = true
  <-> lon < 72.004 \/ lon > 137.8347 \/ lat < 0.8293 \/ lat > 55.8271.
Proof.
  unfold V1.outOfChina, gt, lt.
  destruct (Rlt_dec lon 72.004), (Rlt_dec 137.8347 lon),
    (Rlt_dec lat 0.8293), (Rlt_dec 55.8271 lat); simpl;
    split; intros H; try reflexivity; try discriminate; try tauto; lra.
Qed.

Lemma outOfChina_Num_false (lon lat : R) :
  V1.outOfChina (Num lon) (Num lat) = false
  <-> 72.004 <= lon <= 137.8347 /\ 0.8293 <= lat <= 55.8271.
Proof.
  destruct (V1.outOfChina (Num lon) (Num lat)) eqn:E.
  - apply outOfChina_Num in E. split; [discriminate | lra].
  - split; [intros _ | reflexivity].
    assert (H : ~ (lon < 72.004 \/ lon > 137.8347
                   \/ lat < 0.8293 \/ lat > 55.8271)).
    { intros H. apply outOfChina_Num in H. congruence. }
    lra.
Qed.

Lemma sin_sqr_le_1 (a : R) : sin a * sin a <= 1.
Proof. pose proof (SIN_bound a). nra. Qed.

Lemma magicR_bounds (lat : R) : 1 - OFFSET <= magicR lat <= 1.
Proof.
  unfold magicR.
  pose proof (sin_sqr_le_1 (lat / 180.0 * PI)) as H1.
  assert (H0 : 0 <= sin (lat / 180.0 * PI) * sin (lat / 180.0 * PI))
    by nra.
  unfold OFFSET in *. nra.
Qed.

Lemma magicR_pos (lat : R) : 0 < magicR lat.
Proof. pose proof (magicR_bounds lat). unfold OFFSET in *. lra. Qed.

Lemma cos_radLat_pos (lat : R) :
  -90 < lat < 90 -> 0 < cos ((lat / 180.0) * PI).
Proof.
  intros Hlat. pose proof PI_RGT_0.
  apply cos_gt_0; nra.
Qed.

(** Inside the latitudes where [delta] is used no denominator is zero. *)
Lemma delta_Num (lon lat : R) :
  -90 < lat < 90 ->
  V1.delta (Num lon) (Num lat) = (Num (dLonR lon lat), Num (dLatR lon lat)).
Proof.
  intros Hlat.
  pose proof (magicR_pos lat) as Hm.
  pose proof (sqrt_lt_R0 _ Hm) as Hs.
  pose proof (cos_radLat_pos Hlat) as Hc.
  pose proof PI_RGT_0 as Hpi.
  assert (Hm0 : 0 <= magicR lat) by lra.
  assert (Hd1 : magicR lat * sqrt (magicR lat) <> 0) by nra.
  assert (Hq : 0 < AXIS * (1 - OFFSET) / (magicR lat * sqrt (magicR lat))).
  { apply Rdiv_lt_0_compat; [unfold AXIS, OFFSET; lra | nra]. }
  assert (Hd2 : AXIS * (1 - OFFSET) / (magicR lat * sqrt (magicR lat)) * PI
                <> 0) by nra.
  assert (Hd3 : sqrt (magicR lat) <> 0) by lra.
  assert (Hq' : 0 < AXIS / sqrt (magicR lat)).
  { apply Rdiv_lt_0_compat; [unfold AXIS; lra | exact Hs]. }
  assert (Hd4 : AXIS / sqrt (magicR lat) * cos (lat / 180.0 * PI) * PI <> 0).
  { apply Rgt_not_eq. apply Rmult_lt_0_compat; [|exact Hpi].
    apply Rmult_lt_0_compat; assumption. }
  unfold V1.delta, V1.GCJ02_CONSTANTS.PI, V1.GCJ02_CONSTANTS.AXIS,
    V1.GCJ02_CONSTANTS.OFFSET. cbv zeta.
  cbn [sub lift2]. rewrite transformLat_Num, transformLon_Num.
  unfold dLonR, dLatR, latDenominator, lonDenominator, magicR, AXIS,
    OFFSET in *.
  repeat (cbn [add sub mul neg lift1 lift2 Math_sin Math_cos Math_abs
                 Math_PI fst snd];
          rewrite ?sqrt_Num by assumption;
          rewrite ?div_Num by (assumption || lra)).
  reflexivity.
Qed.

End Gcj02Facts.

Section Gcj02Claims.
Import Js.
Local Open Scope R_scope.
Local Open Scope list_scope.

(** Where [outOfChina] holds both point transforms of a definition copy
    the point. *)
Lemma outside_point_copied (input output : array) (offset : nat) :
  V1.outOfChina (aget input offset) (aget input (offset + 1)) = true ->
  let copied := aset (aset output offset (aget input offset))
                     (offset + 1) (aget input (offset + 1)) in
  V1.gcj02.toWGS84_point input output offset = copied
  /\ V1.gcj02.fromWGS84_point input output offset = copied
  /\ V2.gcj02.toWGS84_point input output offset = copied
  /\ V2.gcj02.fromWGS84_point input output offset = copied.
Proof.
  intros Hout copied.
  unfold V1.gcj02.toWGS84_point, V1.gcj02.fromWGS84_point,
    V2.gcj02.toWGS84_point, V2.gcj02.fromWGS84_point.
  rewrite Gcj02Facts.outOfChina_same, Hout. simpl. now repeat split.
Qed.

Lemma outside_point_unchanged (lon lat : R) :
  lon < 72.004 \/ lon > 137.8347 \/ lat < 0.8293 \/ lat > 55.8271 ->
  let p := [Num lon; Num lat] in
  V1.gcj02.toWGS84 p Omitted None = Some p
  /\ V1.gcj02.fromWGS84 p Omitted None = Some p
  /\ V2.gcj02.toWGS84 p Omitted None = Some p
  /\ V2.gcj02.fromWGS84 p Omitted None = Some p.
Proof.
  intros Hout p. apply Gcj02Facts.outOfChina_Num in Hout.
  destruct (@outside_point_copied p (Array_from_length 2) 0 Hout)
    as (H1 & H2 & H3 & H4).
  unfold V1.gcj02.toWGS84, V1.gcj02.fromWGS84, V2.gcj02.toWGS84,
    V2.gcj02.fromWGS84, V1.forEachPoint, V2.forEachPoint, run_points.
  cbn [List.length Nat.eqb for_offsets Nat.ltb Nat.leb p].
  rewrite H1, H2, H3, H4. repeat split.
Qed.

(** C8.  For a point outside the China region, that is with
    [lon < 72.004] or [lon > 137.8347] or [lat < 0.8293] or
    [lat > 55.8271], [toWGS84] and [fromWGS84] (of either definition)
    return the point unchanged. *)
Theorem outside_china_unchanged (lon lat : R) :
  lon < 72.004 \/ lon > 137.8347 \/ lat < 0.8293 \/ lat > 55.8271 ->
  let p := [Num lon; Num lat] in
  V1.gcj02.toWGS84 p Omitted None = Some p
  /\ V1.gcj02.fromWGS84 p Omitted None = Some p
  /\ V2.gcj02.toWGS84 p Omitted None = Some p
  /\ V2.gcj02.fromWGS84 p Omitted None = Some p.
Proof. exact (@outside_point_unchanged lon lat). Qed.

Lemma outside_china_unchanged_witness :
  let p := [Num (-74.0); Num 40.7] in
  V1.gcj02.toWGS84 p Omitted None = Some p
  /\ V1.gcj02.fromWGS84 p Omitted None = Some p
  /\ V2.gcj02.toWGS84 p Omitted None = Some p
  /\ V2.gcj02.fromWGS84 p Omitted None = Some p.
Proof.
  apply (@outside_china_unchanged (-74.0) 40.7). left. lra.
Defined.

(** On a point of the region each transform shifts by the offset: the
    first definition subtracts it in [toWGS84] and adds it in [fromWGS84],
    the second definition does the opposite. *)
Lemma inside_point_shifted (lon lat : R) :
  72.004 <= lon <= 137.8347 -> 0.8293 <= lat <= 55.8271 ->
  let p := [Num lon; Num lat] in
  let dLon := Gcj02Real.dLonR lon lat in
  let dLat := Gcj02Real.dLatR lon lat in
  V1.gcj02.toWGS84 p Omitted None = Some [Num (lon - dLon); Num (lat - dLat)]
  /\ V1.gcj02.fromWGS84 p Omitted None
     = Some [Num (lon + dLon); Num (lat + dLat)]
  /\ V2.gcj02.toWGS84 p Omitted None
     = Some [Num (lon + dLon); Num (lat + dLat)]
  /\ V2.gcj02.fromWGS84 p Omitted None
     = Some [Num (lon - dLon); Num (lat - dLat)].
Proof.
  intros Hlon Hlat p dLon dLat.
  assert (Hin : V1.outOfChina (Num lon) (Num lat) = false)
    by (apply Gcj02Facts.outOfChina_Num_false; split; assumption).
  assert (Hd : V1.delta (Num lon) (Num lat) = (Num dLon, Num dLat))
    by (apply Gcj02Facts.delta_Num; lra).
  unfold V1.gcj02.toWGS84, V1.gcj02.fromWGS84, V2.gcj02.toWGS84,
    V2.gcj02.fromWGS84, V1.forEachPoint, V2.forEachPoint, run_points,
    V1.gcj02.toWGS84_point, V1.gcj02.fromWGS84_point,
    V2.gcj02.toWGS84_point, V2.gcj02.fromWGS84_point.
  cbn [List.length Nat.eqb for_offsets Nat.ltb Nat.leb p aget nth Nat.add].
  change V2.delta with V1.delta.
  rewrite Gcj02Facts.outOfChina_same, Hin, Hd.
  repeat split.
Qed.

Lemma dLonR_anchor_pos : 0 < Gcj02Real.dLonR 105 35.
Proof.
  unfold Gcj02Real.dLonR, Gcj02Real.lonDenominator.
  assert (Ht : Gcj02Real.transformLonR (105 - 105.0) (35 - 35.0) = 300).
  { replace (105 - 105.0) with 0 by lra. replace (35 - 35.0) with 0 by lra.
    unfold Gcj02Real.transformLonR.
    replace (6.0 * 0 * PI) with 0 by lra.
    replace (2.0 * 0 * PI) with 0 by lra.
    replace (0 * PI) with 0 by lra.
    replace (0 / 3.0 * PI) with 0 by lra.
    replace (0 / 12.0 * PI) with 0 by lra.
    replace (0 / 30.0 * PI) with 0 by lra.
    rewrite sin_0, Rabs_R0, sqrt_0. lra. }
  rewrite Ht.
  pose proof (Gcj02Facts.magicR_pos 35) as Hm.
  pose proof (sqrt_lt_R0 _ Hm) as Hs.
  assert (Hc : 0 < cos (35 / 180.0 * PI))
    by (apply Gcj02Facts.cos_radLat_pos; lra).
  pose proof PI_RGT_0 as Hpi.
  apply Rdiv_lt_0_compat; [lra|].
  apply Rmult_lt_0_compat; [|exact Hpi].
  apply Rmult_lt_0_compat; [|exact Hc].
  apply Rdiv_lt_0_compat; [unfold Gcj02Real.AXIS; lra | exact Hs].
Qed.

(** C2 fails on the code.  At the anchor point (105, 35), which lies in
    the region, the first definition of [toWGS84] subtracts the offset and
    the second adds it, and the offset in longitude is positive there:
    the two definitions of [toWGS84] return different points, and so do
    the two definitions of [fromWGS84]. *)
Theorem gcj02_definitions_apply_opposite_signs :
  let p := [Num 105; Num 35] in
  let dLon := Gcj02Real.dLonR 105 35 in
  let dLat := Gcj02Real.dLatR 105 35 in
  V1.gcj02.toWGS84 p Omitted None = Some [Num (105 - dLon); Num (35 - dLat)]
  /\ V2.gcj02.toWGS84 p Omitted None
     = Some [Num (105 + dLon); Num (35 + dLat)]
  /\ V1.gcj02.fromWGS84 p Omitted None
     = Some [Num (105 + dLon); Num (35 + dLat)]
  /\ V2.gcj02.fromWGS84 p Omitted None
     = Some [Num (105 - dLon); Num (35 - dLat)]
  /\ 0 < dLon
  /\ V1.gcj02.toWGS84 p Omitted None <> V2.gcj02.toWGS84 p Omitted None
  /\ V1.gcj02.fromWGS84 p Omitted None <> V2.gcj02.fromWGS84 p Omitted None.
Proof.
  intros p dLon dLat.
  destruct (@inside_point_shifted 105 35) as (H1 & H2 & H3 & H4);
    [lra | lra |].
  fold p dLon dLat in H1, H2, H3, H4.
  pose proof dLonR_anchor_pos as Hpos. fold dLon in Hpos.
  repeat split; try assumption.
  - rewrite H1, H3. intros [= E _]. lra.
  - rewrite H2, H4. intros [= E _]. lra.
Qed.

(** The second definition is the first with the two directions swapped. *)
Lemma second_definition_swaps_directions
    (input output : array) (offset : nat) :
  V2.gcj02.toWGS84_point input output offset
  = V1.gcj02.fromWGS84_point input output offset
  /\ V2.gcj02.fromWGS84_point input output offset
     = V1.gcj02.toWGS84_point input output offset.
Proof.
  unfold V2.gcj02.toWGS84_point, V2.gcj02.fromWGS84_point,
    V1.gcj02.toWGS84_point, V1.gcj02.fromWGS84_point.
  rewrite Gcj02Facts.outOfChina_same. split; reflexivity.
Qed.

End Gcj02Claims.

(** ** Bounds on the offset inside the region *)

Module OffsetBounds.
Import Gcj02Real Gcj02Facts.
Local Open Scope R_scope.

(** *** Arithmetic *)

Lemma Rabs_le_inv (a b : R) : Rabs a <= b -> - b <= a <= b.
Proof. unfold Rabs. destruct (Rcase_abs a); lra. Qed.

Lemma mul_bound (u v U V : R) :
  - U <= u <= U -> - V <= v <= V -> - (U * V) <= u * v <= U * V.
Proof.
  intros Hu Hv. apply Rabs_le_inv. rewrite Rabs_mult.
  apply Rmult_le_compat; try apply Rabs_pos; now apply Rabs_le.
Qed.

(** A product moves by at most [A * hb + B * ha] when its factors, bounded
    by [A] and [B], move by at most [ha] and [hb]. *)
Lemma product_close (a1 b1 a2 b2 A B ha hb : R) :
  - A <= a1 <= A -> - B <= b2 <= B ->
  - ha <= a1 - a2 <= ha -> - hb <= b1 - b2 <= hb ->
  - (A * hb + B * ha) <= a1 * b1 - a2 * b2 <= A * hb + B * ha.
Proof.
  intros Ha Hb Hda Hdb.
  replace (a1 * b1 - a2 * b2) with (a1 * (b1 - b2) + (a1 - a2) * b2) by ring.
  pose proof (mul_bound Ha Hdb). pose proof (mul_bound Hda Hb). lra.
Qed.

Lemma mul_lower (a b u v : R) :
  0 <= a <= u -> 0 <= b <= v -> a * b <= u * v.
Proof. intros Ha Hb. apply Rmult_le_compat; lra. Qed.

(** A quotient is bounded when its numerator is, against a positive
    denominator. *)
Lemma quotient_lower (n d b : R) : 0 < d -> b * d <= n -> b <= n / d.
Proof.
  intros Hd Hn.
  assert (E : n / d * d = n) by (field; lra).
  apply Rmult_le_reg_r with d; [exact Hd|]. rewrite E. exact Hn.
Qed.

Lemma quotient_upper (n d b : R) : 0 < d -> n <= b * d -> n / d <= b.
Proof.
  intros Hd Hn.
  assert (E : n / d * d = n) by (field; lra).
  apply Rmult_le_reg_r with d; [exact Hd|]. rewrite E. exact Hn.
Qed.

Lemma quotient_bound (n d b : R) :
  0 < d -> - (b * d) <= n <= b * d -> - b <= n / d <= b.
Proof.
  intros Hd Hn. split.
  - apply quotient_lower; [exact Hd | lra].
  - apply quotient_upper; [exact Hd | lra].
Qed.

(** Two quotients are close when their numerators and their denominators
    are, the denominators being at least [dmin]. *)
Lemma quotient_close (n1 n2 d1 d2 dmin a nb b : R) :
  0 < dmin -> dmin <= d1 -> dmin <= d2 ->
  - a <= n1 - n2 <= a -> - nb <= n2 <= nb -> - b <= d1 - d2 <= b ->
  - (a / dmin + nb * b / (dmin * dmin)) <= n1 / d1 - n2 / d2
  <= a / dmin + nb * b / (dmin * dmin).
Proof.
  intros Hmin Hd1 Hd2 Hn Hn2 Hd.
  set (i1 := / d1). set (i2 := / d2). set (im := / dmin).
  assert (Him : 0 < im) by (apply Rinv_0_lt_compat; lra).
  assert (Hi1 : 0 < i1 <= im).
  { split; [apply Rinv_0_lt_compat; lra | apply Rinv_le_contravar; lra]. }
  assert (Hi2 : 0 < i2 <= im).
  { split; [apply Rinv_0_lt_compat; lra | apply Rinv_le_contravar; lra]. }
  assert (E : n1 / d1 - n2 / d2
              = (n1 - n2) * i1 + n2 * ((d2 - d1) * (i1 * i2))).
  { unfold i1, i2. field. lra. }
  assert (Eb : a / dmin + nb * b / (dmin * dmin)
               = a * im + nb * (b * (im * im))).
  { unfold im. field. lra. }
  rewrite E, Eb.
  assert (Hii : - (im * im) <= i1 * i2 <= im * im).
  { apply mul_bound; lra. }
  assert (H1 : - (a * im) <= (n1 - n2) * i1 <= a * im).
  { apply mul_bound; lra. }
  assert (H2 : - (b * (im * im)) <= (d2 - d1) * (i1 * i2) <= b * (im * im)).
  { apply mul_bound; lra. }
  assert (H3 : - (nb * (b * (im * im)))
               <= n2 * ((d2 - d1) * (i1 * i2)) <= nb * (b * (im * im))).
  { apply mul_bound; lra. }
  lra.
Qed.

(** *** Pi, sine, cosine and square root *)

Lemma PI_upper : PI <= 3.2324.
Proof.
  destruct (PI_ineq 5) as [_ H].
  unfold tg_alt, PI_tg in H. simpl in H. lra.
Qed.

Lemma PI_lower : 3 < PI.
Proof. pose proof PI2_3_2. lra. Qed.

Lemma cos_lower (a : R) :
  0 <= a <= 2 ->
  1 - a * a / 2 + a * a * a * a / 24 - a * a * a * a * a * a / 720 <= cos a.
Proof.
  intros Ha. destruct (pre_cos_bound a 1) as [H _]; try lra.
  unfold cos_approx, cos_term in H. simpl in H. lra.
Qed.

Lemma sin_lipschitz (a b : R) : Rabs (sin b - sin a) <= Rabs (b - a).
Proof.
  destruct (MVT_abs sin cos a b) as (c & Hc & _).
  - intros c _. apply derivable_pt_lim_sin.
  - rewrite Hc. pose proof (COS_bound c).
    rewrite <- (Rmult_1_l (Rabs (b - a))) at 2.
    apply Rmult_le_compat_r; [apply Rabs_pos | apply Rabs_le; lra].
Qed.

Lemma cos_lipschitz (a b : R) : Rabs (cos b - cos a) <= Rabs (b - a).
Proof.
  destruct (MVT_abs cos (fun x => - sin x) a b) as (c & Hc & _).
  - intros c _. apply derivable_pt_lim_cos.
  - rewrite Hc. pose proof (SIN_bound c).
    rewrite <- (Rmult_1_l (Rabs (b - a))) at 2.
    apply Rmult_le_compat_r; [apply Rabs_pos | apply Rabs_le; lra].
Qed.

Lemma sin_close (a b e : R) :
  - e <= b - a <= e -> - e <= sin b - sin a <= e.
Proof.
  intros H. apply Rabs_le_inv.
  apply Rle_trans with (Rabs (b - a));
    [apply sin_lipschitz | now apply Rabs_le].
Qed.

Lemma cos_close (a b e : R) :
  - e <= b - a <= e -> - e <= cos b - cos a <= e.
Proof.
  intros H. apply Rabs_le_inv.
  apply Rle_trans with (Rabs (b - a));
    [apply cos_lipschitz | now apply Rabs_le].
Qed.

Lemma sqrt_Rabs_bound (x : R) : -36 <= x <= 36 -> 0 <= sqrt (Rabs x) <= 6.
Proof.
  intros Hx. split; [apply sqrt_pos|].
  replace 6 with (sqrt (6 * 6)) by (rewrite sqrt_square; lra).
  apply sqrt_le_1_alt. unfold Rabs. destruct (Rcase_abs x); lra.
Qed.

(** The square root is Hoelder continuous of exponent one half. *)
Lemma sqrt_holder (u v : R) :
  0 <= u -> 0 <= v -> Rabs (sqrt u - sqrt v) <= sqrt (Rabs (u - v)).
Proof.
  assert (H : forall a b, 0 <= b <= a -> sqrt a - sqrt b <= sqrt (a - b)).
  { intros a b [Hb Ha].
    pose proof (sqrt_pos a) as Hsa. pose proof (sqrt_pos b) as Hsb.
    assert (Hle : sqrt b <= sqrt a) by (now apply sqrt_le_1_alt).
    pose proof (sqrt_sqrt a ltac:(lra)) as Ea.
    pose proof (sqrt_sqrt b Hb) as Eb.
    rewrite <- (sqrt_square (sqrt a - sqrt b)) by lra.
    apply sqrt_le_1_alt.
    assert (Hbb : sqrt b * sqrt b <= sqrt a * sqrt b)
      by (apply Rmult_le_compat_r; lra).
    replace ((sqrt a - sqrt b) * (sqrt a - sqrt b))
      with (sqrt a * sqrt a + sqrt b * sqrt b - 2 * (sqrt a * sqrt b))
      by ring.
    lra. }
  intros Hu Hv. destruct (Rle_dec v u) as [Hvu|Hvu].
  - rewrite !Rabs_pos_eq; [apply H; lra | lra |].
    pose proof (sqrt_le_1_alt _ _ Hvu). lra.
  - assert (Huv : u <= v) by lra.
    rewrite (Rabs_left1 (sqrt u - sqrt v)).
    + rewrite (Rabs_left1 (u - v)) by lra.
      replace (- (u - v)) with (v - u) by lra.
      pose proof (H v u ltac:(lra)). lra.
    + pose proof (sqrt_le_1_alt _ _ Huv). lra.
Qed.

(** [sqrt |x|] moves by at most [r] when [x] moves by at most [r * r]. *)
Lemma sqrt_Rabs_close (x1 x2 h r : R) :
  - h <= x1 - x2 <= h -> h <= r * r -> 0 <= r ->
  - r <= sqrt (Rabs x1) - sqrt (Rabs x2) <= r.
Proof.
  intros Hx Hr Hr0. apply Rabs_le_inv.
  apply Rle_trans with (sqrt (Rabs (Rabs x1 - Rabs x2))).
  - apply sqrt_holder; apply Rabs_pos.
  - rewrite <- (sqrt_square r) by exact Hr0.
    apply sqrt_le_1_alt.
    apply Rle_trans with (Rabs (x1 - x2)); [apply Rabs_triang_inv2|].
    apply Rle_trans with h; [now apply Rabs_le | exact Hr].
Qed.

(** *** The size of the offset *)

Lemma transformLatR_bound (x y : R) :
  -33 <= x <= 33 -> -34.2 <= y <= 34.2 ->
  -1004 <= transformLatR x y <= 1004.
Proof.
  intros Hx Hy. unfold transformLatR.
  pose proof (SIN_bound (6.0 * x * PI)).
  pose proof (SIN_bound (2.0 * x * PI)).
  pose proof (SIN_bound (y * PI)).
  pose proof (SIN_bound (y / 3.0 * PI)).
  pose proof (SIN_bound (y / 12.0 * PI)).
  pose proof (SIN_bound (y * PI / 30.0)).
  assert (Hs : 0 <= sqrt (Rabs x) <= 6) by (apply sqrt_Rabs_bound; lra).
  pose proof (@mul_bound x y 33 34.2 ltac:(lra) ltac:(lra)) as Hxy.
  pose proof (@mul_bound y y 34.2 34.2 ltac:(lra) ltac:(lra)) as Hyy.
  lra.
Qed.

Lemma transformLonR_bound (x y : R) :
  -33 <= x <= 33 -> -34.2 <= y <= 34.2 ->
  -992 <= transformLonR x y <= 992.
Proof.
  intros Hx Hy. unfold transformLonR.
  pose proof (SIN_bound (6.0 * x * PI)).
  pose proof (SIN_bound (2.0 * x * PI)).
  pose proof (SIN_bound (x * PI)).
  pose proof (SIN_bound (x / 3.0 * PI)).
  pose proof (SIN_bound (x / 12.0 * PI)).
  pose proof (SIN_bound (x / 30.0 * PI)).
  assert (Hs : 0 <= sqrt (Rabs x) <= 6) by (apply sqrt_Rabs_bound; lra).
  pose proof (@mul_bound x y 33 34.2 ltac:(lra) ltac:(lra)) as Hxy.
  pose proof (@mul_bound x x 33 33 ltac:(lra) ltac:(lra)) as Hxx.
  lra.
Qed.

Lemma sqrt_magicR_bounds (lat : R) : 0.99 <= sqrt (magicR lat) <= 1.
Proof.
  pose proof (magicR_bounds lat) as [Hlo Hhi]. unfold OFFSET in Hlo. split.
  - replace 0.99 with (sqrt (0.99 * 0.99)) by (rewrite sqrt_square; lra).
    apply sqrt_le_1_alt. lra.
  - rewrite <- sqrt_1. now apply sqrt_le_1_alt.
Qed.

(** In the region the latitude in radians stays below 1.0026, where the
    cosine is at least 0.538. *)
Lemma radLat_bounds (lat : R) :
  0.8293 <= lat <= 55.8271 -> 0 <= lat / 180.0 * PI <= 1.0026.
Proof.
  intros Hlat. pose proof PI_upper. pose proof PI_lower. split.
  - apply Rmult_le_pos; lra.
  - pose proof (@mul_lower (lat / 180.0) PI (55.8271 / 180.0) 3.2324
                  ltac:(lra) ltac:(lra)).
    lra.
Qed.

Lemma cos_radLat_lower (lat : R) :
  0.8293 <= lat <= 55.8271 -> 0.538 <= cos (lat / 180.0 * PI) <= 1.
Proof.
  intros Hlat. pose proof PI_lower.
  pose proof (radLat_bounds Hlat) as Ha.
  split; [|apply COS_bound].
  apply Rle_trans with (cos 1.0026).
  - pose proof (@cos_lower 1.0026). lra.
  - apply cos_decr_1; lra.
Qed.

Lemma lonDenominator_lower (lat : R) :
  0.8293 <= lat <= 55.8271 -> 10294487 <= lonDenominator lat.
Proof.
  intros Hlat. unfold lonDenominator.
  pose proof (sqrt_magicR_bounds lat) as Hs.
  pose proof (cos_radLat_lower Hlat) as Hc.
  pose proof PI_lower as Hpi.
  set (s := sqrt (magicR lat)) in *.
  set (c := cos (lat / 180.0 * PI)) in *.
  unfold AXIS in *.
  set (A := 6378245.0 / s).
  assert (HA : 6378245 <= A) by (apply quotient_lower; lra).
  pose proof (@mul_lower 6378245 0.538 A c ltac:(lra) ltac:(lra)) as HAc.
  pose proof (@mul_lower (6378245 * 0.538) 3 (A * c) PI
                ltac:(lra) ltac:(lra)).
  lra.
Qed.

Lemma lonDenominator_upper (lat : R) :
  0.8293 <= lat <= 55.8271 -> 0 < lonDenominator lat <= 20825293.
Proof.
  intros Hlat.
  pose proof (lonDenominator_lower Hlat) as Hlo. split; [lra|].
  unfold lonDenominator in *.
  pose proof (sqrt_magicR_bounds lat) as Hs.
  pose proof (cos_radLat_lower Hlat) as Hc.
  pose proof PI_lower as Hpi. pose proof PI_upper as Hpi'.
  set (s := sqrt (magicR lat)) in *.
  set (c := cos (lat / 180.0 * PI)) in *.
  unfold AXIS in *.
  set (A := 6378245.0 / s) in *.
  assert (HA : 0 <= A <= 6442672).
  { split; [apply Rlt_le, Rdiv_lt_0_compat; lra | apply quotient_upper; lra]. }
  pose proof (@mul_lower A c 6442672 1 ltac:(lra) ltac:(lra)) as HAc.
  assert (HAc0 : 0 <= A * c) by (apply Rmult_le_pos; lra).
  pose proof (@mul_lower (A * c) PI (6442672 * 1) 3.2324
                ltac:(lra) ltac:(lra)).
  lra.
Qed.

Lemma magicR_times_sqrt (lat : R) :
  0.98 <= magicR lat * sqrt (magicR lat) <= 1.
Proof.
  pose proof (magicR_bounds lat) as HM. unfold OFFSET in HM.
  pose proof (sqrt_magicR_bounds lat) as Hs. split.
  - pose proof (@mul_lower 0.99 0.99 (magicR lat) (sqrt (magicR lat))
                  ltac:(lra) ltac:(lra)). lra.
  - pose proof (@mul_lower (magicR lat) (sqrt (magicR lat)) 1 1
                  ltac:(lra) ltac:(lra)). lra.
Qed.

Lemma latDenominator_lower (lat : R) : 19006656 <= latDenominator lat.
Proof.
  unfold latDenominator.
  pose proof (magicR_times_sqrt lat) as HG.
  pose proof PI_lower as Hpi.
  set (G := magicR lat * sqrt (magicR lat)) in *.
  unfold AXIS, OFFSET.
  set (Q := 6378245.0 * (1 - 0.00669342162296594323) / G).
  assert (HQ : 6335552 <= Q) by (apply quotient_lower; lra).
  pose proof (@mul_lower 6335552 3 Q PI ltac:(lra) ltac:(lra)). lra.
Qed.

Lemma dLatR_bound (lon lat : R) :
  72.004 <= lon <= 137.8347 -> 0.8293 <= lat <= 55.8271 ->
  -0.0096 <= dLatR lon lat <= 0.0096.
Proof.
  intros Hlon Hlat. unfold dLatR.
  pose proof (@transformLatR_bound (lon - 105.0) (lat - 35.0)
                ltac:(lra) ltac:(lra)) as HT.
  pose proof (latDenominator_lower lat) as HD.
  destruct (@quotient_bound
              (transformLatR (lon - 105.0) (lat - 35.0) * 180.0)
              (latDenominator lat) 0.0096); lra.
Qed.

Lemma dLonR_bound (lon lat : R) :
  72.004 <= lon <= 137.8347 -> 0.8293 <= lat <= 55.8271 ->
  -0.0175 <= dLonR lon lat <= 0.0175.
Proof.
  intros Hlon Hlat. unfold dLonR.
  pose proof (@transformLonR_bound (lon - 105.0) (lat - 35.0)
                ltac:(lra) ltac:(lra)) as HT.
  pose proof (lonDenominator_lower Hlat) as HD.
  destruct (@quotient_bound
              (transformLonR (lon - 105.0) (lat - 35.0) * 180.0)
              (lonDenominator lat) 0.0175); lra.
Qed.

(** Next to the west edge and low in latitude the offset in longitude is
    positive and not small: at (72.0041, 0.83) it is at least 0.0004
    degrees, more than the distance of the point from the edge. *)
Lemma dLonR_near_west_edge : 0.0004 <= dLonR 72.0041 0.83.
Proof.
  unfold dLonR.
  assert (HT : 53 <= transformLonR (72.0041 - 105.0) (0.83 - 35.0)).
  { unfold transformLonR.
    pose proof (SIN_bound (6.0 * (72.0041 - 105.0) * PI)).
    pose proof (SIN_bound (2.0 * (72.0041 - 105.0) * PI)).
    pose proof (SIN_bound ((72.0041 - 105.0) * PI)).
    pose proof (SIN_bound ((72.0041 - 105.0) / 3.0 * PI)).
    pose proof (SIN_bound ((72.0041 - 105.0) / 12.0 * PI)).
    pose proof (SIN_bound ((72.0041 - 105.0) / 30.0 * PI)).
    pose proof (sqrt_pos (Rabs (72.0041 - 105.0))).
    lra. }
  pose proof (@lonDenominator_upper 0.83 ltac:(lra)) as HD.
  apply quotient_lower; lra.
Qed.

(** *** How far the offset moves between two nearby points *)

Lemma transformLonR_close (x1 y1 x2 y2 : R) :
  -33 <= x1 <= 33 -> -34.2 <= y1 <= 34.2 ->
  -33 <= x2 <= 33 -> -34.2 <= y2 <= 34.2 ->
  -0.0175 <= x1 - x2 <= 0.0175 -> -0.0096 <= y1 - y2 <= 0.0096 ->
  -8.4 <= transformLonR x1 y1 - transformLonR x2 y2 <= 8.4.
Proof.
  intros Hx1 Hy1 Hx2 Hy2 Hx Hy. unfold transformLonR.
  pose proof PI_upper as Hpi. pose proof PI_lower as Hpi'.
  pose proof (@mul_bound (x1 - x2) PI 0.0175 3.2324 ltac:(lra) ltac:(lra))
    as Hu.
  pose proof (@sin_close (6.0 * x2 * PI) (6.0 * x1 * PI)
                (6 * (0.0175 * 3.2324)) ltac:(lra)) as S1.
  pose proof (@sin_close (2.0 * x2 * PI) (2.0 * x1 * PI)
                (2 * (0.0175 * 3.2324)) ltac:(lra)) as S2.
  pose proof (@sin_close (x2 * PI) (x1 * PI)
                (0.0175 * 3.2324) ltac:(lra)) as S3.
  pose proof (@sin_close (x2 / 3.0 * PI) (x1 / 3.0 * PI)
                (0.0175 * 3.2324 / 3) ltac:(lra)) as S4.
  pose proof (@sin_close (x2 / 12.0 * PI) (x1 / 12.0 * PI)
                (0.0175 * 3.2324 / 12) ltac:(lra)) as S5.
  pose proof (@sin_close (x2 / 30.0 * PI) (x1 / 30.0 * PI)
                (0.0175 * 3.2324 / 30) ltac:(lra)) as S6.
  pose proof (@sqrt_Rabs_close x1 x2 0.0175 0.1323
                ltac:(lra) ltac:(lra) ltac:(lra)) as Q.
  pose proof (@product_close x1 x1 x2 x2 33 33 0.0175 0.0175
                ltac:(lra) ltac:(lra) ltac:(lra) ltac:(lra)) as Pxx.
  pose proof (@product_close x1 y1 x2 y2 33 34.2 0.0175 0.0096
                ltac:(lra) ltac:(lra) ltac:(lra) ltac:(lra)) as Pxy.
  lra.
Qed.

Lemma transformLatR_close (x1 y1 x2 y2 : R) :
  -33 <= x1 <= 33 -> -34.2 <= y1 <= 34.2 ->
  -33 <= x2 <= 33 -> -34.2 <= y2 <= 34.2 ->
  -0.0175 <= x1 - x2 <= 0.0175 -> -0.0096 <= y1 - y2 <= 0.0096 ->
  -7.6 <= transformLatR x1 y1 - transformLatR x2 y2 <= 7.6.
Proof.
  intros Hx1 Hy1 Hx2 Hy2 Hx Hy. unfold transformLatR.
  pose proof PI_upper as Hpi. pose proof PI_lower as Hpi'.
  pose proof (@mul_bound (x1 - x2) PI 0.0175 3.2324 ltac:(lra) ltac:(lra))
    as Hu.
  pose proof (@mul_bound (y1 - y2) PI 0.0096 3.2324 ltac:(lra) ltac:(lra))
    as Hv.
  pose proof (@sin_close (6.0 * x2 * PI) (6.0 * x1 * PI)
                (6 * (0.0175 * 3.2324)) ltac:(lra)) as S1.
  pose proof (@sin_close (2.0 * x2 * PI) (2.0 * x1 * PI)
                (2 * (0.0175 * 3.2324)) ltac:(lra)) as S2.
  pose proof (@sin_close (y2 * PI) (y1 * PI)
                (0.0096 * 3.2324) ltac:(lra)) as S3.
  pose proof (@sin_close (y2 / 3.0 * PI) (y1 / 3.0 * PI)
                (0.0096 * 3.2324 / 3) ltac:(lra)) as S4.
  pose proof (@sin_close (y2 / 12.0 * PI) (y1 / 12.0 * PI)
                (0.0096 * 3.2324 / 12) ltac:(lra)) as S5.
  pose proof (@sin_close (y2 * PI / 30.0) (y1 * PI / 30.0)
                (0.0096 * 3.2324 / 30) ltac:(lra)) as S6.
  pose proof (@sqrt_Rabs_close x1 x2 0.0175 0.1323
                ltac:(lra) ltac:(lra) ltac:(lra)) as Q.
  pose proof (@product_close y1 y1 y2 y2 34.2 34.2 0.0096 0.0096
                ltac:(lra) ltac:(lra) ltac:(lra) ltac:(lra)) as Pyy.
  pose proof (@product_close x1 y1 x2 y2 33 34.2 0.0175 0.0096
                ltac:(lra) ltac:(lra) ltac:(lra) ltac:(lra)) as Pxy.
  lra.
Qed.

Lemma radLat_close (lat1 lat2 : R) :
  -0.0096 <= lat1 - lat2 <= 0.0096 ->
  - (0.0001724) <= lat1 / 180.0 * PI - lat2 / 180.0 * PI <= 0.0001724.
Proof.
  intros H. pose proof PI_upper. pose proof PI_lower.
  pose proof (@mul_bound ((lat1 - lat2) / 180.0) PI (0.0096 / 180.0) 3.2324
                ltac:(lra) ltac:(lra)).
  lra.
Qed.

Lemma magicR_close (lat1 lat2 : R) :
  -0.0096 <= lat1 - lat2 <= 0.0096 ->
  - (0.000002308) <= magicR lat1 - magicR lat2 <= 0.000002308.
Proof.
  intros H. unfold magicR, OFFSET.
  pose proof (radLat_close H) as Hphi.
  pose proof (SIN_bound (lat1 / 180.0 * PI)) as B1.
  pose proof (SIN_bound (lat2 / 180.0 * PI)) as B2.
  pose proof (@sin_close (lat2 / 180.0 * PI) (lat1 / 180.0 * PI) 0.0001724
                ltac:(lra)) as S.
  set (s1 := sin (lat1 / 180.0 * PI)) in *.
  set (s2 := sin (lat2 / 180.0 * PI)) in *.
  pose proof (@product_close s1 s1 s2 s2 1 1 0.0001724 0.0001724
                ltac:(lra) ltac:(lra) ltac:(lra) ltac:(lra)) as E.
  lra.
Qed.

Lemma sqrt_magicR_close (lat1 lat2 : R) :
  -0.0096 <= lat1 - lat2 <= 0.0096 ->
  - (0.000001166) <= sqrt (magicR lat1) - sqrt (magicR lat2) <= 0.000001166.
Proof.
  intros H. pose proof (magicR_close H) as HM.
  pose proof (sqrt_magicR_bounds lat1) as B1.
  pose proof (sqrt_magicR_bounds lat2) as B2.
  pose proof (magicR_pos lat1) as P1. pose proof (magicR_pos lat2) as P2.
  pose proof (sqrt_sqrt (magicR lat1) ltac:(lra)) as E1.
  pose proof (sqrt_sqrt (magicR lat2) ltac:(lra)) as E2.
  set (s1 := sqrt (magicR lat1)) in *. set (s2 := sqrt (magicR lat2)) in *.
  (* (s1 - s2) * (s1 + s2) is the difference of the two [magicR] *)
  assert (E : (s1 - s2) * (s1 + s2) = magicR lat1 - magicR lat2)
    by (rewrite <- E1, <- E2; ring).
  assert (Hq : s1 - s2 = (magicR lat1 - magicR lat2) / (s1 + s2))
    by (rewrite <- E; field; lra).
  rewrite Hq.
  apply quotient_bound; [lra|].
  pose proof (@mul_lower 0.000001166 1.98 0.000001166 (s1 + s2)
                ltac:(lra) ltac:(lra)).
  lra.
Qed.

Lemma lonDenominator_close (lat1 lat2 : R) :
  -0.0096 <= lat1 - lat2 <= 0.0096 ->
  - (3616) <= lonDenominator lat1 - lonDenominator lat2 <= 3616.
Proof.
  intros H. unfold lonDenominator.
  pose proof (sqrt_magicR_close H) as Hs.
  pose proof (sqrt_magicR_bounds lat1) as B1.
  pose proof (sqrt_magicR_bounds lat2) as B2.
  pose proof (radLat_close H) as Hphi.
  pose proof (@cos_close (lat2 / 180.0 * PI) (lat1 / 180.0 * PI) 0.0001724
                ltac:(lra)) as Hc.
  pose proof (COS_bound (lat1 / 180.0 * PI)) as C1.
  pose proof (COS_bound (lat2 / 180.0 * PI)) as C2.
  pose proof PI_lower as Hpi. pose proof PI_upper as Hpi'.
  set (s1 := sqrt (magicR lat1)) in *. set (s2 := sqrt (magicR lat2)) in *.
  set (c1 := cos (lat1 / 180.0 * PI)) in *.
  set (c2 := cos (lat2 / 180.0 * PI)) in *.
  unfold AXIS.
  set (w1 := 6378245.0 / s1). set (w2 := 6378245.0 / s2).
  assert (W1 : 6378245 <= w1 <= 6442672).
  { split; [apply quotient_lower | apply quotient_upper]; lra. }
  assert (W2 : 6378245 <= w2 <= 6442672).
  { split; [apply quotient_lower | apply quotient_upper]; lra. }
  assert (Hw : - (7.6) <= w1 - w2 <= 7.6).
  { assert (Hss : 0.9801 <= s1 * s2)
      by (pose proof (@mul_lower 0.99 0.99 s1 s2 ltac:(lra) ltac:(lra));
          lra).
    assert (Ew : w1 - w2 = 6378245.0 * (s2 - s1) / (s1 * s2)).
    { unfold w1, w2. field. lra. }
    rewrite Ew. apply quotient_bound; [lra|].
    pose proof (@mul_lower 7.6 0.9801 7.6 (s1 * s2) ltac:(lra) ltac:(lra)).
    lra. }
  pose proof (@product_close w1 c1 w2 c2 6442672 1 7.6 0.0001724
                ltac:(lra) ltac:(lra) ltac:(lra) ltac:(lra)) as HA.
  replace (w1 * c1 * PI - w2 * c2 * PI) with ((w1 * c1 - w2 * c2) * PI)
    by ring.
  pose proof (@mul_bound (w1 * c1 - w2 * c2) PI
                (6442672 * 0.0001724 + 1 * 7.6) 3.2324
                ltac:(lra) ltac:(lra)).
  lra.
Qed.

Lemma latDenominator_close (lat1 lat2 : R) :
  -0.0096 <= lat1 - lat2 <= 0.0096 ->
  - (75) <= latDenominator lat1 - latDenominator lat2 <= 75.
Proof.
  intros H. unfold latDenominator.
  pose proof (sqrt_magicR_close H) as Hs.
  pose proof (magicR_close H) as HM.
  pose proof (sqrt_magicR_bounds lat1) as B1.
  pose proof (sqrt_magicR_bounds lat2) as B2.
  pose proof (magicR_bounds lat1) as M1. pose proof (magicR_bounds lat2) as M2.
  pose proof (magicR_times_sqrt lat1) as G1.
  pose proof (magicR_times_sqrt lat2) as G2.
  pose proof PI_lower as Hpi. pose proof PI_upper as Hpi'.
  unfold OFFSET in M1, M2.
  pose proof (@product_close (magicR lat1) (sqrt (magicR lat1))
                (magicR lat2) (sqrt (magicR lat2))
                1 1 0.000002308 0.000001166
                ltac:(lra) ltac:(lra) ltac:(lra) ltac:(lra)) as HG.
  set (g1 := magicR lat1 * sqrt (magicR lat1)) in *.
  set (g2 := magicR lat2 * sqrt (magicR lat2)) in *.
  unfold AXIS, OFFSET.
  set (k := 6378245.0 * (1 - 0.00669342162296594323)).
  assert (Hk : 6335552 <= k <= 6335553) by (unfold k; lra).
  assert (Hq : - (23) <= k / g1 - k / g2 <= 23).
  { assert (Hgg : 0.9604 <= g1 * g2)
      by (pose proof (@mul_lower 0.98 0.98 g1 g2 ltac:(lra) ltac:(lra));
          lra).
    assert (Eq : k / g1 - k / g2 = k * (g2 - g1) / (g1 * g2))
      by (field; lra).
    rewrite Eq. apply quotient_bound; [lra|].
    pose proof (@mul_bound k (g2 - g1) 6335553
                  (1 * 0.000001166 + 1 * 0.000002308)
                  ltac:(lra) ltac:(lra)).
    pose proof (@mul_lower 23 0.9604 23 (g1 * g2) ltac:(lra) ltac:(lra)).
    lra. }
  replace (k / g1 * PI - k / g2 * PI) with ((k / g1 - k / g2) * PI) by ring.
  pose proof (@mul_bound (k / g1 - k / g2) PI 23 3.2324
                ltac:(lra) ltac:(lra)).
  lra.
Qed.

(** Between two points of the region no further apart than the offset is
    large, the offset moves by at most 0.0002 degrees. *)
Lemma dLonR_close (lon1 lat1 lon2 lat2 : R) :
  72.004 <= lon1 <= 137.8347 -> 0.8293 <= lat1 <= 55.8271 ->
  72.004 <= lon2 <= 137.8347 -> 0.8293 <= lat2 <= 55.8271 ->
  -0.0175 <= lon1 - lon2 <= 0.0175 -> -0.0096 <= lat1 - lat2 <= 0.0096 ->
  -0.0002 <= dLonR lon1 lat1 - dLonR lon2 lat2 <= 0.0002.
Proof.
  intros Hlon1 Hlat1 Hlon2 Hlat2 Hlon Hlat. unfold dLonR.
  pose proof (@transformLonR_close (lon1 - 105.0) (lat1 - 35.0)
                (lon2 - 105.0) (lat2 - 35.0)
                ltac:(lra) ltac:(lra) ltac:(lra) ltac:(lra)
                ltac:(lra) ltac:(lra)) as HT.
  pose proof (@transformLonR_bound (lon2 - 105.0) (lat2 - 35.0)
                ltac:(lra) ltac:(lra)) as HT2.
  pose proof (lonDenominator_lower Hlat1) as D1.
  pose proof (lonDenominator_lower Hlat2) as D2.
  pose proof (lonDenominator_close Hlat) as HD.
  pose proof (@quotient_close
                (transformLonR (lon1 - 105.0) (lat1 - 35.0) * 180.0)
                (transformLonR (lon2 - 105.0) (lat2 - 35.0) * 180.0)
                (lonDenominator lat1) (lonDenominator lat2)
                10294487 (8.4 * 180) (992 * 180) 3616
                ltac:(lra) ltac:(lra) ltac:(lra) ltac:(lra) ltac:(lra)
                ltac:(lra)) as HQ.
  lra.
Qed.

Lemma dLatR_close (lon1 lat1 lon2 lat2 : R) :
  72.004 <= lon1 <= 137.8347 -> 0.8293 <= lat1 <= 55.8271 ->
  72.004 <= lon2 <= 137.8347 -> 0.8293 <= lat2 <= 55.8271 ->
  -0.0175 <= lon1 - lon2 <= 0.0175 -> -0.0096 <= lat1 - lat2 <= 0.0096 ->
  -0.0002 <= dLatR lon1 lat1 - dLatR lon2 lat2 <= 0.0002.
Proof.
  intros Hlon1 Hlat1 Hlon2 Hlat2 Hlon Hlat. unfold dLatR.
  pose proof (@transformLatR_close (lon1 - 105.0) (lat1 - 35.0)
                (lon2 - 105.0) (lat2 - 35.0)
                ltac:(lra) ltac:(lra) ltac:(lra) ltac:(lra)
                ltac:(lra) ltac:(lra)) as HT.
  pose proof (@transformLatR_bound (lon2 - 105.0) (lat2 - 35.0)
                ltac:(lra) ltac:(lra)) as HT2.
  pose proof (latDenominator_lower lat1) as D1.
  pose proof (latDenominator_lower lat2) as D2.
  pose proof (latDenominator_close Hlat) as HD.
  pose proof (@quotient_close
                (transformLatR (lon1 - 105.0) (lat1 - 35.0) * 180.0)
                (transformLatR (lon2 - 105.0) (lat2 - 35.0) * 180.0)
                (latDenominator lat1) (latDenominator lat2)
                19006656 (7.6 * 180) (1004 * 180) 75
                ltac:(lra) ltac:(lra) ltac:(lra) ltac:(lra) ltac:(lra)
                ltac:(lra)) as HQ.
  lra.
Qed.

End OffsetBounds.

(** ** The round trip through WGS-84 *)

Section RoundTripClaims.
Import Js.
Local Open Scope R_scope.
Local Open Scope list_scope.

(** What the round trip of a point of the region is: the point moved by
    [toWGS84], and moved back by the offset found there unless it has
    left the region. *)
Lemma round_trip_inside (lon lat : R) :
  72.004 <= lon <= 137.8347 -> 0.8293 <= lat <= 55.8271 ->
  let lon1 := lon - Gcj02Real.dLonR lon lat in
  let lat1 := lat - Gcj02Real.dLatR lon lat in
  V1.gcj02.toWGS84 [Num lon; Num lat] Omitted None
  = Some [Num lon1; Num lat1]
  /\ round_trip [Num lon; Num lat]
     = if V1.outOfChina (Num lon1) (Num lat1)
       then Some [Num lon1; Num lat1]
       else Some [Num (lon1 + Gcj02Real.dLonR lon1 lat1);
                  Num (lat1 + Gcj02Real.dLatR lon1 lat1)].
Proof.
  intros Hlon Hlat lon1 lat1.
  destruct (@inside_point_shifted lon lat Hlon Hlat) as (Hto & _).
  fold lon1 lat1 in Hto. split; [exact Hto|].
  unfold round_trip. rewrite Hto.
  destruct (V1.outOfChina (Num lon1) (Num lat1)) eqn:E.
  - apply Gcj02Facts.outOfChina_Num in E.
    now destruct (@outside_point_unchanged lon1 lat1 E) as (_ & Hfrom & _).
  - apply Gcj02Facts.outOfChina_Num_false in E. destruct E as [E1 E2].
    now destruct (@inside_point_shifted lon1 lat1 E1 E2) as (_ & Hfrom & _).
Qed.

(** C7, as the code has it (in exact arithmetic).  Let a point be
    strictly inside the China region and let [toWGS84] move it to
    [(lon1, lat1)].  If the moved point is still in the region,
    [fromWGS84] brings it back within 0.0002 degrees of the original in
    each coordinate.  If the moved point has left the region, [fromWGS84]
    returns it as it is, and the round trip is off by the whole offset.
    In both cases the round trip ends within 0.02 degrees of the
    original. *)
Theorem wgs84_round_trip_within_offset (lon lat : R) :
  strictly_inside lon lat ->
  let lon1 := lon - Gcj02Real.dLonR lon lat in
  let lat1 := lat - Gcj02Real.dLatR lon lat in
  V1.gcj02.toWGS84 [Num lon; Num lat] Omitted None
  = Some [Num lon1; Num lat1]
  /\ (V1.outOfChina (Num lon1) (Num lat1) = false ->
      round_trip_within 0.0002 lon lat)
  /\ (V1.outOfChina (Num lon1) (Num lat1) = true ->
      round_trip [Num lon; Num lat] = Some [Num lon1; Num lat1])
  /\ round_trip_within 0.02 lon lat.
Proof.
  intros [Hlon Hlat] lon1 lat1.
  assert (Hlon' : 72.004 <= lon <= 137.8347) by lra.
  assert (Hlat' : 0.8293 <= lat <= 55.8271) by lra.
  destruct (@round_trip_inside lon lat Hlon' Hlat') as (Hto & Hrt).
  pose proof (OffsetBounds.dLonR_bound Hlon' Hlat') as Hd.
  pose proof (OffsetBounds.dLatR_bound Hlon' Hlat') as Hd'.
  fold lon1 lat1 in Hto, Hrt.
  assert (Hnear : forall E1 : 72.004 <= lon1 <= 137.8347,
             forall E2 : 0.8293 <= lat1 <= 55.8271,
             Rabs (lon1 + Gcj02Real.dLonR lon1 lat1 - lon) <= 0.0002
             /\ Rabs (lat1 + Gcj02Real.dLatR lon1 lat1 - lat) <= 0.0002).
  { intros E1 E2.
    assert (Hx : -0.0175 <= lon1 - lon <= 0.0175) by (subst lon1; lra).
    assert (Hy : -0.0096 <= lat1 - lat <= 0.0096) by (subst lat1; lra).
    pose proof (@OffsetBounds.dLonR_close lon1 lat1 lon lat
                  E1 E2 Hlon' Hlat' Hx Hy) as C1.
    pose proof (@OffsetBounds.dLatR_close lon1 lat1 lon lat
                  E1 E2 Hlon' Hlat' Hx Hy) as C2.
    split; apply Rabs_le; subst lon1 lat1; lra. }
  split; [exact Hto|]. split; [|split].
  - intros E. unfold round_trip_within. rewrite Hrt, E.
    apply Gcj02Facts.outOfChina_Num_false in E. destruct E as [E1 E2].
    destruct (Hnear E1 E2) as [N1 N2].
    eexists _, _. split; [reflexivity|]. split; assumption.
  - intros E. rewrite Hrt, E. reflexivity.
  - unfold round_trip_within. rewrite Hrt.
    destruct (V1.outOfChina (Num lon1) (Num lat1)) eqn:E.
    + exists lon1, lat1. split; [reflexivity|].
      split; apply Rabs_le; subst lon1 lat1; lra.
    + apply Gcj02Facts.outOfChina_Num_false in E. destruct E as [E1 E2].
      destruct (Hnear E1 E2) as [N1 N2].
      eexists _, _. split; [reflexivity|]. split; lra.
Qed.

(** In Shanghai, well inside the region, the round trip ends within
    0.0002 degrees. *)
Lemma wgs84_round_trip_within_offset_witness :
  round_trip_within 0.0002 121.473701 31.230416.
Proof.
  assert (Hin : strictly_inside 121.473701 31.230416)
    by (unfold strictly_inside; lra).
  destruct (@wgs84_round_trip_within_offset 121.473701 31.230416 Hin)
    as (_ & Hnear & _).
  apply Hnear. apply Gcj02Facts.outOfChina_Num_false.
  pose proof (@OffsetBounds.dLonR_bound 121.473701 31.230416
                ltac:(lra) ltac:(lra)).
  pose proof (@OffsetBounds.dLatR_bound 121.473701 31.230416
                ltac:(lra) ltac:(lra)).
  lra.
Defined.

(** C7 fails next to the edge of the region for an epsilon of 0.0002
    degrees.  The point (72.0041, 0.83) is strictly inside; [toWGS84]
    moves it west by at least 0.0004 degrees, across the edge at 72.004,
    and [fromWGS84] leaves the moved point where it is. *)
Lemma wgs84_round_trip_off_at_edge :
  ~ (forall lon lat : R,
        strictly_inside lon lat -> round_trip_within 0.0002 lon lat).
Proof.
  intros H.
  assert (Hin : strictly_inside 72.0041 0.83)
    by (unfold strictly_inside; lra).
  destruct (H _ _ Hin) as (lon' & lat' & Hrt' & Hlon & _).
  destruct (@round_trip_inside 72.0041 0.83) as (_ & Hrt); [lra | lra |].
  pose proof OffsetBounds.dLonR_near_west_edge as Hd.
  set (lon1 := 72.0041 - Gcj02Real.dLonR 72.0041 0.83) in *.
  set (lat1 := 0.83 - Gcj02Real.dLatR 72.0041 0.83) in *.
  assert (Hout : V1.outOfChina (Num lon1) (Num lat1) = true).
  { apply Gcj02Facts.outOfChina_Num. left. subst lon1. lra. }
  rewrite Hout, Hrt' in Hrt. injection Hrt as -> _.
  revert Hlon. subst lon1. unfold Rabs.
  destruct (Rcase_abs _); lra.
Qed.

End RoundTripClaims.

(** ** What the cache guarantees *)

Module LRUExtraFacts.
Import LRUCache LRUExtra.
Local Open Scope list_scope.

Lemma get_set_same (m : JsMap.t) (k : string) (v : Buffer) :
  JsMap.get (JsMap.set m k v) k = Some v.
Proof.
  induction m as [|[k0 v0] m IH]; simpl.
  - now rewrite String.eqb_refl.
  - destruct (String.eqb k k0) eqn:E; simpl; rewrite E; [reflexivity | exact IH].
Qed.

Lemma get_set_other (m : JsMap.t) (k k' : string) (v : Buffer) :
  k' <> k -> JsMap.get (JsMap.set m k v) k' = JsMap.get m k'.
Proof.
  intros Hne. induction m as [|[k0 v0] m IH]; simpl.
  - destruct (String.eqb_spec k' k); [contradiction | reflexivity].
  - destruct (String.eqb_spec k k0) as [->|Hk]; simpl.
    + destruct (String.eqb_spec k' k0); [contradiction | reflexivity].
    + destruct (String.eqb k' k0); [reflexivity | exact IH].
Qed.

End LRUExtraFacts.

Module LRUExtraFacts2.
Import LRUCache LRUExtra LRUExtraFacts.
Local Open Scope list_scope.

Lemma entries_after_get (m : JsMap.t) (key : string) (a : nat) :
  entries_after m key = Some a -> exists v, JsMap.get m key = Some v.
Proof.
  induction m as [|[k0 v0] m IH]; simpl; [discriminate|].
  destruct (String.eqb key k0); [eauto | exact IH].
Qed.

Lemma entries_after_lt (m : JsMap.t) (key : string) (a : nat) :
  entries_after m key = Some a -> (a < JsMap.size m)%nat.
Proof.
  unfold JsMap.size. revert a.
  induction m as [|[k0 v0] m IH]; simpl; intros a; [discriminate|].
  destruct (String.eqb key k0).
  - intros [= <-]. lia.
  - intros H. apply IH in H. lia.
Qed.

(** Deleting another key leaves no more entries after [key]. *)
Lemma entries_after_delete (m : JsMap.t) (key k' : string) (a : nat) :
  k' <> key -> entries_after m key = Some a ->
  exists a', entries_after (snd (JsMap.delete m k')) key = Some a'
             /\ (a' <= a)%nat.
Proof.
  intros Hne. revert a.
  induction m as [|[k0 v0] m IH]; simpl; intros a; [discriminate|].
  destruct (String.eqb_spec k' k0) as [->|Hk].
  - destruct (String.eqb_spec key k0) as [->|Hk0]; [congruence|].
    simpl. eauto.
  - pose proof (JsMapFacts.size_delete m k') as Hsz.
    destruct (JsMap.delete m k') as [found r]; simpl in *.
    destruct (String.eqb key k0).
    + intros [= <-]. exists (List.length r). split; [reflexivity|].
      unfold JsMap.size in Hsz. destruct (JsMap.has m k'); lia.
    + exact (IH a).
Qed.

(** Adding another key at the end puts one more entry after [key]. *)
Lemma entries_after_app (m : JsMap.t) (key k' : string) (v' : Buffer)
    (a : nat) :
  entries_after m key = Some a ->
  entries_after (m ++ [(k', v')]) key = Some (S a).
Proof.
  revert a. induction m as [|[k0 v0] m IH]; simpl; intros a; [discriminate|].
  destruct (String.eqb key k0).
  - intros [= <-]. rewrite length_app. simpl. f_equal. lia.
  - exact (IH a).
Qed.

Lemma entries_after_app_last (m : JsMap.t) (key : string) (v : Buffer) :
  JsMap.get m key = None ->
  entries_after (m ++ [(key, v)]) key = Some 0%nat.
Proof.
  induction m as [|[k0 v0] m IH]; simpl.
  - now rewrite String.eqb_refl.
  - destruct (String.eqb key k0); [discriminate | exact IH].
Qed.

(** The first key has all the other entries after it. *)
Lemma entries_after_first (m : JsMap.t) (key : string) :
  JsMap.first_key m = Some key ->
  entries_after m key = Some (pred (JsMap.size m)).
Proof.
  destruct m as [|[k0 v0] m]; simpl; [discriminate|].
  intros [= ->]. now rewrite String.eqb_refl.
Qed.

Lemma holds_set (c : t) (key : string) (value : Buffer) :
  JsMap.wf (cache c) -> holds (set c key value) key value 0.
Proof.
  intros Hwf.
  assert (Hwf' : JsMap.wf (cache (set c key value)))
    by exact (@LRUCacheFacts.wf_step c (Set_ key value) Hwf).
  split; [exact Hwf'|]. split.
  - unfold set. simpl. apply get_set_same.
  - exists 0%nat. split; [|lia].
    unfold set. simpl.
    set (m1 := if JsMap.has (cache c) key then _ else _).
    assert (Hgone : JsMap.get m1 key = None).
    { subst m1. destruct (JsMap.has (cache c) key) eqn:Hhas.
      - now apply JsMapFacts.get_delete_same.
      - apply JsMapFacts.has_false_get in Hhas.
        destruct (maxSize c <=? Z.of_nat (JsMap.size (cache c)))%Z;
          [|exact Hhas].
        destruct (JsMap.first_key (cache c)) as [k0|] eqn:Hfirst;
          [|exact Hhas].
        destruct (String.eqb_spec key k0) as [->|Hne].
        + now apply JsMapFacts.get_delete_same.
        + rewrite JsMapFacts.get_delete_other by assumption. exact Hhas. }
    rewrite JsMapFacts.set_absent by exact Hgone.
    now apply entries_after_app_last.
Qed.

Lemma holds_step (c : t) (key : string) (value : Buffer) (j : nat)
    (o : op) :
  holds c key value j -> spares key o = true ->
  (Z.of_nat j + 1 < maxSize c)%Z ->
  holds (step c o) key value (S j).
Proof.
  intros (Hwf & Hget & a & Ha & Hle) Hsp Hroom.
  split; [now apply LRUCacheFacts.wf_step|].
  destruct o as [k'|k' v'|k'|]; simpl in *; try discriminate.
  - (* get *)
    unfold get. destruct (JsMap.get (cache c) k') as [item|] eqn:Hk'.
    + simpl.
      rewrite JsMapFacts.set_absent
        by (now apply JsMapFacts.get_delete_same).
      destruct (String.eqb_spec k' key) as [->|Hne].
      * assert (item = value) by congruence. subst item. split.
        -- apply JsMapFacts.get_app_last.
           now apply JsMapFacts.get_delete_same.
        -- exists 0%nat. split; [|lia]. apply entries_after_app_last.
           now apply JsMapFacts.get_delete_same.
      * split.
        -- rewrite JsMapFacts.get_app_other by congruence.
           rewrite JsMapFacts.get_delete_other by congruence. exact Hget.
        -- destruct (@entries_after_delete (cache c) key k' a Hne Ha)
             as (a' & Ha' & Hle').
           exists (S a'). split; [|lia]. now apply entries_after_app.
    + simpl. split; [exact Hget|]. exists a. split; [exact Ha | lia].
  - (* set of another key *)
    apply negb_true_iff in Hsp. apply String.eqb_neq in Hsp.
    unfold set. simpl.
    set (m1 := if JsMap.has (cache c) k' then _ else _).
    assert (H1 : JsMap.get m1 key = Some value
                 /\ exists a', entries_after m1 key = Some a'
                               /\ (a' <= j)%nat).
    { subst m1. destruct (JsMap.has (cache c) k') eqn:Hhas.
      - split.
        + rewrite JsMapFacts.get_delete_other by congruence. exact Hget.
        + destruct (@entries_after_delete (cache c) key k' a Hsp Ha)
            as (a' & Ha' & Hle'). exists a'. split; [exact Ha' | lia].
      - destruct (Z.leb_spec (maxSize c) (Z.of_nat (JsMap.size (cache c))))
          as [Hfull|Hfree]; [|split; [exact Hget | eauto]].
        destruct (JsMap.first_key (cache c)) as [k0|] eqn:Hfirst;
          [|split; [exact Hget | eauto]].
        assert (Hk0 : k0 <> key).
        { intros ->. apply entries_after_first in Hfirst.
          rewrite Ha in Hfirst. injection Hfirst as ->.
          apply entries_after_lt in Ha. lia. }
        split.
        + rewrite JsMapFacts.get_delete_other by congruence. exact Hget.
        + destruct (@entries_after_delete (cache c) key k0 a Hk0 Ha)
            as (a' & Ha' & Hle'). exists a'. split; [exact Ha' | lia]. }
    destruct H1 as (Hget1 & a1 & Ha1 & Hle1). split.
    + rewrite get_set_other by congruence. exact Hget1.
    + assert (Hold : JsMap.get m1 k' = None).
      { subst m1. destruct (JsMap.has (cache c) k') eqn:Hhas.
        - now apply JsMapFacts.get_delete_same.
        - apply JsMapFacts.has_false_get in Hhas.
          destruct (maxSize c <=? Z.of_nat (JsMap.size (cache c)))%Z;
            [|exact Hhas].
          destruct (JsMap.first_key (cache c)) as [k0|] eqn:Hfirst;
            [|exact Hhas].
          destruct (String.eqb_spec k' k0) as [->|Hne].
          + now apply JsMapFacts.get_delete_same.
          + rewrite JsMapFacts.get_delete_other by assumption. exact Hhas. }
      rewrite JsMapFacts.set_absent by exact Hold.
      exists (S a1). split; [now apply entries_after_app | lia].
  - (* delete of another key *)
    apply negb_true_iff in Hsp. apply String.eqb_neq in Hsp.
    unfold delete.
    pose proof (@JsMapFacts.get_delete_other (cache c) k' key
                  (not_eq_sym Hsp)) as Hg.
    destruct (@entries_after_delete (cache c) key k' a Hsp Ha)
      as (a' & Ha' & Hle').
    destruct (JsMap.delete (cache c) k') as [found r]; simpl in *.
    split; [congruence|]. exists a'. split; [exact Ha' | lia].
Qed.

Lemma maxSize_run (ops : list op) : forall c : t,
  maxSize (run c ops) = maxSize c.
Proof.
  unfold run. induction ops as [|o ops IH]; intros c; simpl; [reflexivity|].
  rewrite IH. apply LRUCacheFacts.maxSize_step.
Qed.

Lemma holds_run (key : string) (value : Buffer) (ops : list op) :
  forall (c : t) (j : nat),
    holds c key value j ->
    forallb (spares key) ops = true ->
    (Z.of_nat (j + List.length ops) < maxSize c)%Z ->
    holds (run c ops) key value (j + List.length ops).
Proof.
  unfold run.
  induction ops as [|o ops IH]; intros c j Hh Hsp Hlen; simpl in *.
  - now rewrite Nat.add_0_r.
  - apply andb_prop in Hsp. destruct Hsp as [Ho Hops].
    replace (j + S (List.length ops))%nat with (S j + List.length ops)%nat
      by lia.
    apply IH; [| exact Hops | rewrite LRUCacheFacts.maxSize_step; lia].
    apply holds_step; [exact Hh | exact Ho | lia].
Qed.

End LRUExtraFacts2.

Section LRUGuarantees.
Import LRUCache LRUExtra.
Local Open Scope list_scope.

(** X1.  [set] stores the value under the key, and disturbs no other entry but
    the oldest one; it disturbs none when the key is already there or the
    cache has room. *)
Theorem lru_set_disturbs_at_most_oldest
    (c : t) (key : string) (value : Buffer) :
  fst (get (set c key value) key) = Some value
  /\ (forall k' : string,
         k' <> key -> JsMap.first_key (cache c) <> Some k' ->
         JsMap.get (cache (set c key value)) k' = JsMap.get (cache c) k')
  /\ (has c key = true \/ (Z.of_nat (size c) < maxSize c)%Z ->
      forall k' : string,
        k' <> key ->
        JsMap.get (cache (set c key value)) k' = JsMap.get (cache c) k').
Proof.
  split; [|split].
  - unfold get, set. simpl. now rewrite LRUExtraFacts.get_set_same.
  - intros k' Hne Hfirst. unfold set. simpl.
    rewrite LRUExtraFacts.get_set_other by exact Hne.
    destruct (JsMap.has (cache c) key).
    + now apply JsMapFacts.get_delete_other.
    + destruct (maxSize c <=? Z.of_nat (JsMap.size (cache c)))%Z;
        [|reflexivity].
      destruct (JsMap.first_key (cache c)) as [k0|]; [|reflexivity].
      apply JsMapFacts.get_delete_other. congruence.
  - intros Hroom k' Hne. unfold set, has, size in *. simpl.
    rewrite LRUExtraFacts.get_set_other by exact Hne.
    destruct (JsMap.has (cache c) key).
    + now apply JsMapFacts.get_delete_other.
    + destruct Hroom as [Hhas|Hroom]; [discriminate|].
      destruct (Z.leb_spec (maxSize c) (Z.of_nat (JsMap.size (cache c))));
        [lia | reflexivity].
Qed.

(** X2.  [get] answers what the map holds under the key and changes nothing
    that is stored: after it every key holds what it held before, and a
    miss leaves the cache as it was. *)
Theorem lru_get_keeps_contents (c : t) (key : string) :
  fst (get c key) = JsMap.get (cache c) key
  /\ (forall k' : string,
         JsMap.get (cache (snd (get c key))) k' = JsMap.get (cache c) k')
  /\ (fst (get c key) = None -> snd (get c key) = c).
Proof.
  unfold get. destruct (JsMap.get (cache c) key) as [item|] eqn:Hget; simpl.
  - split; [reflexivity|]. split; [|discriminate].
    intros k'. destruct (String.eqb_spec k' key) as [->|Hne].
    + rewrite LRUExtraFacts.get_set_same. now rewrite Hget.
    + rewrite LRUExtraFacts.get_set_other by exact Hne.
      now apply JsMapFacts.get_delete_other.
  - repeat split.
Qed.

(** X3.  On every cache the operations can build, [delete] answers whether the
    key was there, removes the key and nothing else, and makes the cache
    one entry smaller exactly when the key was there. *)
Theorem lru_delete_removes_one_key
    (maxSize : Z) (ops : list op) (key : string) :
  let c := run (new maxSize) ops in
  fst (delete c key) = has c key
  /\ has (snd (delete c key)) key = false
  /\ (forall k' : string,
         k' <> key ->
         JsMap.get (cache (snd (delete c key))) k' = JsMap.get (cache c) k')
  /\ size (snd (delete c key))
     = if has c key then pred (size c) else size c.
Proof.
  intros c.
  assert (Hwf : JsMap.wf (cache c)).
  { apply LRUCacheFacts.wf_run. constructor. }
  unfold delete, has, size.
  pose proof (JsMapFacts.delete_found (cache c) key) as Hfound.
  pose proof (@JsMapFacts.get_delete_same (cache c) key Hwf) as Hgone.
  pose proof (JsMapFacts.size_delete (cache c) key) as Hsize.
  pose proof (fun k' => @JsMapFacts.get_delete_other (cache c) key k')
    as Hother.
  destruct (JsMap.delete (cache c) key) as [found m]; simpl in *.
  split; [exact Hfound|]. split; [now apply JsMapFacts.has_false_get|].
  split; [exact Hother | exact Hsize].
Qed.

(** X4.  The guarantee of the cache.  An entry just stored survives the next
    [maxSize - 1] operations, whatever they are, short of a [delete] or a
    second [set] of its key or a [clear]: after them [get] still answers
    the value stored. *)
Theorem lru_recent_entry_survives
    (maxSize : Z) (before ops : list op) (key : string) (value : Buffer) :
  forallb (spares key) ops = true ->
  (Z.of_nat (List.length ops) < maxSize)%Z ->
  let c := run (set (run (new maxSize) before) key value) ops in
  fst (get c key) = Some value.
Proof.
  intros Hsp Hlen c.
  assert (Hwf : JsMap.wf (cache (run (new maxSize) before))).
  { apply LRUCacheFacts.wf_run. constructor. }
  assert (Hmax : LRUCache.maxSize (set (run (new maxSize) before) key value)
                 = maxSize).
  { change (set ?c key value) with (step c (Set_ key value)).
    now rewrite LRUCacheFacts.maxSize_step, LRUExtraFacts2.maxSize_run. }
  pose proof (@LRUExtraFacts2.holds_run key value ops _ 0%nat
                (@LRUExtraFacts2.holds_set _ key value Hwf) Hsp
                ltac:(rewrite Hmax; simpl; lia)) as (_ & Hget & _).
  fold c in Hget. unfold get. now rewrite Hget.
Qed.

End LRUGuarantees.

Lemma lru_recent_entry_survives_witness :
  fst (LRUCache.get
         (LRUCache.run (LRUCache.set (LRUCache.new 3) "a" [x01])
            [LRUCache.Set_ "b" [x02]; LRUCache.Set_ "c" [x03]]) "a")
  = Some [x01].
Proof.
  apply (@lru_recent_entry_survives 3 [] 
           [LRUCache.Set_ "b" [x02]; LRUCache.Set_ "c" [x03]] "a" [x01]).
  - reflexivity.
  - simpl. lia.
Defined.

(** ** What a call of [getTile] leaves behind *)

Module TierFacts.
Import Orchestrator.
Local Open Scope list_scope.

Ltac enter_getTile :=
  unfold call, getTile, s3_lookup, tileCache_set, tileCache_get,
    tileCache_size, logger, interpolate, getTile_line, template;
  unfold bind, try_catch, emit, ret, throw, never, LRUCache.get; simpl.

Ltac through_origin env key xn yn zn :=
  match goal with
  | |- context [from_source env key xn yn zn ?w] =>
      let tr := fresh "tr" in
      let E := fresh "E" in
      let Ht := fresh "Ht" in
      destruct (OrchestratorFacts.from_source_outcome env key xn yn zn w)
        as (tr & E & Ht);
      rewrite E; clear E
  end.

(** The memory tier after a call on numbers, with the result and the
    tiers consulted. *)
Lemma call_on_numbers (env : Env) (c : LRUCache.t) (xn yn zn : number) :
  let key := cacheKey xn yn zn in
  let r := call env c (JsNumber xn) (JsNumber yn) (JsNumber zn) in
  match JsMap.get (LRUCache.cache c) key with
  | Some cached =>
      fst r = Return cached
      /\ tileCache (snd r) = snd (LRUCache.get c key)
      /\ tiers (trace (snd r)) = [Memory]
  | None =>
      match (if s3Enabled env then s3_getTile env zn xn yn else S3Null) with
      | S3Found data =>
          fst r = Return data
          /\ tileCache (snd r) = LRUCache.set c key data
          /\ tiers (trace (snd r)) = [Memory; Durable]
      | S3Null | S3ReadFails _ =>
          fst r = origin_outcome env xn yn zn
          /\ tileCache (snd r)
             = match origin_outcome env xn yn zn with
               | Return buffer => LRUCache.set c key buffer
               | Throw _ => c
               end
          /\ tiers (trace (snd r))
             = if s3Enabled env then [Memory; Durable; Origin]
               else [Memory; Origin]
      | S3Pending =>
          fst r = NeverSettles
          /\ tileCache (snd r) = c
          /\ tiers (trace (snd r)) = [Memory; Durable]
      end
  end.
Proof.
  intros key r. subst r. enter_getTile. fold key.
  destruct (JsMap.get (LRUCache.cache c) key) as [cached|] eqn:Hmem; simpl.
  - repeat split.
  - assert (Hc : {| LRUCache.cache := LRUCache.cache c;
                    LRUCache.maxSize := LRUCache.maxSize c |} = c)
      by (destruct c; reflexivity).
    destruct (s3Enabled env) eqn:Hs3; simpl.
    + destruct (s3_getTile env zn xn yn) as [data| |msg|]; simpl.
      * repeat split.
      * through_origin env key xn yn zn.
        destruct (origin_outcome env xn yn zn); simpl;
          rewrite ?OrchestratorFacts.tiers_app; simpl; rewrite ?Ht;
          repeat split.
      * through_origin env key xn yn zn.
        destruct (origin_outcome env xn yn zn); simpl;
          rewrite ?OrchestratorFacts.tiers_app; simpl; rewrite ?Ht;
          repeat split.
      * repeat split.
    + through_origin env key xn yn zn.
      destruct (origin_outcome env xn yn zn); simpl;
        rewrite ?OrchestratorFacts.tiers_app; simpl; rewrite ?Ht;
        repeat split.
Qed.

Lemma call_failure (env : Env) (c : LRUCache.t) (x y z : jsval) (e : Error) :
  fst (call env c x y z) = Throw e ->
  tileCache (snd (call env c x y z)) = c.
Proof.
  intros Hthrow.
  destruct (OrchestratorFacts.numbers_or_not x y z)
    as [(xn & yn & zn & -> & -> & ->)|Hnot];
    [|rewrite (OrchestratorFacts.call_not_numbers env c x y z Hnot);
      destruct (getTile_line x y z); reflexivity].
  pose proof (call_on_numbers env c xn yn zn) as H.
  cbv zeta in H.
  destruct (JsMap.get (LRUCache.cache c) (cacheKey xn yn zn)) as [cached|].
  - destruct H as (Hr & _). congruence.
  - destruct (if s3Enabled env then s3_getTile env zn xn yn else S3Null)
      as [data| |msg|]; destruct H as (Hr & Hc & _);
      try congruence;
      rewrite Hc; rewrite Hr in Hthrow; injection Hthrow as Hthrow;
      now rewrite Hthrow.
Qed.

Lemma call_serves_again
    (env env' : Env) (c : LRUCache.t) (x y z : jsval) (buf : Buffer) :
  fst (call env c x y z) = Return buf ->
  let r' := call env' (tileCache (snd (call env c x y z))) x y z in
  fst r' = Return buf /\ tiers (trace (snd r')) = [Memory].
Proof.
  intros Hret.
  destruct (OrchestratorFacts.numbers_or_not x y z)
    as [(xn & yn & zn & -> & -> & ->)|Hnot];
    [|rewrite (OrchestratorFacts.call_not_numbers env c x y z Hnot) in Hret;
      destruct (getTile_line x y z); discriminate Hret].
  set (key := cacheKey xn yn zn).
  assert (Hheld : JsMap.get
                    (LRUCache.cache
                       (tileCache (snd (call env c (JsNumber xn) (JsNumber yn)
                                          (JsNumber zn))))) key = Some buf).
  { pose proof (call_on_numbers env c xn yn zn) as H.
    cbv zeta in H. fold key in H.
    destruct (JsMap.get (LRUCache.cache c) key) as [cached|] eqn:Hmem.
    - destruct H as (Hr & Hc & _). rewrite Hc.
      unfold LRUCache.get. rewrite Hmem. simpl.
      rewrite LRUExtraFacts.get_set_same. congruence.
    - destruct (if s3Enabled env then s3_getTile env zn xn yn else S3Null)
        as [data| |msg|];
        destruct H as (Hr & Hc & _); rewrite Hc.
      + unfold LRUCache.set. simpl.
        rewrite LRUExtraFacts.get_set_same. congruence.
      + rewrite Hr in Hret. injection Hret as Hret. rewrite Hret.
        unfold LRUCache.set. simpl.
        now rewrite LRUExtraFacts.get_set_same.
      + rewrite Hr in Hret. injection Hret as Hret. rewrite Hret.
        unfold LRUCache.set. simpl.
        now rewrite LRUExtraFacts.get_set_same.
      + rewrite Hr in Hret. discriminate Hret. }
  intros r'. subst r'.
  pose proof (call_on_numbers env'
                (tileCache (snd (call env c (JsNumber xn) (JsNumber yn)
                                   (JsNumber zn)))) xn yn zn) as H'.
  cbv zeta in H'. fold key in H'. rewrite Hheld in H'.
  destruct H' as (Hr' & _ & Ht'). split; assumption.
Qed.

End TierFacts.

Module CleanupFacts.
Import Orchestrator Cleanup.
Local Open Scope list_scope.

Lemma tally_app (a b : list event) : tally (a ++ b) = plus4 (tally a) (tally b).
Proof.
  unfold tally, count. rewrite !filter_app, !length_app. reflexivity.
Qed.

Lemma tally_cons (e : event) (tr : list event) :
  tally (e :: tr) = plus4 (tally [e]) (tally tr).
Proof. exact (tally_app [e] tr). Qed.

Section WithEnv.
Variable env : Env.

(** The wait removes its listener once; it clears its timer once, unless
    the timer is what ended it. *)
Lemma await_change_tally (notified : list TileState) : forall w : World,
  exists tr,
    await_change env notified w
    = (Settled (await_outcome (TILE_LOAD_TIMEOUT env) notified),
       mkWorld (tileCache w) (trace w ++ tr))
    /\ (tally tr = (0, 1, 0, 1)%nat
        \/ tally tr = (0, 1, 0, 0)%nat
           /\ await_outcome (TILE_LOAD_TIMEOUT env) notified
              = Throw (TileLoadTimeout (TILE_LOAD_TIMEOUT env))).
Proof.
  induction notified as [|s later IH]; intros w.
  - simpl. OrchestratorFacts.run_monad. eexists. split; [reflexivity|].
    right. split; reflexivity.
  - destruct s; simpl; try apply IH;
      OrchestratorFacts.run_monad; eexists; (split; [reflexivity|]);
      left; reflexivity.
Qed.

Lemma from_source_tally (key : string) (x y z : number) (w : World) :
  exists tr c',
    from_source env key x y z w
    = (Settled (origin_outcome env x y z), mkWorld c' (trace w ++ tr))
    /\ (tally tr = (0, 0, 0, 0)%nat
        \/ tally tr = (1, 1, 1, 1)%nat
        \/ tally tr = (1, 1, 1, 0)%nat
           /\ origin_outcome env x y z
              = Throw (TileLoadTimeout (TILE_LOAD_TIMEOUT env))).
Proof.
  unfold from_source, origin_outcome.
  destruct (render_getTile env z x y) as [msg|[tile|]];
    [OrchestratorFacts.run_monad; eexists _, _; split; [reflexivity | now left]
    | |
     OrchestratorFacts.run_monad; eexists _, _; split; [reflexivity | now left]].
  assert (Hsettle : exists tr,
    (match state0 tile with
     | LOADED | EMPTY => ret (state0 tile)
     | IDLE | LOADING | ERROR =>
         logger Info "tile not loaded, reloading..." ;;
         emit SetTimeout ;; emit AddListener ;; emit Load ;;
         await_change env (changes tile)
     end) (mkWorld (tileCache w) (trace w ++ [OriginGetTile z x y]))
    = (Settled
         match state0 tile with
         | LOADED | EMPTY => Return (state0 tile)
         | IDLE | LOADING | ERROR =>
             await_outcome (TILE_LOAD_TIMEOUT env) (changes tile)
         end,
       mkWorld (tileCache w) (trace w ++ OriginGetTile z x y :: tr))
    /\ (tally tr = (0, 0, 0, 0)%nat
        \/ tally tr = (1, 1, 1, 1)%nat
        \/ tally tr = (1, 1, 1, 0)%nat
           /\ match state0 tile with
              | LOADED | EMPTY => Return (state0 tile)
              | IDLE | LOADING | ERROR =>
                  await_outcome (TILE_LOAD_TIMEOUT env) (changes tile)
              end = Throw (TileLoadTimeout (TILE_LOAD_TIMEOUT env)))).
  { destruct (state0 tile);
      try (OrchestratorFacts.run_monad; exists [];
           split; [reflexivity | now left]);
      OrchestratorFacts.run_monad;
      match goal with
      | |- context [await_change env ?l ?w0] =>
          destruct (await_change_tally l w0) as (tr & E & Ht);
          rewrite E
      end;
      simpl; rewrite <- ?app_assoc; simpl;
      eexists; (split; [reflexivity|]);
      right;
      (destruct Ht as [Ht|[Ht Hout]];
       [left | right; split; [|exact Hout]]);
      match goal with
      | |- tally (?a :: ?b :: ?c :: ?d :: ?t) = _ =>
          change (a :: b :: c :: d :: t) with ([a; b; c; d] ++ t)
      end;
      rewrite tally_app, Ht; reflexivity. }
  destruct Hsettle as (tr0 & E0 & Ht0).
  unfold bind at 1. unfold emit at 1. simpl.
  unfold bind at 1. rewrite E0.
  destruct (match state0 tile with
            | LOADED | EMPTY => Return (state0 tile)
            | _ => await_outcome (TILE_LOAD_TIMEOUT env) (changes tile)
            end) as [s|e];
    [|eexists _, _; split; [reflexivity|];
      change (OriginGetTile z x y :: tr0) with ([OriginGetTile z x y] ++ tr0);
      rewrite tally_app;
      destruct Ht0 as [->|[->|[-> H]]];
      [left | right; left
       | right; right; split; [|injection H as ->]]; reflexivity].
  assert (Ht1 : tally tr0 = (0, 0, 0, 0)%nat \/ tally tr0 = (1, 1, 1, 1)%nat).
  { destruct Ht0 as [H|[H|[_ H]]]; [now left | now right | discriminate]. }
  clear Ht0.
  destruct s, (getImage tile) as [| |buffer];
    try (OrchestratorFacts.run_monad; eexists _, _; split; [reflexivity|];
         rewrite tally_cons, ?tally_app;
         (destruct Ht1 as [->| ->]; [left | right; left]; reflexivity));
    destruct (s3Enabled env); OrchestratorFacts.run_monad;
    try destruct (s3_saveTile env z x y buffer "png");
    OrchestratorFacts.run_monad;
    match goal with
    | |- context [Nat.eqb ?n 0] => destruct (Nat.eqb n 0)
    end;
    OrchestratorFacts.run_monad; eexists _, _; (split; [reflexivity|]);
    rewrite tally_cons, ?tally_app;
    (destruct Ht1 as [->| ->]; [left | right; left]; reflexivity).
Qed.

End WithEnv.
End CleanupFacts.

Module CleanupFacts2.
Import Orchestrator Cleanup CleanupFacts.
Local Open Scope list_scope.

Lemma call_tally (env : Env) (c : LRUCache.t) (x y z : jsval) :
  let r := call env c x y z in
  tally (trace (snd r)) = (0, 0, 0, 0)%nat
  \/ tally (trace (snd r)) = (1, 1, 1, 1)%nat
  \/ tally (trace (snd r)) = (1, 1, 1, 0)%nat
     /\ fst r = Throw (TileLoadTimeout (TILE_LOAD_TIMEOUT env)).
Proof.
  intros r. subst r.
  destruct (OrchestratorFacts.numbers_or_not x y z)
    as [(xn & yn & zn & -> & -> & ->)|Hnot];
    [|rewrite (OrchestratorFacts.call_not_numbers env c x y z Hnot);
      destruct (getTile_line x y z); left; reflexivity].
  TierFacts.enter_getTile. set (key := cacheKey xn yn zn).
  destruct (JsMap.get (LRUCache.cache c) key) as [cached|]; simpl;
    [left; reflexivity|].
  assert (Horigin : forall head : list event,
    tally head = (0, 0, 0, 0)%nat ->
    let r := match from_source env key xn yn zn
                     (mkWorld c head) with
             | (Settled (Return a), w') => (Settled (Return a), w')
             | (Settled (Throw e), w') =>
                 (Settled (Throw e),
                  mkWorld (tileCache w')
                    (trace w' ++ [Log Error_ "Error in getTile"]))
             | (NeverSettles, w') => (NeverSettles, w')
             end in
    tally (trace (snd r)) = (0, 0, 0, 0)%nat
    \/ tally (trace (snd r)) = (1, 1, 1, 1)%nat
    \/ tally (trace (snd r)) = (1, 1, 1, 0)%nat
       /\ fst r = Throw (TileLoadTimeout (TILE_LOAD_TIMEOUT env))).
  { intros head Hhead.
    destruct (from_source_tally env key xn yn zn (mkWorld c head))
      as (tr & c' & E & Ht).
    rewrite E. simpl.
    destruct (origin_outcome env xn yn zn) as [buffer|e]; simpl;
      rewrite ?tally_app, Hhead;
      destruct Ht as [->|[->|[-> H]]];
      try (left; reflexivity); try (right; left; reflexivity);
      try discriminate.
    right. right. split; [reflexivity | now rewrite H]. }
  assert (Hc : {| LRUCache.cache := LRUCache.cache c;
                  LRUCache.maxSize := LRUCache.maxSize c |} = c)
    by (destruct c; reflexivity).
  destruct (s3Enabled env); simpl.
  - destruct (s3_getTile env zn xn yn) as [data| |msg|]; simpl;
      [left; reflexivity | | | left; reflexivity]; rewrite ?Hc;
      match goal with
      | |- context [from_source env key xn yn zn (mkWorld c ?head)] =>
          exact (Horigin head eq_refl)
      end.
  - rewrite ?Hc.
    match goal with
    | |- context [from_source env key xn yn zn (mkWorld c ?head)] =>
        exact (Horigin head eq_refl)
    end.
Qed.

End CleanupFacts2.

Section AcquisitionProperties.
Import Orchestrator Cleanup.
Local Open Scope list_scope.

(** X5.  A tile that has been served is served from memory the next time.
    After a call that returned bytes, a call for the same tile returns
    the same bytes and consults the memory tier alone, whatever the
    durable tier and the origin would answer by then. *)
Theorem getTile_serves_again_from_memory
    (env env' : Env) (c : LRUCache.t) (x y z : jsval) (buf : Buffer) :
  fst (call env c x y z) = Return buf ->
  let r' := call env' (tileCache (snd (call env c x y z))) x y z in
  fst r' = Return buf /\ tiers (trace (snd r')) = [Memory].
Proof. exact (@TierFacts.call_serves_again env env' c x y z buf). Qed.

Lemma getTile_serves_again_from_memory_witness :
  let c' := tileCache (snd (call env_without_s3 (LRUCache.new 200)
                              (JsNumber (Int 100)) (JsNumber (Int 200))
                              (JsNumber (Int 10)))) in
  let r' := call env_with_failing_s3 c'
              (JsNumber (Int 100)) (JsNumber (Int 200)) (JsNumber (Int 10)) in
  fst r' = Return [x89; x50] /\ tiers (trace (snd r')) = [Memory].
Proof.
  apply (@getTile_serves_again_from_memory env_without_s3 env_with_failing_s3
           (LRUCache.new 200) (JsNumber (Int 100)) (JsNumber (Int 200))
           (JsNumber (Int 10)) [x89; x50]).
  reflexivity.
Defined.

(** X6.  A call that fails leaves the memory tier as it found it: nothing is
    cached for a tile that could not be served. *)
Theorem getTile_failure_leaves_memory_tier
    (env : Env) (c : LRUCache.t) (x y z : jsval) (e : Error) :
  fst (call env c x y z) = Throw e ->
  tileCache (snd (call env c x y z)) = c.
Proof. exact (@TierFacts.call_failure env c x y z e). Qed.

Lemma getTile_failure_leaves_memory_tier_witness :
  let env := mkEnv false (fun _ _ _ => S3Null) (fun _ _ _ _ _ => S3Saved)
               (fun _ _ _ => RenderTile None) 30000 in
  let c := LRUCache.set (LRUCache.new 200) "1-2-3" [x89; x50] in
  tileCache (snd (call env c (JsNumber (Int 4)) (JsNumber (Int 5))
                    (JsNumber (Int 6)))) = c.
Proof.
  apply (@getTile_failure_leaves_memory_tier
           (mkEnv false (fun _ _ _ => S3Null) (fun _ _ _ _ _ => S3Saved)
              (fun _ _ _ => RenderTile None) 30000)
           (LRUCache.set (LRUCache.new 200) "1-2-3" [x89; x50])
           (JsNumber (Int 4)) (JsNumber (Int 5)) (JsNumber (Int 6))
           TileIsNull).
  reflexivity.
Defined.

(** X7.  [getTile] cleans up after its wait.  In every call the change
    listener is added at most once and removed as often as it is added,
    a timer is set exactly when the listener is added, and the timer is
    cleared unless it fired, in which case the call fails with the
    timeout error. *)
Theorem getTile_removes_its_listener
    (env : Env) (c : LRUCache.t) (x y z : jsval) :
  let r := call env c x y z in
  let tr := trace (snd r) in
  count is_RemoveListener tr = count is_AddListener tr
  /\ count is_SetTimeout tr = count is_AddListener tr
  /\ (count is_AddListener tr <= 1)%nat
  /\ (count is_ClearTimeout tr = count is_SetTimeout tr
      \/ count is_ClearTimeout tr = 0%nat
         /\ fst r = Throw (TileLoadTimeout (TILE_LOAD_TIMEOUT env))).
Proof.
  intros r tr. subst tr r.
  pose proof (CleanupFacts2.call_tally env c x y z) as H. cbv zeta in H.
  unfold tally in H.
  destruct H as [H|[H|[H Hr]]]; injection H as -> -> -> ->;
    repeat split; try lia; tauto.
Qed.

End AcquisitionProperties.

Module WritesFacts.
Import Orchestrator Writes.
Local Open Scope list_scope.

Lemma writes_app (a b : list event) : writes (a ++ b) = writes a ++ writes b.
Proof. apply filter_app. Qed.

Lemma writes_cons (e : event) (tr : list event) :
  writes (e :: tr) = writes [e] ++ writes tr.
Proof. exact (writes_app [e] tr). Qed.

Section WithEnv.
Variable env : Env.

Lemma await_change_writes (notified : list TileState) : forall w : World,
  exists tr,
    await_change env notified w
    = (Settled (await_outcome (TILE_LOAD_TIMEOUT env) notified),
       mkWorld (tileCache w) (trace w ++ tr))
    /\ writes tr = [].
Proof.
  induction notified as [|s later IH]; intros w.
  - simpl. OrchestratorFacts.run_monad. eexists. split; reflexivity.
  - destruct s; simpl; try apply IH;
      OrchestratorFacts.run_monad; eexists; split; reflexivity.
Qed.

(** What the origin tier writes: the memory tier first, then the durable
    tier when it is enabled, and nothing when it fails. *)
Lemma from_source_writes (key : string) (x y z : number) (w : World) :
  exists tr c',
    from_source env key x y z w
    = (Settled (origin_outcome env x y z), mkWorld c' (trace w ++ tr))
    /\ writes tr
       = match origin_outcome env x y z with
         | Return buffer =>
             MemSet key buffer
             :: (if s3Enabled env then [S3Save z x y buffer "png"] else [])
         | Throw _ => []
         end.
Proof.
  unfold from_source, origin_outcome.
  destruct (render_getTile env z x y) as [msg|[tile|]];
    [OrchestratorFacts.run_monad; eexists _, _; split; reflexivity
    | |
     OrchestratorFacts.run_monad; eexists _, _; split; reflexivity].
  assert (Hsettle : exists tr,
    (match state0 tile with
     | LOADED | EMPTY => ret (state0 tile)
     | IDLE | LOADING | ERROR =>
         logger Info "tile not loaded, reloading..." ;;
         emit SetTimeout ;; emit AddListener ;; emit Load ;;
         await_change env (changes tile)
     end) (mkWorld (tileCache w) (trace w ++ [OriginGetTile z x y]))
    = (Settled
         match state0 tile with
         | LOADED | EMPTY => Return (state0 tile)
         | IDLE | LOADING | ERROR =>
             await_outcome (TILE_LOAD_TIMEOUT env) (changes tile)
         end,
       mkWorld (tileCache w) (trace w ++ OriginGetTile z x y :: tr))
    /\ writes tr = []).
  { destruct (state0 tile);
      try (OrchestratorFacts.run_monad; exists [];
           split; reflexivity);
      OrchestratorFacts.run_monad;
      match goal with
      | |- context [await_change env ?l ?w0] =>
          destruct (await_change_writes l w0) as (tr & E & Ht);
          rewrite E
      end;
      simpl; rewrite <- ?app_assoc; simpl;
      eexists; (split; [reflexivity|]);
      unfold writes in *; simpl; exact Ht. }
  destruct Hsettle as (tr0 & E0 & Ht0).
  unfold bind at 1. unfold emit at 1. simpl.
  unfold bind at 1. rewrite E0.
  destruct (match state0 tile with
            | LOADED | EMPTY => Return (state0 tile)
            | _ => await_outcome (TILE_LOAD_TIMEOUT env) (changes tile)
            end) as [s|e];
    [|eexists _, _; split; [reflexivity|];
      unfold writes in *; simpl; exact Ht0].
  destruct s, (getImage tile) as [| |buffer];
    try (OrchestratorFacts.run_monad; eexists _, _; split; [reflexivity|];
         unfold writes in *; simpl; rewrite ?filter_app, ?Ht0; reflexivity);
    destruct (s3Enabled env); OrchestratorFacts.run_monad;
    try destruct (s3_saveTile env z x y buffer "png");
    OrchestratorFacts.run_monad;
    match goal with
    | |- context [Nat.eqb ?n 0] => destruct (Nat.eqb n 0)
    end;
    OrchestratorFacts.run_monad; eexists _, _; (split; [reflexivity|]);
    unfold writes in *; simpl; rewrite ?filter_app, ?Ht0; reflexivity.
Qed.

End WithEnv.

Lemma call_writes (env : Env) (c : LRUCache.t) (xn yn zn : number) :
  let key := cacheKey xn yn zn in
  let r := call env c (JsNumber xn) (JsNumber yn) (JsNumber zn) in
  writes (trace (snd r))
  = match JsMap.get (LRUCache.cache c) key with
    | Some _ => []
    | None =>
        match (if s3Enabled env then s3_getTile env zn xn yn else S3Null) with
        | S3Found data => [MemSet key data]
        | S3Null | S3ReadFails _ =>
            match origin_outcome env xn yn zn with
            | Return buffer =>
                MemSet key buffer
                :: (if s3Enabled env
                    then [S3Save zn xn yn buffer "png"] else [])
            | Throw _ => []
            end
        | S3Pending => []
        end
    end.
Proof.
  intros key r. subst r. TierFacts.enter_getTile. fold key.
  destruct (JsMap.get (LRUCache.cache c) key) as [cached|]; simpl;
    [reflexivity|].
  assert (Horigin : forall head : list event,
    writes head = [] ->
    writes (trace (snd
      match from_source env key xn yn zn (mkWorld c head) with
      | (Settled (Return a), w') => (Settled (Return a), w')
      | (Settled (Throw e), w') =>
          (Settled (Throw e),
           mkWorld (tileCache w')
             (trace w' ++ [Log Error_ "Error in getTile"]))
      | (NeverSettles, w') => (NeverSettles, w')
      end))
    = match origin_outcome env xn yn zn with
      | Return buffer =>
          MemSet key buffer
          :: (if s3Enabled env then [S3Save zn xn yn buffer "png"] else [])
      | Throw _ => []
      end).
  { intros head Hhead.
    destruct (from_source_writes env key xn yn zn (mkWorld c head))
      as (tr & c' & E & Ht).
    rewrite E. simpl.
    destruct (origin_outcome env xn yn zn) as [buffer|e]; simpl;
      rewrite ?writes_app, Hhead, Ht, ?app_nil_r; reflexivity. }
  assert (Hc : {| LRUCache.cache := LRUCache.cache c;
                  LRUCache.maxSize := LRUCache.maxSize c |} = c)
    by (destruct c; reflexivity).
  destruct (s3Enabled env) eqn:Hs3; simpl.
  - destruct (s3_getTile env zn xn yn) as [data| |msg|]; simpl;
      [reflexivity | | | reflexivity]; rewrite ?Hc;
      match goal with
      | |- context [from_source env key xn yn zn (mkWorld c ?head)] =>
          rewrite (Horigin head eq_refl)
      end; rewrite ?Hs3; reflexivity.
  - rewrite ?Hc.
    match goal with
    | |- context [from_source env key xn yn zn (mkWorld c ?head)] =>
        rewrite (Horigin head eq_refl)
    end. rewrite ?Hs3. reflexivity.
Qed.

End WritesFacts.

Section WriteThrough.
Import Orchestrator Writes.
Local Open Scope list_scope.

(** X8.  What a call writes, and in what order.  A memory hit writes nothing.
    A hit of the durable tier is copied into the memory tier and not
    written back.  A tile of the origin is written to the memory tier
    and then, when the durable tier is enabled, saved there once, as
    "png", under the coordinates of the call.  A call that fails writes
    nothing, and so does one that waits on a read of the durable tier
    that never settles. *)
Theorem getTile_writes_through
    (env : Env) (c : LRUCache.t) (xn yn zn : number) :
  let key := cacheKey xn yn zn in
  let r := call env c (JsNumber xn) (JsNumber yn) (JsNumber zn) in
  writes (trace (snd r))
  = match JsMap.get (LRUCache.cache c) key with
    | Some _ => []
    | None =>
        match (if s3Enabled env then s3_getTile env zn xn yn else S3Null) with
        | S3Found data => [MemSet key data]
        | S3Null | S3ReadFails _ =>
            match origin_outcome env xn yn zn with
            | Return buffer =>
                MemSet key buffer
                :: (if s3Enabled env
                    then [S3Save zn xn yn buffer "png"] else [])
            | Throw _ => []
            end
        | S3Pending => []
        end
    end
  /\ (forall e, fst r = Throw e -> writes (trace (snd r)) = []).
Proof.
  intros key r.
  pose proof (WritesFacts.call_writes env c xn yn zn) as H.
  pose proof (TierFacts.call_on_numbers env c xn yn zn) as Hr.
  cbv zeta in H, Hr. fold key r in H, Hr.
  split; [exact H|].
  intros e He. rewrite H.
  destruct (JsMap.get (LRUCache.cache c) key) as [cached|]; [reflexivity|].
  destruct (if s3Enabled env then s3_getTile env zn xn yn else S3Null)
    as [data| |msg|]; destruct Hr as (Hr & _);
    rewrite Hr in He; try discriminate;
    injection He as He; now rewrite He.
Qed.

End WriteThrough.

(** ** The request handlers *)

Module NumberFacts.
Import Number ServerSpec.





(** The number for an integer is the integer when 53 bits hold it, and
    is never [NaN]. *)
Lemma to_double_exact (m : Z) : (Z.abs m < 2 ^ 53)%Z -> to_double m = Int m.
Proof.
  intros H. unfold to_double. cbv zeta.
  destruct (Z.ltb_spec (Z.abs m) (2 ^ 53)) as [_|Hge]; [reflexivity | lia].
Qed.






End NumberFacts.

Module RoundTripFacts.
Import Number ServerSpec.

Lemma trim_start_plain (c : ascii) (s : string) :
  (code c < 128)%N -> is_space1 c = false ->
  trim_start (String c s) = String c s.
Proof.
  intros Hc Hs. simpl. rewrite Hs.
  assert (H2 : forall c2, is_space2 c c2 = false).
  { intros c2. unfold is_space2.
    destruct (N.eqb_spec (code c) 194); [lia | reflexivity]. }
  assert (H3 : forall c2 c3, is_space3 c c2 c3 = false).
  { intros c2 c3. unfold is_space3.
    destruct (N.eqb_spec (code c) 225); [lia|].
    destruct (N.eqb_spec (code c) 226); [lia|].
    destruct (N.eqb_spec (code c) 227); [lia|].
    destruct (N.eqb_spec (code c) 239); [lia | reflexivity]. }
  destruct s as [|c2 [|c3 s3]]; rewrite ?H2, ?H3; reflexivity.
Qed.

(** Evaluates the digit under [digit_value] and the test against the
    radix. *)
Ltac read_digit :=
  cbn [NilEmpty.string_of_uint leading_digits];
  match goal with
  | |- context [digit_value ?c] =>
      let v := eval vm_compute in (digit_value c) in
      change (digit_value c) with v
  end;
  cbv iota beta;
  match goal with
  | |- context [(?d <? 10)%N] =>
      let v := eval vm_compute in (d <? 10)%N in
      change (d <? 10)%N with v
  end;
  cbv iota beta.

Lemma leading_digits_acc (d : uint) : forall p : positive,
  leading_digits 10 (NilEmpty.string_of_uint d) (Some (N.pos p))
  = Some (N.pos (Pos.of_uint_acc d p)).
Proof.
  induction d; intros p; [reflexivity | ..];
    read_digit; cbn [Pos.of_uint_acc];
    rewrite <- IHd; do 2 f_equal; lia.
Qed.

Lemma leading_digits_zero (d : uint) :
  leading_digits 10 (NilEmpty.string_of_uint d) (Some 0%N)
  = Some (Pos.of_uint d).
Proof.
  induction d; [reflexivity | ..]; read_digit; cbn [Pos.of_uint];
    try exact IHd; rewrite <- leading_digits_acc; reflexivity.
Qed.

Lemma leading_digits_uint (d : uint) :
  d <> Nil ->
  leading_digits 10 (NilEmpty.string_of_uint d) None = Some (Pos.of_uint d).
Proof.
  destruct d; intros Hd; [contradiction | ..]; read_digit;
    cbn [Pos.of_uint];
    try apply leading_digits_zero;
    rewrite <- leading_digits_acc; reflexivity.
Qed.

Lemma first_of_uint (d : uint) (c : ascii) :
  is_digit c = false -> first_is c (NilEmpty.string_of_uint d) = false.
Proof.
  intros Hc. destruct d; unfold first_is; cbn [NilEmpty.string_of_uint];
    try reflexivity; apply Ascii.eqb_neq; intros <-; discriminate.
Qed.

Lemma parseInt_positive (p : positive) (radix : option Z) :
  radix = None \/ radix = Some 10%Z ->
  parseInt (NilEmpty.string_of_uint (Pos.to_uint p)) radix
  = to_double (Z.pos p).
Proof.
  intros Hr.
  pose proof (DecimalPos.Unsigned.to_uint_nonnil p) as Hnn.
  pose proof (DecimalPos.Unsigned.of_to p) as Hof.
  pose proof (@leading_digits_uint (Pos.to_uint p) Hnn) as Hld.
  set (d := Pos.to_uint p) in *.
  assert (Htrim : trim_start (NilEmpty.string_of_uint d)
                  = NilEmpty.string_of_uint d).
  { destruct d; [contradiction | ..]; simpl NilEmpty.string_of_uint;
      (apply trim_start_plain; [vm_compute | ]; reflexivity). }
  assert (Hplus : first_is "+" (NilEmpty.string_of_uint d) = false)
    by (now apply first_of_uint).
  assert (Hminus : first_is "-" (NilEmpty.string_of_uint d) = false)
    by (now apply first_of_uint).
  assert (Hx : first_is "x" (rest (NilEmpty.string_of_uint d)) = false
               /\ first_is "X" (rest (NilEmpty.string_of_uint d)) = false).
  { destruct d; simpl; split; try reflexivity; now apply first_of_uint. }
  destruct Hx as [Hx HX].
  unfold parseInt. rewrite Htrim, Hplus, Hminus.
  destruct Hr as [-> | ->]; simpl negb; cbv zeta; simpl orb; simpl andb;
    rewrite ?Hx, ?HX, ?andb_false_r; simpl; rewrite Hld, Hof; reflexivity.
Qed.

End RoundTripFacts.

Module RoundTripFacts2.
Import Number ServerSpec RoundTripFacts.

Lemma parseInt_negative (p : positive) (radix : option Z) :
  radix = None \/ radix = Some 10%Z ->
  parseInt (String "-" (NilEmpty.string_of_uint (Pos.to_uint p))) radix
  = to_double (Z.neg p).
Proof.
  intros Hr.
  pose proof (DecimalPos.Unsigned.to_uint_nonnil p) as Hnn.
  pose proof (DecimalPos.Unsigned.of_to p) as Hof.
  pose proof (@leading_digits_uint (Pos.to_uint p) Hnn) as Hld.
  set (d := Pos.to_uint p) in *.
  assert (Htrim : trim_start (String "-" (NilEmpty.string_of_uint d))
                  = String "-" (NilEmpty.string_of_uint d)).
  { apply trim_start_plain; [vm_compute | ]; reflexivity. }
  assert (Hx : first_is "x" (rest (NilEmpty.string_of_uint d)) = false
               /\ first_is "X" (rest (NilEmpty.string_of_uint d)) = false).
  { destruct d; simpl; split; try reflexivity; now apply first_of_uint. }
  destruct Hx as [Hx HX].
  unfold parseInt. rewrite Htrim.
  change (first_is "-" (String "-" ?s)) with true.
  change (first_is "+" (String "-" ?s)) with false.
  change (rest (String "-" ?s)) with s.
  destruct Hr as [-> | ->]; simpl negb; cbv zeta; simpl orb; simpl andb;
    cbv iota;
    rewrite ?Hx, ?HX, ?andb_false_r; simpl; rewrite Hld, Hof; reflexivity.
Qed.

Lemma toString_uint (p : positive) :
  NilZero.string_of_uint (Pos.to_uint p)
  = NilEmpty.string_of_uint (Pos.to_uint p).
Proof.
  pose proof (DecimalPos.Unsigned.to_uint_nonnil p) as Hnn.
  unfold NilZero.string_of_uint.
  destruct (Pos.to_uint p); [contradiction | reflexivity ..].
Qed.

Lemma parseInt_toString (n : Z) (radix : option Z) :
  radix = None \/ radix = Some 10%Z ->
  parseInt (toString (Int n)) radix = to_double n.
Proof.
  intros Hr. destruct n as [|p|p]; cbn [toString Z.to_int NilZero.string_of_int].
  - destruct Hr as [-> | ->]; reflexivity.
  - rewrite toString_uint. now apply parseInt_positive.
  - rewrite toString_uint. now apply parseInt_negative.
Qed.

End RoundTripFacts2.

Section ServerProperties.
Import Orchestrator Number Server ServerSpec.
Local Open Scope list_scope.

(** X9.  [Number.parseInt] reads back the integer [toString] printed, with the
    radix 10 as with none, for the integers that 53 bits hold, which
    JavaScript represents exactly. *)
Theorem parseInt_inverts_toString (n : Z) (radix : option Z) :
  (Z.abs n < 2 ^ 53)%Z ->
  radix = None \/ radix = Some 10%Z ->
  parseInt (toString (Int n)) radix = Int n.
Proof.
  intros Hn Hr. rewrite (RoundTripFacts2.parseInt_toString n Hr).
  now apply NumberFacts.to_double_exact.
Qed.

Lemma parseInt_inverts_toString_witness :
  parseInt (toString (Int (-4096))) (Some 10%Z) = Int (-4096).
Proof.
  apply (@parseInt_inverts_toString (-4096) (Some 10%Z)).
  - simpl. lia.
  - right. reflexivity.
Defined.

(** Beyond 2^53 the numeral is rounded to the nearest number, to the even
    one of two that are as near. *)
Example parseInt_rounds :
  parseInt "9007199254740993" (Some 10%Z) = Int 9007199254740992
  /\ parseInt "-9007199254740995" (Some 10%Z) = Int (-9007199254740996)
  /\ parseInt "0x20000000000003" None = Int 9007199254740996.
Proof. vm_compute. repeat split. Qed.


(** A numeral of 310 digits is read as [Infinity], which is not [NaN]:
    the query is accepted, and the handler calls [getTile] on it, where
    it passes the guard and is looked up under the key
    ["Infinity-0-0"]. *)
Example validateTileParams_accepts_infinity :
  let nines := String.concat "" (repeat "9" 310) in
  validateTileParams (Some nines) (Some "0") (Some "0")
  = Valid Infinity (Int 0) (Int 0)
  /\ In (MemGet "Infinity-0-0")
       (trace (snd (serve env_without_s3 (LRUCache.new 200)
                      (Some nines) (Some "0") (Some "0")))).
Proof. vm_compute. split; [reflexivity | tauto]. Qed.

End ServerProperties.

Section HandlerProperties.
Import Orchestrator Number Server ServerSpec.
Local Open Scope list_scope.

(** X11.  The tile handler never throws, and it answers unless it waits for
    ever on the durable tier.  A query that [validateTileParams] rejects
    is answered 400 with the reason, no cache tier being read or written.
    Otherwise the answer is 200 with the bytes [getTile] returned, or,
    whatever [getTile] threw, 500 with the fixed text "Internal server
    error", the memory tier being as it was before the request.  No
    answer is given in one case only: the tile is not in the memory
    tier, the durable tier is enabled and its read never settles (the
    handler sets no timeout on it). *)
Theorem appmaptile_answers_unless_storage_hangs
    (env : Env) (c : LRUCache.t) (x y z : option string) :
  let r := serve env c x y z in
  match validateTileParams x y z with
  | Invalid error =>
      fst r = Return (c_json_error error 400)
      /\ tileCache (snd r) = c
      /\ untouched (trace (snd r)) = true
  | Valid xn yn zn =>
      let t := call env c (JsNumber xn) (JsNumber yn) (JsNumber zn) in
      match fst t with
      | Settled (Return buf) =>
          fst r = Return (new_Response buf 200
                            [("Content-Type", "image/png");
                             ("Cache-Control", "public, max-age=3600")])
          /\ tileCache (snd r) = tileCache (snd t)
      | Settled (Throw _) =>
          fst r = Return (c_json_error "Internal server error" 500)
          /\ tileCache (snd r) = c
      | NeverSettles =>
          fst r = NeverSettles
          /\ tileCache (snd r) = c
          /\ JsMap.get (LRUCache.cache c) (cacheKey xn yn zn) = None
          /\ s3Enabled env = true
          /\ s3_getTile env zn xn yn = S3Pending
      end
  end.
Proof.
  intros r. subst r. unfold serve, appmaptile.
  destruct (validateTileParams x y z) as [error|xn yn zn].
  - repeat split.
  - cbv zeta.
    pose proof (@TierFacts.call_failure env c (JsNumber xn) (JsNumber yn)
                  (JsNumber zn)) as Hfail.
    pose proof (TierFacts.call_on_numbers env c xn yn zn) as Hcall.
    cbv zeta in Hcall.
    unfold try_catch, bind, ret, logger, emit.
    change (getTile env (JsNumber xn) (JsNumber yn) (JsNumber zn)
              (mkWorld c []))
      with (call env c (JsNumber xn) (JsNumber yn) (JsNumber zn)).
    destruct (call env c (JsNumber xn) (JsNumber yn) (JsNumber zn))
      as [[[buf|e]|] w']; simpl in *.
    + split; reflexivity.
    + split; [reflexivity | now apply (Hfail e)].
    + destruct (JsMap.get (LRUCache.cache c) (cacheKey xn yn zn))
        as [cached|]; [destruct Hcall as (Hr & _); discriminate Hr|].
      destruct (s3Enabled env);
        [|destruct Hcall as (Hr & _); discriminate Hr].
      destruct (s3_getTile env zn xn yn) as [data| |msg|];
        destruct Hcall as (Hr & Hc & _); try discriminate Hr.
      repeat split. exact Hc.
Qed.

(** X12.  After [resetRenderLayer] the memory tier is empty, with the capacity
    it had, and the next request for any tile is not answered from it:
    the call goes on to the durable tier or to the origin (to the origin
    after the durable tier only when that has settled without a hit). *)
Theorem reset_empties_memory_tier
    (env : Env) (w : World) (xn yn zn : number) :
  let w1 := snd (resetRenderLayer w) in
  let r := call env (tileCache w1) (JsNumber xn) (JsNumber yn) (JsNumber zn) in
  fst (resetRenderLayer w) = Return tt
  /\ LRUCache.size (tileCache w1) = 0%nat
  /\ LRUCache.maxSize (tileCache w1) = LRUCache.maxSize (tileCache w)
  /\ tiers (trace (snd r))
     = Memory :: (if s3Enabled env then
                    match s3_getTile env zn xn yn with
                    | S3Found _ | S3Pending => [Durable]
                    | S3Null | S3ReadFails _ => [Durable; Origin]
                    end
                  else [Origin]).
Proof.
  intros w1 r. subst w1 r. repeat split.
  pose proof (TierFacts.call_on_numbers env
                (tileCache (snd (resetRenderLayer w))) xn yn zn) as H.
  cbv zeta in H. simpl JsMap.get in H.
  destruct (s3Enabled env).
  - destruct (s3_getTile env zn xn yn); destruct H as (_ & _ & Ht);
      exact Ht.
  - destruct H as (_ & _ & Ht). exact Ht.
Qed.

(** X13.  A tile served once is served from memory on the next request.
    After a request answered 200, every request whose parameters
    [validateTileParams] reads as the same numbers (the same numerals, or
    with leading zeros, white space, or text after the digits) is
    answered 200 with the same bytes from the memory tier alone, whatever
    the durable tier and the origin would answer by then. *)
Theorem appmaptile_repeats_from_memory
    (env env' : Env) (c : LRUCache.t) (x y z x' y' z' : option string)
    (buf : Buffer) (headers : list (string * string)) :
  fst (serve env c x y z) = Return (new_Response buf 200 headers) ->
  validateTileParams x' y' z' = validateTileParams x y z ->
  let r' := serve env' (tileCache (snd (serve env c x y z))) x' y' z' in
  fst r' = Return (new_Response buf 200 headers)
  /\ tiers (trace (snd r')) = [Memory].
Proof.
  intros Hserved Hsame r'. subst r'. revert Hserved.
  unfold serve, appmaptile. rewrite Hsame.
  destruct (validateTileParams x y z) as [error|xn yn zn];
    [discriminate|].
  unfold try_catch, bind, ret, logger, emit.
  change (getTile env (JsNumber xn) (JsNumber yn) (JsNumber zn)
            (mkWorld c []))
    with (call env c (JsNumber xn) (JsNumber yn) (JsNumber zn)).
  pose proof (@TierFacts.call_serves_again env env' c (JsNumber xn)
                (JsNumber yn) (JsNumber zn)) as Hagain.
  destruct (call env c (JsNumber xn) (JsNumber yn) (JsNumber zn))
    as [[[got|e]|] w1]; [|discriminate..].
  cbn [fst snd]. intros [= <- <-].
  destruct (Hagain got eq_refl) as [Hr Ht]. cbn [fst snd] in *.
  change (getTile env' (JsNumber xn) (JsNumber yn) (JsNumber zn)
            (mkWorld (tileCache w1) []))
    with (call env' (tileCache w1) (JsNumber xn) (JsNumber yn) (JsNumber zn)).
  destruct (call env' (tileCache w1) (JsNumber xn) (JsNumber yn)
              (JsNumber zn)) as [[[got'|e']|] w2]; cbn [fst snd] in *;
    [|discriminate..].
  injection Hr as ->. split; [reflexivity | exact Ht].
Qed.

Lemma appmaptile_repeats_from_memory_witness :
  let r' := serve env_with_failing_s3
              (tileCache (snd (serve env_without_s3 (LRUCache.new 200)
                                 (Some "100") (Some "200") (Some "10"))))
              (Some " 0100") (Some "+200") (Some "10px") in
  fst r' = Return (new_Response [x89; x50] 200
                     [("Content-Type", "image/png");
                      ("Cache-Control", "public, max-age=3600")])
  /\ tiers (trace (snd r')) = [Memory].
Proof.
  apply (@appmaptile_repeats_from_memory env_without_s3 env_with_failing_s3
           (LRUCache.new 200) (Some "100") (Some "200") (Some "10")
           (Some " 0100") (Some "+200") (Some "10px") [x89; x50]
           [("Content-Type", "image/png");
            ("Cache-Control", "public, max-age=3600")]).
  - reflexivity.
  - reflexivity.
Defined.

End HandlerProperties.

(** ** The storage *)

Module StorageFacts.
Import Storage.

Lemma or_else_nonempty (v : option string) (d : string) :
  d <> "" -> or_else v d <> "".
Proof. destruct v as [[|c s]|]; simpl; congruence. Qed.

Lemma or_else_truthy (v : option string) (d : string) :
  d <> "" -> truthy (Some (or_else v d)) = true.
Proof. destruct v as [[|c s]|], d; simpl; congruence. Qed.

Lemma new_prefix (b : string) (v : option string) (d : string) :
  d <> "" ->
  TileStorage.prefix (TileStorage.new b (Some (or_else v d))) = or_else v d.
Proof.
  intros Hd. unfold TileStorage.new. simpl.
  destruct (String.eqb_spec (or_else v d) ""); [|reflexivity].
  now elim (@or_else_nonempty v d Hd).
Qed.

End StorageFacts.

Section StorageProperties.
Import Storage.
Local Open Scope list_scope.

(** X14.  [createDefaultStorage] builds a storage exactly when an endpoint is
    set, or an access key and a secret both are (set and not empty).  The
    storage it builds has a bucket, a prefix and a region that are not
    empty.  Its client is given credentials exactly when the access key
    and the secret both are set, and then those two, never one alone; it
    is given an endpoint exactly when one is set, and path-style
    addressing with it. *)
Theorem createDefaultStorage_configuration (env : ProcessEnv) :
  match createDefaultStorage env with
  | None =>
      truthy (S3_ENDPOINT env) = false
      /\ (truthy (AWS_ACCESS_KEY_ID env) = false
          \/ truthy (AWS_SECRET_ACCESS_KEY env) = false)
  | Some st =>
      (truthy (S3_ENDPOINT env) = true
       \/ truthy (AWS_ACCESS_KEY_ID env) = true
          /\ truthy (AWS_SECRET_ACCESS_KEY env) = true)
      /\ TileStorage.bucket (fields st) <> ""
      /\ TileStorage.prefix (fields st) <> ""
      /\ client_region (client st) <> ""
      /\ (forall id secret : string,
             credentials (client st) = Some (id, secret)
             <-> AWS_ACCESS_KEY_ID env = Some id
                 /\ AWS_SECRET_ACCESS_KEY env = Some secret
                 /\ id <> "" /\ secret <> "")
      /\ (forall e : string,
             client_endpoint (client st) = Some e
             <-> S3_ENDPOINT env = Some e /\ e <> "")
      /\ forcePathStyle (client st)
         = match client_endpoint (client st) with
           | Some _ => true
           | None => false
           end
  end.
Proof.
  unfold createDefaultStorage.
  destruct (S3_ENDPOINT env) as [[|ce e]|];
    destruct (AWS_ACCESS_KEY_ID env) as [[|ck k]|];
    destruct (AWS_SECRET_ACCESS_KEY env) as [[|cs s]|];
    cbn [truthy orb andb negb];
    try (split; [reflexivity | tauto]);
    (split; [tauto|]);
    unfold construct;
    cbn [fields client bucket prefix region endpoint accessKeyId
         secretAccessKey];
    (split; [unfold TileStorage.new; cbn [TileStorage.bucket];
             now apply StorageFacts.or_else_nonempty|]);
    (split; [rewrite StorageFacts.new_prefix by discriminate;
             now apply StorageFacts.or_else_nonempty|]);
    (split; [unfold s3Config; cbn [client_region region];
             now apply StorageFacts.or_else_nonempty|]);
    unfold s3Config;
    cbn [credentials forcePathStyle client_endpoint accessKeyId
         secretAccessKey endpoint truthy andb];
    (split; [intros id secret; split;
             [intros H;
              (discriminate H
               || (injection H as <- <-; repeat split; discriminate))
             | intros (H1 & H2 & H3 & H4);
               try discriminate; try congruence] |]);
    (split; [intros e0; split;
             [intros H;
              (discriminate H
               || (injection H as <-; split; [reflexivity | discriminate]))
             | intros (H1 & H2); try discriminate; try congruence]
            | reflexivity]).
Qed.

(** X15.  What [/cache-stats] reports about the storage is what the storage was
    built with: it says the storage is enabled exactly when
    [createDefaultStorage] built one, and then the bucket, the prefix and
    the region it names are those of that storage and of its client. *)
Theorem cache_stats_reports_storage (env : ProcessEnv) :
  cache_stats_s3 env
  = match createDefaultStorage env with
    | Some st =>
        (true,
         Some (mkS3Stats (TileStorage.bucket (fields st))
                         (TileStorage.prefix (fields st))
                         (client_region (client st))))
    | None => (false, None)
    end.
Proof.
  unfold cache_stats_s3, s3Enabled, createDefaultStorage.
  destruct (negb _); [reflexivity|].
  unfold construct. cbn [fields client bucket prefix region].
  rewrite StorageFacts.new_prefix by discriminate. reflexivity.
Qed.

End StorageProperties.

Module StreamFacts.
Import Storage.
Local Open Scope list_scope.

Lemma read_stream_data (chunks : list Buffer) (later : list stream_event) :
  forall before : list Buffer,
    read_stream (map on_data chunks ++ later) before
    = read_stream later (before ++ chunks).
Proof.
  induction chunks as [|chunk chunks IH]; intros before; simpl.
  - now rewrite app_nil_r.
  - rewrite IH, <- app_assoc. reflexivity.
Qed.

End StreamFacts.

Section StorageReads.
Import Storage.
Local Open Scope list_scope.

(** X16.  What [TileStorage.getTile] answers.  When the body stream delivers
    chunks and ends, the answer is the chunks joined in order, and what
    the stream emits after its end is ignored.  An error of the stream is
    thrown, whatever its name.  A response without a body is [null], and
    so is a request the client rejects with an error named NoSuchKey or
    NotFound; a rejection under any other name is thrown. *)
Theorem storage_getTile_outcomes
    (send : command -> sent) (this : TileStorage.t) (z x y : number)
    (format : option string) :
  let request :=
    GetObjectCommand (TileStorage.bucket this)
      (TileStorage.getTileKey this z x y (format_or_png format)) in
  let answer := getTile send this z x y format in
  (forall (chunks : list Buffer) (later : list stream_event),
      send request = Fulfilled (Some (map on_data chunks ++ on_end :: later)) ->
      answer = Returns (Some (List.concat chunks)))
  /\ (forall (chunks : list Buffer) (e : S3Error) (later : list stream_event),
         send request
         = Fulfilled (Some (map on_data chunks ++ on_error e :: later)) ->
         answer = Throws e)
  /\ (forall chunks : list Buffer,
         send request = Fulfilled (Some (map on_data chunks)) ->
         answer = Pending)
  /\ (send request = Fulfilled None -> answer = Returns None)
  /\ (forall e : S3Error,
         send request = Rejected e ->
         answer = if String.eqb (name e) "NoSuchKey"
                     || String.eqb (name e) "NotFound"
                  then Returns None else Throws e).
Proof.
  intros request answer. subst request answer. unfold getTile.
  repeat split.
  - intros chunks later ->. now rewrite StreamFacts.read_stream_data.
  - intros chunks e later ->. now rewrite StreamFacts.read_stream_data.
  - intros chunks ->.
    rewrite <- (app_nil_r (map on_data chunks)).
    now rewrite StreamFacts.read_stream_data.
  - now intros ->.
  - now intros e ->.
Qed.

End StorageReads.

(** ** The spherical Mercator projection *)

Module MercatorFacts.
Import Js MercatorReal.
Local Open Scope R_scope.

Lemma RAD_PER_DEG_pos : 0 < RAD_PER_DEG.
Proof. unfold RAD_PER_DEG. pose proof PI_RGT_0. lra. Qed.

Lemma clampLat_bounds (lat : R) :
  - MAX_LATITUDE <= clampLat lat <= MAX_LATITUDE.
Proof.
  unfold clampLat, MAX_LATITUDE. split.
  - apply Rmax_r.
  - apply Rmax_lub; [apply Rmin_l | lra].
Qed.

Lemma clampLat_id (lat : R) :
  - MAX_LATITUDE <= lat <= MAX_LATITUDE -> clampLat lat = lat.
Proof.
  unfold clampLat, MAX_LATITUDE. intros H.
  rewrite Rmin_right by lra. apply Rmax_left. lra.
Qed.

(** The clamped latitude is short of the poles, in radians. *)
Lemma clamped_angle (lat : R) :
  - (PI / 2) < clampLat lat * RAD_PER_DEG < PI / 2.
Proof.
  pose proof (clampLat_bounds lat) as H. unfold MAX_LATITUDE in H.
  pose proof PI_RGT_0 as Hpi. unfold RAD_PER_DEG.
  split.
  - apply Rlt_le_trans with (- 85.0511287798 * (PI / 180)); [lra|].
    apply Rmult_le_compat_r; lra.
  - apply Rle_lt_trans with (85.0511287798 * (PI / 180)); [|lra].
    apply Rmult_le_compat_r; lra.
Qed.

(** Short of the poles the sine is neither 1 nor -1. *)
Lemma sin_strict (a : R) : - (PI / 2) < a < PI / 2 -> -1 < sin a < 1.
Proof.
  intros Ha.
  assert (Hc : 0 < cos a) by (apply cos_gt_0; lra).
  pose proof (sin2_cos2 a) as H. unfold Rsqr in H.
  assert (Hs : sin a * sin a < 1) by nra.
  split; nra.
Qed.

Lemma tan_sqr (a : R) :
  cos a <> 0 ->
  tan a * tan a = (1 - cos (2 * a)) / (1 + cos (2 * a)).
Proof.
  intros Hc.
  replace (1 - cos (2 * a)) with (2 * sin a * sin a)
    by (rewrite cos_2a_sin; ring).
  replace (1 + cos (2 * a)) with (2 * cos a * cos a)
    by (rewrite cos_2a_cos; ring).
  unfold tan. field. exact Hc.
Qed.


Lemma angle_of_log_ratio (a : R) :
  - (PI / 2) < a < PI / 2 ->
  2 * atan (exp (ln ((1 + sin a) / (1 - sin a)) / 2)) - PI / 2 = a.
Proof.
  intros Ha.
  pose proof (sin_strict Ha) as Hs.
  set (b := PI / 4 + a / 2).
  assert (Hb : 0 < b < PI / 2) by (subst b; lra).
  assert (Hc : 0 < cos b) by (apply cos_gt_0; lra).
  assert (Ht : 0 < tan b) by (apply tan_gt_0; lra).
  assert (E2 : cos (2 * b) = - sin a).
  { replace (2 * b) with (PI / 2 + a) by (subst b; field).
    rewrite cos_plus, cos_PI2, sin_PI2. ring. }
  assert (Hsq : tan b * tan b = (1 + sin a) / (1 - sin a)).
  { rewrite (@tan_sqr b) by lra. rewrite E2. f_equal; ring. }
  rewrite <- Hsq, ln_mult by exact Ht.
  replace ((ln (tan b) + ln (tan b)) / 2) with (ln (tan b)) by field.
  rewrite exp_ln by exact Ht.
  rewrite atan_tan by lra. subst b. field.
Qed.

End MercatorFacts.

Module MercatorCode.
Import Js MercatorReal MercatorFacts.
Local Open Scope R_scope.
Local Open Scope list_scope.





End MercatorCode.

Module MercatorFacts2.
Import Js MercatorReal MercatorFacts.
Local Open Scope R_scope.



Lemma inverseLat_forwardY (lat : R) : inverseLat (forwardY lat) = clampLat lat.
Proof.
  unfold inverseLat, forwardY. pose proof RAD_PER_DEG_pos as Hr.
  pose proof (angle_of_log_ratio (clamped_angle lat)) as H.
  set (L := ln _) in *.
  replace (RADIUS * L / 2 / RADIUS) with (L / 2) by (unfold RADIUS; field).
  rewrite H. field. lra.
Qed.

Lemma inverseLat_increasing (y1 y2 : R) :
  y1 <= y2 -> inverseLat y1 <= inverseLat y2.
Proof.
  intros [Hlt| ->]; [|lra]. unfold inverseLat.
  pose proof RAD_PER_DEG_pos as Hr.
  assert (H : atan (exp (y1 / RADIUS)) < atan (exp (y2 / RADIUS))).
  { apply atan_increasing, exp_increasing. unfold RADIUS.
    apply Rmult_lt_compat_r; [|exact Hlt]. apply Rinv_0_lt_compat. lra. }
  apply Rmult_le_compat_r; [|lra].
  apply Rlt_le, Rinv_0_lt_compat, Hr.
Qed.



Lemma inverseLon_negative (x : R) : x < 0 -> inverseLon x < 0.
Proof.
  intros Hx. unfold inverseLon. pose proof RAD_PER_DEG_pos as Hr.
  assert (Hi : 0 < / RADIUS) by (apply Rinv_0_lt_compat; unfold RADIUS; lra).
  assert (Hj : 0 < / RAD_PER_DEG) by (now apply Rinv_0_lt_compat).
  unfold Rdiv.
  assert (H : 0 < - x * / RADIUS) by (apply Rmult_lt_0_compat; lra).
  assert (H' : 0 < - x * / RADIUS * / RAD_PER_DEG)
    by (apply Rmult_lt_0_compat; lra).
  lra.
Qed.



(** The projected range contains the equator. *)
Lemma forwardY_range_sign :
  forwardY (- MAX_LATITUDE) <= 0 <= forwardY MAX_LATITUDE.
Proof.
  assert (Hmono : forall y, inverseLat y <= inverseLat 0 -> y <= 0
                            \/ inverseLat y = inverseLat 0).
  { intros y Hy. destruct (Rle_or_lt y 0) as [H|H]; [now left|].
    right. apply Rle_antisym; [exact Hy|].
    apply inverseLat_increasing. lra. }
  assert (H0 : inverseLat 0 = 0).
  { unfold inverseLat. replace (0 / RADIUS) with 0 by (unfold RADIUS; field).
    rewrite exp_0, atan_1. pose proof RAD_PER_DEG_pos. field. lra. }
  assert (Hstrict : forall y1 y2, inverseLat y1 < inverseLat y2 -> y1 < y2).
  { intros y1 y2 Hlt. destruct (Rlt_or_le y1 y2) as [H|H]; [exact H|].
    apply inverseLat_increasing in H. lra. }
  split; apply Rlt_le, Hstrict; rewrite inverseLat_forwardY, H0;
    rewrite clampLat_id by (unfold MAX_LATITUDE; lra);
    unfold MAX_LATITUDE; lra.
Qed.

End MercatorFacts2.

Section MercatorProperties.
Import Js MercatorReal.
Local Open Scope R_scope.
Local Open Scope list_scope.







End MercatorProperties.

(** ** The offset, in both directions *)

Section OffsetProperties.
Import Js.
Local Open Scope R_scope.
Local Open Scope list_scope.

(** X20.  Inside the region the offset is small: each of the four transforms
    moves a point by at most 0.0175 degrees in longitude and 0.0096
    degrees in latitude, and yields finite numbers. *)
Theorem gcj02_offset_is_bounded
    (transform : array -> output_arg -> option nat -> option array)
    (lon lat : R) :
  In transform [V1.gcj02.toWGS84; V1.gcj02.fromWGS84;
                V2.gcj02.toWGS84; V2.gcj02.fromWGS84] ->
  in_region lon lat ->
  exists lon' lat' : R,
    transform [Num lon; Num lat] Omitted None = Some [Num lon'; Num lat']
    /\ Rabs (lon' - lon) <= 0.0175 /\ Rabs (lat' - lat) <= 0.0096.
Proof.
  intros Hin [Hlon Hlat].
  destruct (@inside_point_shifted lon lat Hlon Hlat) as (H1 & H2 & H3 & H4).
  pose proof (OffsetBounds.dLonR_bound Hlon Hlat) as Hd.
  pose proof (OffsetBounds.dLatR_bound Hlon Hlat) as Hd'.
  simpl in Hin.
  destruct Hin as [<-|[<-|[<-|[<-|[]]]]];
    [rewrite H1 | rewrite H2 | rewrite H3 | rewrite H4];
    eexists _, _; (split; [reflexivity|]); split; apply Rabs_le; lra.
Qed.

Lemma gcj02_offset_is_bounded_witness :
  exists lon' lat' : R,
    V1.gcj02.fromWGS84 [Num 116.3975; Num 39.9087] Omitted None
    = Some [Num lon'; Num lat']
    /\ Rabs (lon' - 116.3975) <= 0.0175 /\ Rabs (lat' - 39.9087) <= 0.0096.
Proof.
  apply (@gcj02_offset_is_bounded V1.gcj02.fromWGS84 116.3975 39.9087).
  - simpl. right. left. reflexivity.
  - unfold in_region. lra.
Defined.

(** X21.  Each of the four transforms is undone by its partner within 0.0002
    degrees, in both coordinates, on the points of the region that it
    moves to a point of the region. *)
Theorem gcj02_partner_undoes_within
    (first second : array -> output_arg -> option nat -> option array)
    (lon lat lon1 lat1 : R) :
  In (first, second) gcj02_pairs ->
  in_region lon lat ->
  first [Num lon; Num lat] Omitted None = Some [Num lon1; Num lat1] ->
  in_region lon1 lat1 ->
  exists lon2 lat2 : R,
    and_then first second [Num lon; Num lat] = Some [Num lon2; Num lat2]
    /\ Rabs (lon2 - lon) <= 0.0002 /\ Rabs (lat2 - lat) <= 0.0002.
Proof.
  intros Hin [Hlon Hlat] Hfirst [Hlon1 Hlat1].
  destruct (@inside_point_shifted lon lat Hlon Hlat) as (H1 & H2 & H3 & H4).
  destruct (@inside_point_shifted lon1 lat1 Hlon1 Hlat1)
    as (K1 & K2 & K3 & K4).
  pose proof (OffsetBounds.dLonR_bound Hlon Hlat) as Hd.
  pose proof (OffsetBounds.dLatR_bound Hlon Hlat) as Hd'.
  assert (Hclose : -0.0175 <= lon1 - lon <= 0.0175 ->
                   -0.0096 <= lat1 - lat <= 0.0096 ->
                   -0.0002 <= Gcj02Real.dLonR lon1 lat1
                              - Gcj02Real.dLonR lon lat <= 0.0002
                   /\ -0.0002 <= Gcj02Real.dLatR lon1 lat1
                                 - Gcj02Real.dLatR lon lat <= 0.0002).
  { intros Hx Hy. split.
    - exact (@OffsetBounds.dLonR_close lon1 lat1 lon lat
               Hlon1 Hlat1 Hlon Hlat Hx Hy).
    - exact (@OffsetBounds.dLatR_close lon1 lat1 lon lat
               Hlon1 Hlat1 Hlon Hlat Hx Hy). }
  unfold and_then. rewrite Hfirst. simpl in Hin.
  destruct Hin as [E|[E|[E|[E|[]]]]]; injection E as <- <-;
    [rewrite H1 in Hfirst; rewrite K2
    | rewrite H2 in Hfirst; rewrite K1
    | rewrite H3 in Hfirst; rewrite K4
    | rewrite H4 in Hfirst; rewrite K3];
    injection Hfirst as E1 E2;
    (destruct Hclose as [C1 C2]; [lra | lra |]);
    eexists _, _; (split; [reflexivity|]); split; apply Rabs_le; lra.
Qed.

Lemma gcj02_partner_undoes_within_witness :
  exists lon2 lat2 : R,
    and_then V2.gcj02.fromWGS84 V2.gcj02.toWGS84
      [Num 116.3975; Num 39.9087] = Some [Num lon2; Num lat2]
    /\ Rabs (lon2 - 116.3975) <= 0.0002 /\ Rabs (lat2 - 39.9087) <= 0.0002.
Proof.
  assert (Hin : in_region 116.3975 39.9087) by (unfold in_region; lra).
  destruct Hin as [Hlon Hlat].
  destruct (@inside_point_shifted 116.3975 39.9087 Hlon Hlat)
    as (_ & _ & _ & H4).
  pose proof (OffsetBounds.dLonR_bound Hlon Hlat).
  pose proof (OffsetBounds.dLatR_bound Hlon Hlat).
  apply (@gcj02_partner_undoes_within V2.gcj02.fromWGS84 V2.gcj02.toWGS84
           116.3975 39.9087
           (116.3975 - Gcj02Real.dLonR 116.3975 39.9087)
           (39.9087 - Gcj02Real.dLatR 116.3975 39.9087)).
  - simpl. tauto.
  - split; assumption.
  - exact H4.
  - unfold in_region. lra.
Defined.

End OffsetProperties.

(** ** The points of an array *)

Module LoopFacts.
Import Js.
Local Open Scope list_scope.

Lemma length_aset (a : array) : forall (i : nat) (v : num),
  List.length (aset a i v) = Nat.max (List.length a) (S i).
Proof.
  induction a as [|x a IH]; intros i v.
  - induction i as [|i IHi]; simpl; [reflexivity|].
    simpl in IHi. now rewrite IHi.
  - destruct i as [|i]; simpl; [|now rewrite IH].
    destruct (List.length a); reflexivity.
Qed.

Lemma array_ext (a b : array) :
  List.length a = List.length b ->
  (forall i, (i < List.length a)%nat -> aget a i = aget b i) ->
  a = b.
Proof.
  intros Hlen Hget. apply (nth_ext a b Undefined Undefined Hlen Hget).
Qed.

Lemma point_transforms_pointwise (func : PointTransform) :
  In func point_transforms -> pointwise func.
Proof.
  unfold point_transforms. simpl.
  intros [<-|[<-|[<-|[<-|[<-|[<-|[<-|[<-|[]]]]]]]]].
  - exists (fun lng lat =>
              if negb (V1.outOfChina lng lat)
              then (sub lng (fst (V1.delta lng lat)),
                    sub lat (snd (V1.delta lng lat)))
              else (lng, lat)).
    intros input output offset. unfold V1.gcj02.toWGS84_point. cbv zeta.
    destruct (negb _); reflexivity.
  - exists (fun lng lat =>
              if negb (V1.outOfChina lng lat)
              then (add lng (fst (V1.delta lng lat)),
                    add lat (snd (V1.delta lng lat)))
              else (lng, lat)).
    intros input output offset. unfold V1.gcj02.fromWGS84_point. cbv zeta.
    destruct (negb _); reflexivity.
  - exists (fun lng lat =>
              let clamped := Math_max (Math_min V1.SPHERICAL_MERCATOR_CONSTANTS.MAX_LATITUDE lat) (neg V1.SPHERICAL_MERCATOR_CONSTANTS.MAX_LATITUDE) in
              let sin := Math_sin (mul clamped V1.SPHERICAL_MERCATOR_CONSTANTS.RAD_PER_DEG) in
              (mul (mul V1.SPHERICAL_MERCATOR_CONSTANTS.RADIUS lng) V1.SPHERICAL_MERCATOR_CONSTANTS.RAD_PER_DEG,
               div (mul V1.SPHERICAL_MERCATOR_CONSTANTS.RADIUS
                      (Math_log (div (add (Num 1) sin) (sub (Num 1) sin))))
                   (Num 2))).
    intros input output offset. reflexivity.
  - exists (fun x y =>
              (div (div x V1.SPHERICAL_MERCATOR_CONSTANTS.RADIUS) V1.SPHERICAL_MERCATOR_CONSTANTS.RAD_PER_DEG,
               div (sub (mul (Num 2) (Math_atan (Math_exp (div y V1.SPHERICAL_MERCATOR_CONSTANTS.RADIUS))))
                        (div Math_PI (Num 2)))
                   V1.SPHERICAL_MERCATOR_CONSTANTS.RAD_PER_DEG)).
    intros input output offset. reflexivity.
  - exists (fun lng lat =>
              if negb (V2.outOfChina lng lat)
              then (add lng (fst (V2.delta lng lat)),
                    add lat (snd (V2.delta lng lat)))
              else (lng, lat)).
    intros input output offset. unfold V2.gcj02.toWGS84_point. cbv zeta.
    destruct (negb _); reflexivity.
  - exists (fun lng lat =>
              if negb (V2.outOfChina lng lat)
              then (sub lng (fst (V2.delta lng lat)),
                    sub lat (snd (V2.delta lng lat)))
              else (lng, lat)).
    intros input output offset. unfold V2.gcj02.fromWGS84_point. cbv zeta.
    destruct (negb _); reflexivity.
  - exists (fun lng lat =>
              let clamped := Math_max (Math_min V2.MAX_LATITUDE lat) (neg V2.MAX_LATITUDE) in
              let sin := Math_sin (mul clamped V2.RAD_PER_DEG) in
              (mul (mul V2.RADIUS lng) V2.RAD_PER_DEG,
               div (mul V2.RADIUS
                      (Math_log (div (add (Num 1) sin) (sub (Num 1) sin))))
                   (Num 2))).
    intros input output offset. reflexivity.
  - exists (fun x y =>
              (div (div x V2.RADIUS) V2.RAD_PER_DEG,
               div (sub (mul (Num 2) (Math_atan (Math_exp (div y V2.RADIUS))))
                        (div Math_PI (Num 2)))
                   V2.RAD_PER_DEG)).
    intros input output offset. reflexivity.
Qed.

End LoopFacts.

Module LoopFacts2.
Import Js LoopFacts.
Local Open Scope list_scope.

(** Run in place, the loop reads at each point what the input held
    there: the points before it have written other slots. *)
Lemma in_place_reads_input (func : PointTransform) (len dimension : nat)
    (input : array) :
  pointwise func -> (2 <= dimension)%nat ->
  forall (fuel offset : nat) (cur : array),
    (forall i, (offset <= i)%nat -> aget cur i = aget input i) ->
    for_offsets fuel func true len dimension offset cur cur
    = for_offsets fuel func false len dimension offset input cur.
Proof.
  intros [f Hf] Hdim.
  induction fuel as [|fuel IH]; intros offset cur Hcur; simpl;
    destruct (Nat.ltb offset len); try reflexivity.
  assert (E : func cur cur offset = func input cur offset).
  { rewrite !Hf, !Hcur by lia. reflexivity. }
  rewrite E. apply IH. intros i Hi. rewrite Hf.
  rewrite !JsFacts.aget_aset_other by lia. apply Hcur. lia.
Qed.

(** With dimension 2 every slot of the result is written: the result
    does not depend on what the output held. *)
Lemma fresh_output_immaterial (func : PointTransform) (len : nat)
    (input : array) :
  pointwise func ->
  forall (fuel offset : nat) (out1 out2 : array),
    List.length out1 = List.length out2 ->
    (List.length out1 <= Nat.max len offset)%nat ->
    (forall i, (i < offset)%nat -> aget out1 i = aget out2 i) ->
    for_offsets fuel func false len 2 offset input out1
    = for_offsets fuel func false len 2 offset input out2.
Proof.
  intros [f Hf].
  induction fuel as [|fuel IH]; intros offset out1 out2 Hlen Hmax Hagree;
    simpl; destruct (Nat.ltb_spec offset len); try reflexivity.
  - f_equal. apply array_ext; [exact Hlen|]. intros i Hi. apply Hagree. lia.
  - apply IH.
    + rewrite !Hf, !length_aset. lia.
    + rewrite Hf, !length_aset. lia.
    + intros i Hi. rewrite !Hf, !JsFacts.aget_aset.
      destruct (Nat.eqb_spec (offset + 1) i); [reflexivity|].
      destruct (Nat.eqb_spec offset i); [reflexivity|].
      apply Hagree. lia.
  - f_equal. apply array_ext; [exact Hlen|]. intros i Hi. apply Hagree. lia.
Qed.

Lemma run_points_in_place (func : PointTransform) (dimension : nat)
    (input : array) :
  pointwise func -> dimension <> 1%nat ->
  run_points func dimension input InPlace
  = run_points func dimension input Omitted.
Proof.
  intros Hf Hd. unfold run_points, slice.
  destruct dimension as [|[|d]]; [|contradiction|].
  - (* the offset never advances *)
    destruct input as [|x input]; [reflexivity|].
    rewrite !JsFacts.for_offsets_stuck by (simpl; lia). reflexivity.
  - rewrite (@in_place_reads_input func (List.length input) (S (S d)) input
               Hf ltac:(lia)) by reflexivity.
    destruct (Nat.eqb_spec (S (S d)) 2) as [E|E]; [|reflexivity].
    rewrite E. apply fresh_output_immaterial; try assumption.
    + unfold Array_from_length. now rewrite repeat_length.
    + lia.
    + intros i Hi. lia.
Qed.

Lemma built_in_place
    (transform : array -> output_arg -> option nat -> option array)
    (input : array) (opt_dimension : option nat) :
  In transform built_transforms ->
  opt_dimension <> Some 1%nat ->
  transform input InPlace opt_dimension
  = transform input Omitted opt_dimension.
Proof.
  intros Hin Hd. unfold built_transforms in Hin. simpl in Hin.
  destruct Hin as [<-|[<-|[<-|[<-|[<-|[<-|[<-|[<-|[]]]]]]]]];
    apply run_points_in_place;
    try (apply LoopFacts.point_transforms_pointwise;
         unfold point_transforms; simpl; tauto);
    destruct opt_dimension as [[|[|d]]|]; congruence.
Qed.

Lemma built_returns
    (transform : array -> output_arg -> option nat -> option array)
    (input : array) (opt_output : output_arg) (opt_dimension : option nat) :
  In transform built_transforms ->
  opt_dimension <> Some 0%nat ->
  exists result, transform input opt_output opt_dimension = Some result.
Proof.
  intros Hin Hd. unfold built_transforms in Hin. simpl in Hin.
  destruct Hin as [<-|[<-|[<-|[<-|[<-|[<-|[<-|[<-|[]]]]]]]]];
    (apply JsFacts.forEachPoint_returns
     || now apply JsFacts.forEachPoint2_returns).
Qed.

End LoopFacts2.

Section InPlaceProperties.
Import Js.
Local Open Scope list_scope.

(** X22.  A transform may be handed its input as output.  Each transform built
    by [forEachPoint], called with the input array as output array,
    leaves in it what a call without output array returns, for every
    array and every dimension but 1 (with which a point overlaps the
    next). *)
Theorem transforms_in_place_agree
    (transform : array -> output_arg -> option nat -> option array)
    (input : array) (opt_dimension : option nat) :
  In transform built_transforms ->
  opt_dimension <> Some 1%nat ->
  transform input InPlace opt_dimension
  = transform input Omitted opt_dimension.
Proof. exact (@LoopFacts2.built_in_place transform input opt_dimension). Qed.

Lemma transforms_in_place_agree_witness :
  V1.sphericalMercator.inverse [Num 12958000; Num 4852000; Num 7] InPlace
    (Some 3%nat)
  = V1.sphericalMercator.inverse [Num 12958000; Num 4852000; Num 7] Omitted
      (Some 3%nat).
Proof.
  apply (@transforms_in_place_agree V1.sphericalMercator.inverse
           [Num 12958000; Num 4852000; Num 7] (Some 3%nat)).
  - simpl. tauto.
  - discriminate.
Defined.

End InPlaceProperties.

Module LoopFacts3.
Import Js LoopFacts.
Local Open Scope list_scope.

(** The loop leaves the slots below its offset as they are. *)
Lemma for_offsets_below (func : PointTransform) (len dimension : nat)
    (input : array) :
  pointwise func ->
  forall (fuel offset : nat) (output result : array),
    for_offsets fuel func false len dimension offset input output
    = Some result ->
    forall i, (i < offset)%nat -> aget result i = aget output i.
Proof.
  intros [f Hf].
  induction fuel as [|fuel IH]; intros offset output result; simpl;
    destruct (Nat.ltb_spec offset len); try discriminate;
    try (intros [= <-]; reflexivity).
  intros Hrun i Hi. rewrite (IH _ _ _ Hrun i) by lia.
  rewrite Hf, !JsFacts.aget_aset_other by lia. reflexivity.
Qed.

(** Each point of the result is computed from the same point of the
    input. *)
Lemma for_offsets_points (func : PointTransform)
    (f : num -> num -> num * num) (len dimension : nat) (input : array) :
  (forall input output offset,
      func input output offset
      = aset (aset output offset
                (fst (f (aget input offset) (aget input (offset + 1)))))
             (offset + 1)
             (snd (f (aget input offset) (aget input (offset + 1))))) ->
  (2 <= dimension)%nat ->
  forall (fuel offset : nat) (output result : array),
    for_offsets fuel func false len dimension offset input output
    = Some result ->
    forall k, (offset + k * dimension < len)%nat ->
      aget result (offset + k * dimension)
      = fst (f (aget input (offset + k * dimension))
               (aget input (offset + k * dimension + 1)))
      /\ aget result (offset + k * dimension + 1)
         = snd (f (aget input (offset + k * dimension))
                  (aget input (offset + k * dimension + 1))).
Proof.
  intros Hf Hdim.
  assert (Hpw : pointwise func) by (exists f; exact Hf).
  induction fuel as [|fuel IH]; intros offset output result; simpl;
    destruct (Nat.ltb_spec offset len); try discriminate.
  - intros _ k Hk. lia.
  - intros Hrun [|k] Hk.
    + rewrite Nat.mul_0_l, Nat.add_0_r.
      rewrite !(@for_offsets_below func len dimension input Hpw _ _ _ _ Hrun)
        by lia.
      rewrite Hf, !JsFacts.aget_aset, Nat.eqb_refl.
      destruct (Nat.eqb_spec (offset + 1) offset); [lia|].
      now rewrite Nat.eqb_refl.
    + replace (offset + S k * dimension)%nat
        with (offset + dimension + k * dimension)%nat by (simpl; lia).
      apply (IH _ _ _ Hrun). simpl in Hk. lia.
  - intros _ k Hk. lia.
Qed.

Lemma single_point (func : PointTransform) (f : num -> num -> num * num)
    (a b : num) :
  (forall input output offset,
      func input output offset
      = aset (aset output offset
                (fst (f (aget input offset) (aget input (offset + 1)))))
             (offset + 1)
             (snd (f (aget input offset) (aget input (offset + 1))))) ->
  run_points func 2 [a; b] Omitted = Some [fst (f a b); snd (f a b)].
Proof.
  intros Hf. unfold run_points.
  cbn [List.length Nat.eqb for_offsets Nat.ltb Nat.leb Nat.add].
  rewrite Hf. reflexivity.
Qed.

Lemma run_points_points (func : PointTransform) (dimension : nat)
    (input : array) :
  pointwise func -> (2 <= dimension)%nat ->
  exists result,
    run_points func dimension input Omitted = Some result
    /\ forall k, (k * dimension < List.length input)%nat ->
         run_points func 2
           [aget input (k * dimension); aget input (k * dimension + 1)]
           Omitted
         = Some [aget result (k * dimension);
                 aget result (k * dimension + 1)].
Proof.
  intros [f Hf] Hdim.
  destruct (@JsFacts.run_points_total func dimension input Omitted
              ltac:(lia)) as [result Hrun].
  exists result. split; [exact Hrun|]. intros k Hk.
  unfold run_points in Hrun.
  destruct (@for_offsets_points func f (List.length input) dimension input
              Hf Hdim _ _ _ _ Hrun k Hk) as [H0 H1].
  simpl in H0, H1. rewrite H0, H1. now apply single_point.
Qed.

End LoopFacts3.

Section PointwiseProperties.
Import Js.
Local Open Scope list_scope.

(** X23.  A transform works point by point.  On an array of points of
    dimension [d], every transform built by [forEachPoint] gives each
    point the two coordinates it gives that point alone: slots [k * d]
    and [k * d + 1] of the result are what the transform returns for the
    two-element array of slots [k * d] and [k * d + 1] of the input. *)
Theorem transforms_act_point_by_point
    (transform : array -> output_arg -> option nat -> option array)
    (input : array) (opt_dimension : option nat) (d : nat) :
  In transform built_transforms ->
  opt_dimension = None /\ d = 2%nat
  \/ opt_dimension = Some d /\ (2 <= d)%nat ->
  exists result,
    transform input Omitted opt_dimension = Some result
    /\ forall k, (k * d < List.length input)%nat ->
         transform [aget input (k * d); aget input (k * d + 1)] Omitted None
         = Some [aget result (k * d); aget result (k * d + 1)].
Proof.
  intros Hin Hd. unfold built_transforms in Hin. simpl in Hin.
  assert (Hres : forall func,
             In func point_transforms ->
             exists result,
               run_points func d input Omitted = Some result
               /\ forall k, (k * d < List.length input)%nat ->
                    run_points func 2
                      [aget input (k * d); aget input (k * d + 1)] Omitted
                    = Some [aget result (k * d); aget result (k * d + 1)]).
  { intros func Hfunc. apply LoopFacts3.run_points_points.
    - now apply LoopFacts.point_transforms_pointwise.
    - destruct Hd as [[_ ->]|[_ Hd]]; lia. }
  assert (Hdim1 : match opt_dimension with
                  | Some (S n) => S n
                  | _ => 2%nat
                  end = d).
  { destruct Hd as [[-> ->]|[-> Hd]]; [reflexivity|].
    destruct d; [lia | reflexivity]. }
  assert (Hdim2 : match opt_dimension with
                  | Some n => n
                  | None => 2%nat
                  end = d).
  { destruct Hd as [[-> ->]|[-> Hd]]; reflexivity. }
  destruct Hin as [<-|[<-|[<-|[<-|[<-|[<-|[<-|[<-|[]]]]]]]]];
    unfold V1.gcj02.toWGS84, V1.gcj02.fromWGS84,
      V1.sphericalMercator.forward, V1.sphericalMercator.inverse,
      V2.gcj02.toWGS84, V2.gcj02.fromWGS84,
      V2.sphericalMercator.forward, V2.sphericalMercator.inverse,
      V1.forEachPoint, V2.forEachPoint;
    rewrite ?Hdim1, ?Hdim2;
    apply Hres; unfold point_transforms; simpl; tauto.
Qed.

Lemma transforms_act_point_by_point_witness :
  exists result,
    V2.sphericalMercator.forward
      [Num 116.4; Num 39.9; Num (-74.0); Num 40.7] Omitted None
    = Some result
    /\ forall k, (k * 2 < 4)%nat ->
         V2.sphericalMercator.forward
           [aget [Num 116.4; Num 39.9; Num (-74.0); Num 40.7] (k * 2);
            aget [Num 116.4; Num 39.9; Num (-74.0); Num 40.7] (k * 2 + 1)]
           Omitted None
         = Some [aget result (k * 2); aget result (k * 2 + 1)].
Proof.
  apply (@transforms_act_point_by_point V2.sphericalMercator.forward
           [Num 116.4; Num 39.9; Num (-74.0); Num 40.7] None 2%nat).
  - simpl. tauto.
  - left. split; reflexivity.
Defined.

End PointwiseProperties.

Section DimensionProperties.
Import Js.
Local Open Scope list_scope.

(** X24.  A dimension of 0.  The first definition of [forEachPoint] takes it
    for the default 2.  The second keeps it: the loop then never
    advances, and on an array that is not empty it does not end, whatever
    the number of steps allowed; on the empty array it returns at once. *)
Theorem forEachPoint_dimension_zero
    (func : PointTransform) (input : array) (opt_output : output_arg) :
  V1.forEachPoint func input opt_output (Some 0%nat)
  = V1.forEachPoint func input opt_output None
  /\ (input <> [] ->
      V2.forEachPoint func input opt_output (Some 0%nat) = None
      /\ forall (fuel : nat) (in_place : bool) (cur output : array),
           for_offsets fuel func in_place (List.length input) 0 0 cur output
           = None)
  /\ (input = [] ->
      exists output,
        V2.forEachPoint func input opt_output (Some 0%nat) = Some output).
Proof.
  split; [reflexivity|]. split.
  - intros Hne. split.
    + now apply JsFacts.forEachPoint2_zero_dimension.
    + intros fuel in_place cur output. apply JsFacts.for_offsets_stuck.
      destruct input; [contradiction | simpl; lia].
  - intros ->. unfold V2.forEachPoint, run_points. simpl. eauto.
Qed.

End DimensionProperties.

(** ** [projzh] and the arrays it is handed *)

Module HeapFacts.
Import Heap.
Local Open Scope list_scope.

Lemma read_write_same (h : t) : forall (r : ref) (a : Js.array),
  (r < List.length h)%nat -> read (write h r a) r = a.
Proof.
  unfold read. induction h as [|x h IH]; intros [|r] a Hr; simpl in *;
    try lia; [reflexivity | apply IH; lia].
Qed.

Lemma read_write_other (h : t) : forall (r r' : ref) (a : Js.array),
  r' <> r -> read (write h r a) r' = read h r'.
Proof.
  unfold read. induction h as [|x h IH]; intros [|r] [|r'] a Hne; simpl;
    try reflexivity; try congruence. apply IH. congruence.
Qed.


Lemma write_write (h : t) : forall (r : ref) (a b : Js.array),
  write (write h r a) r b = write h r b.
Proof.
  induction h as [|x h IH]; intros [|r] a b; simpl; try reflexivity.
  now rewrite IH.
Qed.

Lemma write_read (h : t) : forall r : ref, write h r (read h r) = h.
Proof.
  unfold read. induction h as [|x h IH]; intros [|r]; simpl;
    try reflexivity. now rewrite IH.
Qed.

Lemma read_alloc_new (h : t) (a : Js.array) :
  read (h ++ [a]) (List.length h) = a.
Proof. unfold read. now rewrite nth_middle. Qed.

Lemma read_alloc_old (h : t) (a : Js.array) (r : ref) :
  (r < List.length h)%nat -> read (h ++ [a]) r = read h r.
Proof. intros Hr. unfold read. now apply app_nth1. Qed.

Lemma write_alloc_new (h : t) (a b : Js.array) :
  write (h ++ [a]) (List.length h) b = h ++ [b].
Proof. induction h as [|x h IH]; simpl; [reflexivity | now rewrite IH]. Qed.

(** A call that writes into its input. *)
Lemma call_in_place
    (transform : Js.array -> Js.output_arg -> option nat -> option Js.array)
    (r : ref) (opt_dimension : option nat) (h : t) :
  call transform r (Some r) opt_dimension h
  = match transform (read h r) Js.InPlace opt_dimension with
    | Some result => Some (r, write h r result)
    | None => None
    end.
Proof. unfold call. now rewrite Nat.eqb_refl. Qed.

End HeapFacts.

Module ProjzhFacts.
Import Heap Js.
Local Open Scope list_scope.

(** A step that writes into its input computes what it computes apart. *)
Lemma step_in_place
    (transform : array -> output_arg -> option nat -> option array)
    (r : ref) (opt_dimension : option nat) (h : t) (a : array) :
  In transform built_transforms ->
  opt_dimension <> Some 1%nat ->
  (r < List.length h)%nat ->
  call transform r (Some r) opt_dimension (write h r a)
  = match transform a Omitted opt_dimension with
    | Some b => Some (r, write h r b)
    | None => None
    end.
Proof.
  intros Hin Hd Hr. rewrite HeapFacts.call_in_place.
  rewrite HeapFacts.read_write_same by exact Hr.
  rewrite (@LoopFacts2.built_in_place transform a opt_dimension Hin Hd).
  destruct (transform a Omitted opt_dimension); [|reflexivity].
  now rewrite HeapFacts.write_write.
Qed.

Lemma first_step_in_place
    (transform : array -> output_arg -> option nat -> option array)
    (r : ref) (opt_dimension : option nat) (h : t) :
  In transform built_transforms ->
  opt_dimension <> Some 1%nat ->
  (r < List.length h)%nat ->
  call transform r (Some r) opt_dimension h
  = match transform (read h r) Omitted opt_dimension with
    | Some b => Some (r, write h r b)
    | None => None
    end.
Proof.
  intros Hin Hd Hr.
  rewrite <- (HeapFacts.write_read h r) at 1.
  now apply step_in_place.
Qed.

Lemma pipeline_returns
    (steps : list (array -> output_arg -> option nat -> option array))
    (opt_dimension : option nat) :
  (forall step, In step steps -> In step built_transforms) ->
  opt_dimension <> Some 0%nat ->
  forall a, exists result, pipeline steps opt_dimension a = Some result.
Proof.
  intros Hsteps Hd. induction steps as [|step later IH]; intros a; simpl.
  - eauto.
  - destruct (@LoopFacts2.built_returns step a Omitted opt_dimension)
      as [b ->]; [apply Hsteps; now left | exact Hd |].
    apply IH. intros s Hs. apply Hsteps. now right.
Qed.

End ProjzhFacts.

Module ProjzhFacts2.
Import Heap Js.
Local Open Scope list_scope.

Ltac in_built :=
  unfold built_transforms; simpl; tauto.

Lemma chain_in_place
    (transform : ref -> option ref -> option nat -> t -> option (ref * t))
    (steps : list (array -> output_arg -> option nat -> option array))
    (input : ref) (opt_output : option ref) (opt_dimension : option nat)
    (h : t) (result : array) :
  In (transform, steps) in_place_chains ->
  (input < List.length h)%nat ->
  opt_dimension <> Some 1%nat ->
  pipeline steps opt_dimension (read h input) = Some result ->
  transform input opt_output opt_dimension h
  = Some (input, write h input result).
Proof.
  intros Hin Hr Hd1 Hres. unfold in_place_chains in Hin. simpl in Hin.
  destruct Hin as [E|[E|[E|[E|[E|[]]]]]]; injection E as <- <-;
    unfold Projzh1.smerc2gmerc, Projzh1.gmerc2smerc, Projzh2.smerc2gmerc,
      Projzh2.gmerc2smerc, Projzh2.gmerc2ll, Projzh1.smerc2ll,
      Projzh1.ll2smerc, Projzh2.smerc2ll, Projzh2.ll2smerc;
    simpl in Hres;
    rewrite ProjzhFacts.first_step_in_place
      by (try in_built; assumption);
    destruct (_ (read h input) Omitted opt_dimension) as [r1|];
      try discriminate; cbn [bind];
    rewrite ProjzhFacts.step_in_place by (try in_built; assumption);
    destruct (_ r1 Omitted opt_dimension) as [r2|];
      try discriminate; cbn [bind];
    try (injection Hres as <-; reflexivity);
    rewrite ProjzhFacts.step_in_place by (try in_built; assumption);
    destruct (_ r2 Omitted opt_dimension) as [r3|];
      try discriminate; cbn [bind];
    injection Hres as <-; reflexivity.
Qed.


End ProjzhFacts2.

Section ProjzhProperties.
Import Heap Js.
Local Open Scope list_scope.

Ltac in_built :=
  unfold built_transforms; simpl; tauto.

(** X25.  The transforms of [projzh] between the two Mercator projections, and
    [gmerc2ll] of the second definition, work in place whatever output
    array they are handed: they return the input array, which then holds
    the result of their steps on what it held, and they leave every other
    array, the one given as output too, as it was. *)
Theorem projzh_chains_work_in_place
    (transform : ref -> option ref -> option nat -> t -> option (ref * t))
    (steps : list (array -> output_arg -> option nat -> option array))
    (input : ref) (opt_output : option ref) (opt_dimension : option nat)
    (h : t) :
  In (transform, steps) in_place_chains ->
  (input < List.length h)%nat ->
  opt_dimension <> Some 0%nat -> opt_dimension <> Some 1%nat ->
  exists result,
    pipeline steps opt_dimension (read h input) = Some result
    /\ transform input opt_output opt_dimension h
       = Some (input, write h input result).
Proof.
  intros Hin Hr Hd0 Hd1. unfold in_place_chains in Hin. simpl in Hin.
  assert (Hall : forall s, In s steps -> In s built_transforms).
  { destruct Hin as [E|[E|[E|[E|[E|[]]]]]]; injection E as _ <-;
      intros s Hs; simpl in Hs; unfold built_transforms; simpl; tauto. }
  destruct (@ProjzhFacts.pipeline_returns steps opt_dimension Hall Hd0
              (read h input)) as [result Hres].
  exists result. split; [exact Hres|].
  now apply ProjzhFacts2.chain_in_place with (steps := steps).
Qed.

End ProjzhProperties.

Section ProjzhOutputs.
Import Heap Js.
Local Open Scope list_scope.

Ltac in_built :=
  unfold built_transforms; simpl; tauto.

Lemma projzh_chains_work_in_place_witness :
  exists result,
    pipeline [V1.sphericalMercator.inverse; V1.gcj02.fromWGS84;
              V1.sphericalMercator.forward] None
      (read [[Num 12958000; Num 4852000]; []] 0%nat) = Some result
    /\ Projzh1.smerc2gmerc 0%nat (Some 1%nat) None
         [[Num 12958000; Num 4852000]; []]
       = Some (0%nat, write [[Num 12958000; Num 4852000]; []] 0%nat result).
Proof.
  apply (@projzh_chains_work_in_place Projzh1.smerc2gmerc
           [V1.sphericalMercator.inverse; V1.gcj02.fromWGS84;
            V1.sphericalMercator.forward]
           0%nat (Some 1%nat) None [[Num 12958000; Num 4852000]; []]).
  - unfold in_place_chains. simpl. tauto.
  - simpl. lia.
  - discriminate.
  - discriminate.
Defined.

(** X26.  [ll2gmerc] respects its input.  Without an output array it returns a
    new array holding the result of its two steps and leaves the input as
    it was; with the input as output array it puts that result in the
    input; with another output array it returns that array and leaves
    the input as it was. *)
Theorem ll2gmerc_keeps_its_input
    (ll2gmerc : ref -> option ref -> option nat -> t -> option (ref * t))
    (steps : list (array -> output_arg -> option nat -> option array))
    (input : ref) (opt_dimension : option nat) (h : t) :
  In (ll2gmerc, steps) ll2gmerc_chains ->
  (input < List.length h)%nat ->
  opt_dimension <> Some 0%nat -> opt_dimension <> Some 1%nat ->
  exists result,
    pipeline steps opt_dimension (read h input) = Some result
    /\ ll2gmerc input None opt_dimension h
       = Some (List.length h, h ++ [result])
    /\ ll2gmerc input (Some input) opt_dimension h
       = Some (input, write h input result)
    /\ forall output : ref,
         output <> input -> (output < List.length h)%nat ->
         exists h',
           ll2gmerc input (Some output) opt_dimension h = Some (output, h')
           /\ read h' input = read h input.
Proof.
  intros Hin Hr Hd0 Hd1. unfold ll2gmerc_chains in Hin. simpl in Hin.
  assert (Hall : forall s, In s steps -> In s built_transforms).
  { destruct Hin as [E|[E|[]]]; injection E as _ <-;
      intros s Hs; simpl in Hs; unfold built_transforms; simpl; tauto. }
  destruct (@ProjzhFacts.pipeline_returns steps opt_dimension Hall Hd0
              (read h input)) as [result Hres].
  exists result. split; [exact Hres|].
  destruct Hin as [E|[E|[]]]; injection E as <- <-;
    unfold Projzh1.ll2gmerc, Projzh2.ll2gmerc, Projzh1.ll2smerc,
      Projzh2.ll2smerc;
    simpl in Hres;
    (destruct (_ (read h input) Omitted opt_dimension) as [r1|] eqn:E1;
     [|discriminate]);
    (destruct (_ r1 Omitted opt_dimension) as [r2|] eqn:E2;
     [|discriminate]);
    injection Hres as <-;
    (split;
     [unfold call at 1; rewrite E1; cbn [bind alloc];
      rewrite HeapFacts.call_in_place, HeapFacts.read_alloc_new;
      rewrite LoopFacts2.built_in_place by (try in_built; assumption);
      rewrite E2, HeapFacts.write_alloc_new; reflexivity
     | split;
       [rewrite ProjzhFacts.first_step_in_place
          by (try in_built; assumption);
        rewrite E1; cbn [bind];
        rewrite ProjzhFacts.step_in_place by (try in_built; assumption);
        rewrite E2; reflexivity
       | intros output Hne Hout; unfold call at 1;
         destruct (Nat.eqb_spec output input) as [|_]; [contradiction|];
         match goal with
         | |- context [?f ?a (Into ?b) opt_dimension] =>
             destruct (@LoopFacts2.built_returns f a (Into b) opt_dimension
                         ltac:(in_built) Hd0) as [q1 ->]
         end;
         cbn [bind]; rewrite HeapFacts.call_in_place;
         rewrite HeapFacts.read_write_same by exact Hout;
         match goal with
         | |- context [?f ?a InPlace opt_dimension] =>
             destruct (@LoopFacts2.built_returns f a InPlace opt_dimension
                         ltac:(in_built) Hd0) as [q2 ->]
         end;
         eexists; (split; [reflexivity|]);
         rewrite !HeapFacts.read_write_other by congruence; reflexivity]]).
Qed.

Lemma ll2gmerc_keeps_its_input_witness :
  exists result,
    pipeline [V2.gcj02.fromWGS84; V2.sphericalMercator.forward] None
      (read [[Num 116.4; Num 39.9]] 0%nat) = Some result
    /\ Projzh2.ll2gmerc 0%nat None None [[Num 116.4; Num 39.9]]
       = Some (1%nat, [[Num 116.4; Num 39.9]] ++ [result]).
Proof.
  destruct (@ll2gmerc_keeps_its_input Projzh2.ll2gmerc
              [V2.gcj02.fromWGS84; V2.sphericalMercator.forward]
              0%nat None [[Num 116.4; Num 39.9]])
    as (result & Hres & Hnew & _).
  - unfold ll2gmerc_chains. simpl. tauto.
  - simpl. lia.
  - discriminate.
  - discriminate.
  - exists result. split; [exact Hres | exact Hnew].
Defined.



End ProjzhOutputs.

Section ProjzhOutsideChina.
Import Heap Js MercatorReal.
Local Open Scope R_scope.
Local Open Scope list_scope.





End ProjzhOutsideChina.
